(** * Path finding of the Lightning router: routing/pathfind.go

    A shallow embedding of the route arithmetic ([computeFee],
    [computePathFee], [edgeWeight]), of route construction ([newRoute],
    [NewRouteFromHops]) and of the searches ([findPath], [findKPaths],
    [findPaths]), followed by the properties checked against them.

    Machine integers are integers of [Z] with the wrap-around of their Go
    type written out; maps and sets of the Go code are [gmap] and [gset]. *)

From Stdlib Require Import Sorted.
From stdpp Require Import gmap list.

Local Open Scope Z_scope.

(** ** Machine integers *)

(** [uint64], [uint32]: the value modulo 2^64, 2^32. *)
Definition u64 (z : Z) : Z := z mod 2 ^ 64.
Definition u32 (z : Z) : Z := z mod 2 ^ 32.

(** [int64]: two's complement, range [-2^63, 2^63). The conversion
    [int64(x)] of a [uint64] is [i64 x] as well. *)
Definition i64 (z : Z) : Z := (z + 2 ^ 63) mod 2 ^ 64 - 2 ^ 63.

Definition is_u64 (z : Z) : Prop := 0 <= z < 2 ^ 64.
Definition is_u32 (z : Z) : Prop := 0 <= z < 2 ^ 32.
Definition is_u16 (z : Z) : Prop := 0 <= z < 2 ^ 16.

(** ** Outcomes of running Go code *)

(** A call returns, panics at run time (index out of range, nil
    dereference) or exhausts the loop bound given to the model. *)
Inductive exec (A : Type) : Type :=
| Ret (a : A)
| Panic
| OutOfFuel.
Arguments Ret {A} a.
Arguments Panic {A}.
Arguments OutOfFuel {A}.

#[global] Instance exec_ret : MRet exec := fun A a => Ret a.
#[global] Instance exec_bind : MBind exec := fun A B k m =>
  match m with
  | Ret a => k a
  | Panic => Panic
  | OutOfFuel => OutOfFuel
  end.

(** The error kinds of the package; [ErrOther] stands for an error handed
    up by the graph store. *)
Inductive routerError : Type :=
| ErrNoPathFound
| ErrNoRouteFound
| ErrMaxHopsExceeded
| ErrFeeLimitExceeded
| ErrPegNotInNetwork
| ErrNoRouteHopsProvided
| ErrOther.

(** Go's [(T, error)] with exactly one of the two set. *)
Inductive result (A : Type) : Type :=
| Ok (a : A)
| Err (e : routerError).
Arguments Ok {A} a.
Arguments Err {A} e.

(** [l[i]]: panics out of range. *)
Definition idx {A : Type} (l : list A) (i : nat) : exec A :=
  match l !! i with
  | Some x => Ret x
  | None => Panic
  end.

(** ** Constants *)

Definition HopLimit : nat := 20.
Definition infinity : Z := 2 ^ 63 - 1.
Definition RiskFactorBillionths : Z := 15.
Definition noFeeLimit : Z := 2 ^ 32 - 1.

(** ** Data *)

(** A vertex is the 33-byte serialisation of a compressed public key, here
    the number those bytes spell; equality is equality of the bytes. *)
Definition Vertex : Type := Z.

(** Modelled from the spec: the declarations of channeldb.LightningNode,
    channeldb.ChannelEdgePolicy and channeldb.ChannelEdgeInfo are not part of
    pathfind.go; the fields are the ones pathfind.go reads, with the types
    its expressions force ([FeeBaseMSat], [FeeProportionalMillionths] and
    [MinHTLC] are lnwire.MilliSatoshi, a 64-bit unsigned amount in
    millisatoshi; [TimeLockDelta] is a uint16). *)
Module LightningNode.
Record t : Type := Build { PubKeyBytes : Vertex }.
End LightningNode.

Module ChannelEdgePolicy.
Record t : Type := Build {
  ChannelID : Z;
  ChannelFlags : Z;
  TimeLockDelta : Z;
  MinHTLC : Z;
  FeeBaseMSat : Z;
  FeeProportionalMillionths : Z;
  Node : LightningNode.t
}.

Definition wf (e : t) : Prop :=
  is_u64 (ChannelID e) /\ is_u16 (TimeLockDelta e) /\ is_u64 (MinHTLC e) /\
  is_u64 (FeeBaseMSat e) /\ is_u64 (FeeProportionalMillionths e).
End ChannelEdgePolicy.

Module ChannelEdgeInfo.
Record t : Type := Build {
  ChannelID : Z;
  NodeKey1Bytes : Vertex;
  NodeKey2Bytes : Vertex;
  Capacity : Z
}.
End ChannelEdgeInfo.

Module HopPeg.
Record t : Type := Build { NodeID : Vertex; ChannelID : Z }.
End HopPeg.

Module Hop.
Record t : Type := Build {
  PubKeyBytes : Vertex;
  ChannelID : Z;
  OutgoingTimeLock : Z;
  AmtToForward : Z
}.
End Hop.

Module Route.
Record t : Type := Build {
  TotalTimeLock : Z;
  TotalFees : Z;
  TotalAmount : Z;
  SourcePubKey : Vertex;
  Hops : list Hop.t;
  nodeIndex : gset Vertex;
  chanIndex : gset Z
}.
End Route.

(** ** Fees *)

(** Go's [/] truncates; on [uint64] operands the product wraps first. *)
Definition computeFee (amt : Z) (edge : ChannelEdgePolicy.t) : Z :=
  u64 (ChannelEdgePolicy.FeeBaseMSat edge +
       u64 (amt * ChannelEdgePolicy.FeeProportionalMillionths edge) `quot` 1000000).

(** One round of the loop of [computePathFee], at index [i]; the state is
    [nextIncomingAmount]. *)
Definition computePathFee_body (amt : Z) (pathEdges : list ChannelEdgePolicy.t)
    (i : nat) (nextIncomingAmount : Z) : exec Z :=
  '(amtToForward, fee) ←
    (if bool_decide (i ≠ (length pathEdges - 1)%nat) then
       nxt ← idx pathEdges (i + 1)%nat;
       mret (nextIncomingAmount, computeFee nextIncomingAmount nxt)
     else mret (amt, 0));
  mret (u64 (amtToForward + fee)).

(** [for i := n - 1; i >= 0; i--]. *)
Fixpoint computePathFee_loop (amt : Z) (pathEdges : list ChannelEdgePolicy.t)
    (n : nat) (nextIncomingAmount : Z) : exec Z :=
  match n with
  | O => mret nextIncomingAmount
  | S i =>
      nextIncomingAmount' ← computePathFee_body amt pathEdges i nextIncomingAmount;
      computePathFee_loop amt pathEdges i nextIncomingAmount'
  end.

Definition computePathFee (amt : Z) (pathEdges : list ChannelEdgePolicy.t) : exec Z :=
  nextIncomingAmount ← computePathFee_loop amt pathEdges (length pathEdges) 0;
  mret (u64 (nextIncomingAmount - amt)).

(** [isSamePath]: same length and the same channel at every index. *)
Fixpoint isSamePath (path1 path2 : list ChannelEdgePolicy.t) : bool :=
  match path1, path2 with
  | [], [] => true
  | e1 :: p1, e2 :: p2 =>
      if bool_decide (ChannelEdgePolicy.ChannelID e1 ≠ ChannelEdgePolicy.ChannelID e2)
      then false else isSamePath p1 p2
  | _, _ => false
  end.

(** ** Routes *)

(** [l[i]] with an index of type [int]: panics on a negative index and on
    one that is not below the length. *)
Definition idx_int {A : Type} (l : list A) (i : Z) : exec A :=
  if bool_decide (i < 0) then Panic else idx l (Z.to_nat i).

(** The parameter [hopIndex] is an [int]. [hopIndex - 1] wraps only at
    the least [int], where the index is outside the slice with and without
    the wrap. *)
Definition HopFee (r : Route.t) (hopIndex : Z) : exec Z :=
  incomingAmt ←
    (if bool_decide (hopIndex = 0) then mret (Route.TotalAmount r)
     else h ← idx_int (Route.Hops r) (hopIndex - 1);
          mret (Hop.AmtToForward h));
  h ← idx_int (Route.Hops r) hopIndex;
  mret (u64 (incomingAmt - Hop.AmtToForward h)).

Definition containsNode (r : Route.t) (v : Vertex) : bool :=
  bool_decide (v ∈ Route.nodeIndex r).

Definition containsChannel (r : Route.t) (chanID : Z) : bool :=
  bool_decide (chanID ∈ Route.chanIndex r).

Definition NewRouteFromHops (amtToSend timeLock : Z) (sourceVertex : Vertex)
    (hops : list Hop.t) : exec (result Route.t) :=
  if bool_decide (length hops = 0%nat) then mret (Err ErrNoRouteHopsProvided)
  else
    lastHop ← idx hops (length hops - 1)%nat;
    mret (Ok {|
      Route.SourcePubKey := sourceVertex;
      Route.Hops := hops;
      Route.TotalTimeLock := timeLock;
      Route.TotalAmount := amtToSend;
      Route.TotalFees := u64 (amtToSend - Hop.AmtToForward lastHop);
      Route.nodeIndex :=
        foldl (fun s hop => {[ Hop.PubKeyBytes hop ]} ∪ s) ∅ hops;
      Route.chanIndex :=
        foldl (fun s hop => {[ Hop.ChannelID hop ]} ∪ s) ∅ hops
    |}).

(** The loop state of [newRoute]. *)
Record newRouteState : Type := {
  nr_hops : list Hop.t;
  nr_totalTimeLock : Z;
  nr_nextIncomingAmount : Z
}.

Definition newRoute_body (amtToSend : Z) (pathEdges : list ChannelEdgePolicy.t)
    (currentHeight finalCLTVDelta : Z) (i : nat) (st : newRouteState)
    : exec newRouteState :=
  edge ← idx pathEdges i;
  '(amtToForward, fee) ←
    (if bool_decide (i ≠ (length pathEdges - 1)%nat) then
       nxt ← idx pathEdges (i + 1)%nat;
       mret (nr_nextIncomingAmount st,
             computeFee (nr_nextIncomingAmount st) nxt)
     else mret (amtToSend, 0));
  '(totalTimeLock, outgoingTimeLock) ←
    (if bool_decide (i = (length pathEdges - 1)%nat) then
       mret (u32 (nr_totalTimeLock st + finalCLTVDelta),
             u32 (currentHeight + finalCLTVDelta))
     else
       nxt ← idx pathEdges (i + 1)%nat;
       let delta := ChannelEdgePolicy.TimeLockDelta nxt in
       let totalTimeLock := u32 (nr_totalTimeLock st + delta) in
       mret (totalTimeLock, u32 (totalTimeLock - delta)));
  let currentHop := {|
    Hop.PubKeyBytes := LightningNode.PubKeyBytes (ChannelEdgePolicy.Node edge);
    Hop.ChannelID := ChannelEdgePolicy.ChannelID edge;
    Hop.AmtToForward := amtToForward;
    Hop.OutgoingTimeLock := outgoingTimeLock |} in
  mret {| nr_hops := currentHop :: nr_hops st;
          nr_totalTimeLock := totalTimeLock;
          nr_nextIncomingAmount := u64 (amtToForward + fee) |}.

Fixpoint newRoute_loop (amtToSend : Z) (pathEdges : list ChannelEdgePolicy.t)
    (currentHeight finalCLTVDelta : Z) (n : nat) (st : newRouteState)
    : exec newRouteState :=
  match n with
  | O => mret st
  | S i =>
      st' ← newRoute_body amtToSend pathEdges currentHeight finalCLTVDelta i st;
      newRoute_loop amtToSend pathEdges currentHeight finalCLTVDelta i st'
  end.

(** The variables of [newRoute] before its loop. *)
Definition newRoute_init (currentHeight : Z) : newRouteState :=
  {| nr_hops := []; nr_totalTimeLock := currentHeight;
     nr_nextIncomingAmount := 0 |}.

Definition newRoute (amtToSend feeLimit : Z) (sourceVertex : Vertex)
    (pathEdges : list ChannelEdgePolicy.t) (currentHeight finalCLTVDelta : Z)
    : exec (result Route.t) :=
  st ← newRoute_loop amtToSend pathEdges currentHeight finalCLTVDelta
         (length pathEdges) (newRoute_init currentHeight);
  r ← NewRouteFromHops (nr_nextIncomingAmount st) (nr_totalTimeLock st)
        sourceVertex (nr_hops st);
  match r with
  | Err e => mret (Err e)
  | Ok newRoute =>
      if bool_decide (feeLimit < Route.TotalFees newRoute)
      then mret (Err ErrFeeLimitExceeded)
      else mret (Ok newRoute)
  end.

(** The state of the loop of [newRoute] once it has walked the edges
    [e :: rest] backwards, by recursion on the edges: the closed form of
    [newRoute_loop] that the proofs go through ([newRoute_loop_walk]). *)
Definition walkStep (amtToSend currentHeight finalCLTVDelta : Z)
    (e : ChannelEdgePolicy.t) (rest : list ChannelEdgePolicy.t)
    (st : newRouteState) : newRouteState :=
  let mk amtToForward outgoingTimeLock := {|
    Hop.PubKeyBytes := LightningNode.PubKeyBytes (ChannelEdgePolicy.Node e);
    Hop.ChannelID := ChannelEdgePolicy.ChannelID e;
    Hop.AmtToForward := amtToForward;
    Hop.OutgoingTimeLock := outgoingTimeLock |} in
  match rest with
  | [] =>
      {| nr_hops := mk amtToSend (u32 (currentHeight + finalCLTVDelta)) :: nr_hops st;
         nr_totalTimeLock := u32 (nr_totalTimeLock st + finalCLTVDelta);
         nr_nextIncomingAmount := u64 (amtToSend + 0) |}
  | nxt :: _ =>
      let delta := ChannelEdgePolicy.TimeLockDelta nxt in
      let totalTimeLock := u32 (nr_totalTimeLock st + delta) in
      {| nr_hops := mk (nr_nextIncomingAmount st) (u32 (totalTimeLock - delta))
                      :: nr_hops st;
         nr_totalTimeLock := totalTimeLock;
         nr_nextIncomingAmount :=
           u64 (nr_nextIncomingAmount st +
                computeFee (nr_nextIncomingAmount st) nxt) |}
  end.

Fixpoint walk (amtToSend currentHeight finalCLTVDelta : Z)
    (edges : list ChannelEdgePolicy.t) : newRouteState :=
  match edges with
  | [] => newRoute_init currentHeight
  | e :: rest =>
      walkStep amtToSend currentHeight finalCLTVDelta e rest
               (walk amtToSend currentHeight finalCLTVDelta rest)
  end.

(** ** Edge weight *)

Definition edgeWeight (lockedAmt fee timeLockDelta : Z) : Z :=
  let timeLockPenalty :=
    i64 (i64 (i64 lockedAmt * timeLockDelta) * RiskFactorBillionths)
      `quot` 1000000000 in
  i64 (i64 fee + timeLockPenalty).

(** ** What pathfind.go takes from the rest of the repository *)

(** An edge locator is a channel with a direction. *)
Definition edgeLocator : Type := (Z * Z)%type.

(** The helpers of lnwire and of the router that pathfind.go calls and does
    not define: they are parameters of the development. *)
Class Externals : Type := {
  newEdgeLocator : ChannelEdgePolicy.t → edgeLocator;
  ChanUpdateDisabled : Z;
  NewMSatFromSatoshis : Z → Z
}.

(** Modelled from the spec: the graph store (channeldb.ChannelGraph and the
    transaction it is read through) is consumed by interface only. A node
    handle is its public key; [ForEachChannel v] lists, for each channel
    adjacent to [v], the channel, the outgoing and the incoming policy;
    every operation may fail with an error of the store. *)
Record ChannelGraph : Type := {
  Begin : option routerError;
  ForEachNode : result (list LightningNode.t);
  ForEachChannel : Vertex →
    result (list (ChannelEdgeInfo.t * option ChannelEdgePolicy.t *
                  option ChannelEdgePolicy.t));
  FetchOtherNode : ChannelEdgeInfo.t → Vertex → result LightningNode.t;
  OtherNodeKeyBytes : ChannelEdgeInfo.t → Vertex → result Vertex;
  FetchChannelEdgesByID : Z →
    result (ChannelEdgeInfo.t * option ChannelEdgePolicy.t *
            option ChannelEdgePolicy.t);
  FetchLightningNode : Vertex → result LightningNode.t
}.

(** The two priority queues, [distanceHeap] and [pathHeap], are slices
    driven by [container/heap] of the Go library (imported at line 9):
    [heap.Push] appends and sifts the new element up, [heap.Pop] swaps the
    root with the last element, sifts the new root down over the others and
    takes the last element off. The queue is the slice itself, so that the
    element taken among several of least key is the one the program takes.

    Modelled from the spec: the methods of heap.go that [container/heap]
    calls. [Less(i, j)] compares the keys with [<] (the distance of a
    [nodeWithDist], the hop count [dist] of a [path]), [Swap] exchanges two
    elements, [Push] appends and [Pop] removes the last element.
    [container/heap] calls [Less] and [Swap] with indices of the slice
    only. *)
Section Heap.
Context {A : Type} (key : A → Z).

Definition heap_less (h : list A) (i j : nat) : bool :=
  match h !! i, h !! j with
  | Some a, Some b => bool_decide (key a < key b)
  | _, _ => false
  end.

Definition heap_swap (h : list A) (i j : nat) : list A :=
  match h !! i, h !! j with
  | Some a, Some b => <[i := b]> (<[j := a]> h)
  | _, _ => h
  end.

(** [up(h, j)]: [for { i := (j - 1) / 2; if i == j || !h.Less(j, i)
    { break }; h.Swap(i, j); j = i }]. The index halves in every round, so
    [j + 1] rounds are never used up. *)
Fixpoint heap_up (fuel : nat) (h : list A) (j : nat) : list A :=
  match fuel with
  | O => h
  | S fuel' =>
      let i := ((j - 1) / 2)%nat in
      if bool_decide (i = j) || negb (heap_less h j i) then h
      else heap_up fuel' (heap_swap h i j) i
  end.

(** [down(h, i0, n)]: the smaller child moves up as long as it is less
    than the element sifted down. The index grows in every round and stays
    below [n], so [n] rounds are never used up. *)
Fixpoint heap_down (fuel : nat) (h : list A) (i n : nat) : list A :=
  match fuel with
  | O => h
  | S fuel' =>
      let j1 := (2 * i + 1)%nat in
      if bool_decide (n ≤ j1)%nat then h
      else
        let j := if bool_decide (j1 + 1 < n)%nat && heap_less h (j1 + 1) j1
                 then (j1 + 1)%nat else j1 in
        if negb (heap_less h j i) then h
        else heap_down fuel' (heap_swap h i j) j n
  end.

(** [heap.Push(h, x)]: [h.Push(x); up(h, h.Len()-1)]. *)
Definition heap_push (h : list A) (x : A) : list A :=
  heap_up (S (length h)) (h ++ [x]) (length h).

(** [heap.Pop(h)]: [n := h.Len() - 1; h.Swap(0, n); down(h, 0, n);
    return h.Pop()]. The callers test [Len() == 0] first: [None] is the
    empty queue. *)
Definition heap_pop (h : list A) : option (A * list A) :=
  match h with
  | [] => None
  | _ :: _ =>
      let n := (length h - 1)%nat in
      let h' := heap_down n (heap_swap h 0 n) 0 n in
      match last h' with
      | Some x => Some (x, take n h')
      | None => None
      end
  end.

(** The order of a binary heap: no element is less than its parent. *)
Definition is_heap (h : list A) : Prop :=
  ∀ j a b, (0 < j)%nat → h !! ((j - 1) / 2)%nat = Some a → h !! j = Some b →
           key a <= key b.

(** The key at an index of the slice. *)
Definition key_at (h : list A) (i : nat) : Z := from_option key 0 (h !! i).
End Heap.

(** The entries of the distance map and of the distance heap; a missing
    map entry reads as the zero value, whose node is nil. *)
Record nodeWithDist : Type := {
  dist : Z;
  node : option LightningNode.t;
  amountToReceive : Z;
  fee : Z
}.

Definition nodeWithDist_zero : nodeWithDist :=
  {| dist := 0; node := None; amountToReceive := 0; fee := 0 |}.

(** An entry of the path heap. *)
Record path : Type := {
  hops : list ChannelEdgePolicy.t;
  path_dist : Z
}.

Record graphParams : Type := {
  tx : bool;
  graph : ChannelGraph;
  additionalEdges : list (Vertex * list ChannelEdgePolicy.t);
  bandwidthHints : gmap Z Z;
  originVertex : option Vertex
}.

Record restrictParams : Type := {
  ignoredNodes : gset Vertex;
  ignoredEdges : gset edgeLocator;
  feeLimit : Z;
  outgoingChannelID : option Z;
  stopAtMaxHopsExceeded : bool
}.

(** ** Single-path search *)

(** The guard of [processEdge] that rejects an edge, or the entry recorded
    for its tail when none does. *)
Inductive edgeVerdict : Type :=
| SkipDisabled
| SkipOutgoingChannel
| SkipIgnoredNode
| SkipIgnoredEdge
| SkipBandwidth
| SkipMinHTLC
| SkipFeeLimit
| SkipDistance
| SkipZeroTimeLock
| Relax (d : nodeWithDist).

(** Whether the verdict is one of the guards that come before the guard
    on the time-lock delta. *)
Definition rejectedEarlier (v : edgeVerdict) : bool :=
  match v with
  | SkipZeroTimeLock | Relax _ => false
  | _ => true
  end.

Definition distance_at (distance : gmap Vertex nodeWithDist) (v : Vertex)
    : nodeWithDist :=
  default nodeWithDist_zero (distance !! v).

Section Search.
Context `{Externals}.

(** The guards of the closure [processEdge], in the order of the source;
    [r], [originV], [amt] and [distance] are the variables it captures. *)
Definition processEdge_verdict (r : restrictParams) (originV : Vertex)
    (amt : Z) (distance : gmap Vertex nodeWithDist)
    (fromNode : LightningNode.t) (edge : ChannelEdgePolicy.t)
    (bandwidth : Z) (toNode : Vertex) : edgeVerdict :=
  let fromVertex := LightningNode.PubKeyBytes fromNode in
  let isSourceChan := bool_decide (fromVertex = originV) in
  let edgeFlags := ChannelEdgePolicy.ChannelFlags edge in
  let isDisabled := bool_decide (Z.land edgeFlags ChanUpdateDisabled ≠ 0) in
  if negb isSourceChan && isDisabled then SkipDisabled else
  if isSourceChan &&
     match outgoingChannelID r with
     | Some c => bool_decide (c ≠ ChannelEdgePolicy.ChannelID edge)
     | None => false
     end
  then SkipOutgoingChannel else
  if bool_decide (fromVertex ∈ ignoredNodes r) then SkipIgnoredNode else
  if bool_decide (newEdgeLocator edge ∈ ignoredEdges r) then SkipIgnoredEdge else
  let toNodeDist := distance_at distance toNode in
  let amountToSend := amountToReceive toNodeDist in
  if bool_decide (bandwidth < amountToSend) then SkipBandwidth else
  if bool_decide (amountToSend < ChannelEdgePolicy.MinHTLC edge) then SkipMinHTLC else
  let '(fee, timeLockDelta) :=
    if bool_decide (fromVertex ≠ originV)
    then (computeFee amountToSend edge, ChannelEdgePolicy.TimeLockDelta edge)
    else (0, 0) in
  let amountToReceive := u64 (amountToSend + fee) in
  let totalFee := u64 (amountToReceive - amt) in
  if bool_decide (feeLimit r < totalFee) then SkipFeeLimit else
  let weight := edgeWeight amountToReceive fee timeLockDelta in
  let tempDist := i64 (dist toNodeDist + weight) in
  if bool_decide (dist (distance_at distance fromVertex) <= tempDist)
  then SkipDistance else
  if bool_decide (ChannelEdgePolicy.TimeLockDelta edge = 0)
  then SkipZeroTimeLock else
  Relax {| dist := tempDist; node := Some fromNode;
           amountToReceive := amountToReceive; fee := fee |}.

(** The maps and the heap that [processEdge] updates. *)
Record searchState : Type := {
  distance : gmap Vertex nodeWithDist;
  next : gmap Vertex ChannelEdgePolicy.t;
  nodeHeap : list nodeWithDist
}.

Definition processEdge (r : restrictParams) (originV : Vertex) (amt : Z)
    (fromNode : LightningNode.t) (edge : ChannelEdgePolicy.t)
    (bandwidth : Z) (toNode : Vertex) (st : searchState) : searchState :=
  match processEdge_verdict r originV amt (distance st) fromNode edge
          bandwidth toNode with
  | Relax d =>
      let fromVertex := LightningNode.PubKeyBytes fromNode in
      {| distance := <[fromVertex := d]> (distance st);
         next := <[fromVertex := edge]> (next st);
         nodeHeap := heap_push dist (nodeHeap st) d |}
  | _ => st
  end.

(** [edgePolicyWithSource]. *)
Record edgePolicyWithSource : Type := {
  sourceNode : LightningNode.t;
  edge : ChannelEdgePolicy.t
}.

Definition unreached (nd : LightningNode.t) : nodeWithDist :=
  {| dist := infinity; node := Some nd; amountToReceive := 0; fee := 0 |}.

(** The distance map after [ForEachNode]. *)
Definition initDistance (nodes : list LightningNode.t)
    : gmap Vertex nodeWithDist :=
  foldl (fun d nd => <[LightningNode.PubKeyBytes nd := unreached nd]> d)
        ∅ nodes.

(** The loop over [g.additionalEdges]: the tails enter the distance map
    and every edge is filed under its head. Go ranges over the map in an
    order of its own choosing; here it is the order of the list. *)
Definition addAdditionalEdges
    (acc : gmap Vertex nodeWithDist * gmap Vertex (list edgePolicyWithSource))
    (entry : Vertex * list ChannelEdgePolicy.t)
    : gmap Vertex nodeWithDist * gmap Vertex (list edgePolicyWithSource) :=
  let '(vertex, outgoingEdgePolicies) := entry in
  let nd := {| LightningNode.PubKeyBytes := vertex |} in
  (<[vertex := unreached nd]> acc.1,
   foldl (fun m outgoingEdgePolicy =>
            let toVertex := LightningNode.PubKeyBytes
                              (ChannelEdgePolicy.Node outgoingEdgePolicy) in
            <[toVertex := default [] (m !! toVertex) ++
                          [{| sourceNode := nd; edge := outgoingEdgePolicy |}]]> m)
         acc.2 outgoingEdgePolicies).

(** The callback handed to [ForEachChannel] for the pivot. *)
Definition visitChannel (g : graphParams) (r : restrictParams)
    (originV : Vertex) (amt : Z) (pivot : Vertex) (st : searchState)
    (c : ChannelEdgeInfo.t * option ChannelEdgePolicy.t *
         option ChannelEdgePolicy.t) : result searchState :=
  let '(edgeInfo, _, inEdge) := c in
  match inEdge with
  | None => Ok st
  | Some inEdge =>
      let edgeBandwidth :=
        match bandwidthHints g !! ChannelEdgeInfo.ChannelID edgeInfo with
        | Some b => b
        | None => NewMSatFromSatoshis (ChannelEdgeInfo.Capacity edgeInfo)
        end in
      match FetchOtherNode (graph g) edgeInfo pivot with
      | Err e => Err e
      | Ok channelSource =>
          Ok (processEdge r originV amt channelSource inEdge edgeBandwidth
                          pivot st)
      end
  end.

Fixpoint visitChannels (g : graphParams) (r : restrictParams)
    (originV : Vertex) (amt : Z) (pivot : Vertex)
    (cs : list (ChannelEdgeInfo.t * option ChannelEdgePolicy.t *
                option ChannelEdgePolicy.t))
    (st : searchState) : result searchState :=
  match cs with
  | [] => Ok st
  | c :: cs' =>
      match visitChannel g r originV amt pivot st c with
      | Err e => Err e
      | Ok st' => visitChannels g r originV amt pivot cs' st'
      end
  end.

(** [for nodeHeap.Len() != 0]: one unit of fuel per node taken off the
    heap. *)
Fixpoint searchLoop (fuel : nat) (g : graphParams) (r : restrictParams)
    (sourceVertex originV : Vertex) (amt : Z)
    (additionalEdgesWithSrc : gmap Vertex (list edgePolicyWithSource))
    (st : searchState) : exec (result searchState) :=
  match heap_pop dist (nodeHeap st) with
  | None => mret (Ok st)
  | Some (partialPath, h) =>
      match fuel with
      | O => OutOfFuel
      | S fuel' =>
          let st0 := {| distance := distance st; next := next st;
                        nodeHeap := h |} in
          match node partialPath with
          | None => Panic
          | Some bestNode =>
              let pivot := LightningNode.PubKeyBytes bestNode in
              if bool_decide (pivot = sourceVertex) then mret (Ok st0)
              else
                match ForEachChannel (graph g) pivot with
                | Err e => mret (Err e)
                | Ok cs =>
                    match visitChannels g r originV amt pivot cs st0 with
                    | Err e => mret (Err e)
                    | Ok st1 =>
                        let bandWidth := amountToReceive partialPath in
                        let st2 :=
                          foldl (fun s reverseEdge =>
                                   processEdge r originV amt
                                     (sourceNode reverseEdge)
                                     (edge reverseEdge) bandWidth pivot s)
                                st1
                                (default [] (additionalEdgesWithSrc !! pivot)) in
                        searchLoop fuel' g r sourceVertex originV amt
                                   additionalEdgesWithSrc st2
                    end
                end
          end
      end
  end.

(** [for currentNode != targetVertex]: follows the next-hop map; a vertex
    without an entry yields a nil edge, whose dereference panics. *)
Fixpoint unravel (fuel : nat) (next : gmap Vertex ChannelEdgePolicy.t)
    (targetVertex currentNode : Vertex)
    (pathEdges : list ChannelEdgePolicy.t)
    : exec (list ChannelEdgePolicy.t) :=
  if bool_decide (currentNode ≠ targetVertex) then
    match fuel with
    | O => OutOfFuel
    | S fuel' =>
        match next !! currentNode with
        | None => Panic
        | Some nextNode =>
            unravel fuel' next targetVertex
              (LightningNode.PubKeyBytes (ChannelEdgePolicy.Node nextNode))
              (pathEdges ++ [nextNode])
        end
    end
  else mret pathEdges.

(** The type of [findPath] and of [findKPaths]. [findPath] returns its
    pair as it is: the over-long path comes with [ErrMaxHopsExceeded]. *)
Definition findPathT : Type :=
  graphParams → restrictParams → LightningNode.t → Vertex → Z →
  exec (list ChannelEdgePolicy.t * option routerError).

Definition findKPathsT : Type :=
  graphParams → restrictParams → LightningNode.t → Vertex → Z →
  list ChannelEdgePolicy.t → Z →
  exec (result (list (list ChannelEdgePolicy.t))).

(** [findPath], with the [findKPaths] it calls when the path is too long
    as an argument ([findPath] and [findKPaths] call each other). *)
Definition findPath_gen (kpaths : findKPathsT) (fuel : nat) : findPathT :=
  fun g r sourceNode target amt =>
  match (if tx g then None else Begin (graph g)) with
  | Some e => mret ([], Some e)
  | None =>
  match ForEachNode (graph g) with
  | Err e => mret ([], Some e)
  | Ok nodes =>
      let '(distance0, additionalEdgesWithSrc) :=
        foldl addAdditionalEdges (initDistance nodes, ∅) (additionalEdges g) in
      let sourceVertex := LightningNode.PubKeyBytes sourceNode in
      let originV := default sourceVertex (originVertex g) in
      let targetVertex := target in
      let targetNode := {| LightningNode.PubKeyBytes := targetVertex |} in
      let targetDist := {| dist := 0; node := Some targetNode;
                           amountToReceive := amt; fee := 0 |} in
      let distance1 := <[targetVertex := targetDist]> distance0 in
      let st0 := {| distance := distance1; next := ∅;
                    nodeHeap := heap_push dist [] targetDist |} in
      sr ← searchLoop fuel g r sourceVertex originV amt
             additionalEdgesWithSrc st0;
      match sr with
      | Err e => mret ([], Some e)
      | Ok st =>
          match next st !! sourceVertex with
          | None => mret ([], Some ErrNoPathFound)
          | Some _ =>
              pathEdges ← unravel fuel (next st) targetVertex sourceVertex [];
              if bool_decide (HopLimit < length pathEdges)%nat then
                if stopAtMaxHopsExceeded r
                then mret (pathEdges, Some ErrMaxHopsExceeded)
                else
                  rk ← kpaths g r sourceNode target amt pathEdges 1;
                  match rk with
                  | Err _ | Ok [] => mret ([], Some ErrMaxHopsExceeded)
                  | Ok (p0 :: _) =>
                      match p0 with
                      | [] => Panic
                      | _ :: p0' => mret (p0', None)
                      end
                  end
              else mret (pathEdges, None)
          end
      end
  end
  end.

(** ** K shortest paths *)

(** The self edge put in front of the starting path. *)
Definition selfEdge (source : LightningNode.t) : ChannelEdgePolicy.t :=
  {| ChannelEdgePolicy.ChannelID := 0;
     ChannelEdgePolicy.ChannelFlags := 0;
     ChannelEdgePolicy.TimeLockDelta := 0;
     ChannelEdgePolicy.MinHTLC := 0;
     ChannelEdgePolicy.FeeBaseMSat := 0;
     ChannelEdgePolicy.FeeProportionalMillionths := 0;
     ChannelEdgePolicy.Node := source |}.

(** The edges to ignore at spur index [i]: the caller's, and the edge
    after the root path in each path found so far that starts with it. *)
Definition spurIgnoredEdges (r : restrictParams)
    (shortestPaths : list (list ChannelEdgePolicy.t))
    (rootPath : list ChannelEdgePolicy.t) (i : nat) : gset edgeLocator :=
  foldl (fun s p =>
           if bool_decide (i + 1 < length p)%nat &&
              isSamePath rootPath (take (i + 1) p)
           then match p !! (i + 1)%nat with
                | Some e => {[ newEdgeLocator e ]} ∪ s
                | None => s
                end
           else s)
        (ignoredEdges r) shortestPaths.

(** The vertices to ignore: those of the root path but the spur node. *)
Definition spurIgnoredVertexes (rootPath : list ChannelEdgePolicy.t)
    (spurNode : LightningNode.t) : gset Vertex :=
  foldl (fun s hop =>
           let nd := LightningNode.PubKeyBytes (ChannelEdgePolicy.Node hop) in
           if bool_decide (nd = LightningNode.PubKeyBytes spurNode) then s
           else {[ nd ]} ∪ s)
        ∅ rootPath.

(** [for i := 0; i < len(prevShortest)-1; i++], with [n] rounds left from
    index [i]: the candidate heap when the loop ends or breaks, or the
    error the function returns. *)
Fixpoint spurLoop (fp : findPathT) (g : graphParams) (r : restrictParams)
    (target : Vertex) (amt : Z)
    (shortestPaths : list (list ChannelEdgePolicy.t)) (validPathsNum : Z)
    (prevShortest : list ChannelEdgePolicy.t) (n i : nat)
    (candidatePaths : list path) : exec (result (list path)) :=
  match n with
  | O => mret (Ok candidatePaths)
  | S n' =>
      spurEdge ← idx prevShortest i;
      let spurNode := ChannelEdgePolicy.Node spurEdge in
      let rootPath := take (i + 1) prevShortest in
      let r' := {| ignoredNodes := spurIgnoredVertexes rootPath spurNode;
                   ignoredEdges := spurIgnoredEdges r shortestPaths rootPath i;
                   feeLimit := feeLimit r;
                   outgoingChannelID := None;
                   stopAtMaxHopsExceeded := true |} in
      '(spurPath, err) ← fp g r' spurNode target amt;
      match err with
      | Some ErrNoPathFound =>
          spurLoop fp g r target amt shortestPaths validPathsNum
                   prevShortest n' (S i) candidatePaths
      | Some ErrMaxHopsExceeded | None =>
          let newPathLen := (length rootPath + length spurPath)%nat in
          if bool_decide (HopLimit + 1 < newPathLen)%nat &&
             bool_decide (0 < validPathsNum)
          then mret (Ok candidatePaths)
          else
            let newPath := {| hops := rootPath ++ spurPath;
                              path_dist := Z.of_nat newPathLen |} in
            spurLoop fp g r target amt shortestPaths validPathsNum
                     prevShortest n' (S i)
                     (heap_push path_dist candidatePaths newPath)
      | Some e => mret (Err e)
      end
  end.

Record kPathsState : Type := {
  shortestPaths : list (list ChannelEdgePolicy.t);
  candidatePaths : list path;
  validPathsNum : Z
}.

(** [for k := uint32(1); validPathsNum < numPaths; k++]: one unit of fuel
    per round. *)
Fixpoint kPathsLoop (fuel : nat) (fp : findPathT) (g : graphParams)
    (r : restrictParams) (target : Vertex) (amt : Z) (numPaths : Z)
    (k : nat) (st : kPathsState) : exec (result kPathsState) :=
  if bool_decide (validPathsNum st < numPaths) then
    match fuel with
    | O => OutOfFuel
    | S fuel' =>
        prevShortest ← idx (shortestPaths st) (k - 1)%nat;
        rc ← spurLoop fp g r target amt (shortestPaths st)
               (validPathsNum st) prevShortest
               (length prevShortest - 1)%nat 0%nat (candidatePaths st);
        match rc with
        | Err e => mret (Err e)
        | Ok cands =>
            match heap_pop path_dist cands with
            | None =>
                mret (Ok {| shortestPaths := shortestPaths st;
                            candidatePaths := cands;
                            validPathsNum := validPathsNum st |})
            | Some (p, cands') =>
                let nextShortestPath := hops p in
                let valid :=
                  if bool_decide (length nextShortestPath ≤ HopLimit + 1)%nat
                  then u32 (validPathsNum st + 1)
                  else validPathsNum st in
                kPathsLoop fuel' fp g r target amt numPaths (S k)
                  {| shortestPaths := shortestPaths st ++ [nextShortestPath];
                     candidatePaths := cands';
                     validPathsNum := valid |}
            end
        end
    end
  else mret (Ok st).

(** The rounds of [findKPaths] with the candidate heap read as a bag. A
    round adds the candidates of its spur searches, which [spurLoop] gives
    when it starts from an empty heap; then it takes off a candidate [p]
    that has the fewest hops of all, whichever of them, and appends it to
    the paths found. [kRounds ... shortest cands valid out]: from the paths
    [shortest], the candidates [cands] and the counter [valid], the rounds
    end with the paths [out]. *)
Inductive kRounds (fp : findPathT) (g : graphParams) (r : restrictParams)
    (target : Vertex) (amt numPaths : Z)
    : list (list ChannelEdgePolicy.t) → list path → Z →
      list (list ChannelEdgePolicy.t) → Prop :=
| kRounds_enough shortest cands valid :
    ¬ valid < numPaths →
    kRounds fp g r target amt numPaths shortest cands valid shortest
| kRounds_empty shortest valid prevShortest :
    valid < numPaths →
    last shortest = Some prevShortest →
    spurLoop fp g r target amt shortest valid prevShortest
      (length prevShortest - 1) 0 [] = Ret (Ok []) →
    kRounds fp g r target amt numPaths shortest [] valid shortest
| kRounds_next shortest cands valid prevShortest new p rest out :
    valid < numPaths →
    last shortest = Some prevShortest →
    spurLoop fp g r target amt shortest valid prevShortest
      (length prevShortest - 1) 0 [] = Ret (Ok new) →
    cands ++ new ≡ₚ p :: rest →
    (∀ q, q ∈ rest → (length (hops p) ≤ length (hops q))%nat) →
    kRounds fp g r target amt numPaths (shortest ++ [hops p]) rest
      (if bool_decide (length (hops p) ≤ HopLimit + 1)%nat
       then u32 (valid + 1) else valid) out →
    kRounds fp g r target amt numPaths shortest cands valid out.

(** [path[0] = nil; path = path[1:]] on every path. *)
Fixpoint popFirstEdges (paths : list (list ChannelEdgePolicy.t))
    : exec (list (list ChannelEdgePolicy.t)) :=
  match paths with
  | [] => mret []
  | [] :: _ => Panic
  | (_ :: p) :: paths' =>
      rest ← popFirstEdges paths';
      mret (p :: rest)
  end.

Definition findKPaths_gen (fp : findPathT) (fuel : nat) : findKPathsT :=
  fun g r source target amt startingPath numPaths =>
  let sourceVertex := LightningNode.PubKeyBytes source in
  let firstPath := selfEdge source :: startingPath in
  let validPathsNum0 :=
    if bool_decide (length firstPath ≤ HopLimit + 1)%nat then 1 else 0 in
  rs ← kPathsLoop fuel fp g r target amt numPaths 1%nat
         {| shortestPaths := [firstPath]; candidatePaths := [];
            validPathsNum := validPathsNum0 |};
  match rs with
  | Err e => mret (Err e)
  | Ok st =>
      let fShortestPaths :=
        filter (fun p => length p ≤ HopLimit + 1)%nat (shortestPaths st) in
      match originVertex g with
      | Some o =>
          if bool_decide (sourceVertex ≠ o) then
            stripped ← popFirstEdges fShortestPaths;
            mret (Ok stripped)
          else mret (Ok fShortestPaths)
      | None => mret (Ok fShortestPaths)
      end
  end.

(** The two functions call each other, and the calls end after two steps:
    [findKPaths] always asks [findPath] to stop at an over-long path, and
    [findPath] then calls nothing. *)
Definition noKPaths : findKPathsT := fun _ _ _ _ _ _ _ => Panic.

Definition findPath_stop (fuel : nat) : findPathT :=
  findPath_gen noKPaths fuel.

Definition findKPaths (fuel : nat) : findKPathsT :=
  findKPaths_gen (findPath_stop fuel) fuel.

Definition findPath (fuel : nat) : findPathT :=
  findPath_gen (findKPaths fuel) fuel.

(** ** Pegged hops and stitched paths *)

(** The first loop of [prepareHopPegs], from index [i]. The public key of
    the other end is parsed from its bytes; a failure of the parser is an
    error of [OtherNodeKeyBytes] here. *)
Fixpoint expandHopPegs (graph : ChannelGraph) (i : nat)
    (pegs : list HopPeg.t) (expanded : list HopPeg.t)
    : result (list HopPeg.t) :=
  match pegs with
  | [] => Ok expanded
  | peg :: pegs' =>
      if bool_decide (HopPeg.ChannelID peg ≠ 0) then
        if bool_decide (i = 0%nat) then Err ErrPegNotInNetwork
        else
          match FetchChannelEdgesByID graph (HopPeg.ChannelID peg) with
          | Err e => Err e
          | Ok (edgeInfo, _, _) =>
              match OtherNodeKeyBytes graph edgeInfo (HopPeg.NodeID peg) with
              | Err e => Err e
              | Ok pub =>
                  let pPeg := {| HopPeg.NodeID := pub;
                                 HopPeg.ChannelID := 0 |} in
                  expandHopPegs graph (S i) pegs'
                                ((expanded ++ [pPeg]) ++ [peg])
              end
          end
      else expandHopPegs graph (S i) pegs' (expanded ++ [peg])
  end.

(** The second loop: a peg without channel that repeats the node of the
    peg before it is dropped. *)
Definition dedupHopPegs (expanded : list HopPeg.t) : exec (list HopPeg.t) :=
  foldl (fun acc ipeg =>
           out ← acc;
           let '(i, peg) := ipeg in
           if bool_decide (HopPeg.ChannelID peg = 0) &&
              bool_decide (0 < i)%nat
           then
             prev ← idx expanded (i - 1)%nat;
             if bool_decide (HopPeg.NodeID peg = HopPeg.NodeID prev)
             then mret out
             else mret (out ++ [peg])
           else mret (out ++ [peg]))
        (mret []) (imap (fun i peg => (i, peg)) expanded).

Definition prepareHopPegs (graph : ChannelGraph) (pegs : list HopPeg.t)
    : exec (result (list HopPeg.t)) :=
  match expandHopPegs graph 0 pegs [] with
  | Err e => mret (Err e)
  | Ok expanded =>
      if bool_decide (length expanded < 2)%nat then mret (Ok expanded)
      else out ← dedupHopPegs expanded; mret (Ok out)
  end.

Record segmentParams : Type := {
  seg_src : LightningNode.t;
  seg_dest : Vertex;
  seg_pegged : bool
}.

(** What the loop over the segments builds. *)
Record segmentsState : Type := {
  sg_ignoredEdges : gset edgeLocator;
  sg_startingPath : list ChannelEdgePolicy.t;
  sg_segPaths : list (list ChannelEdgePolicy.t);
  sg_segParams : list segmentParams
}.

Definition addLocators (s : gset edgeLocator)
    (p : list ChannelEdgePolicy.t) : gset edgeLocator :=
  foldl (fun s e => {[ newEdgeLocator e ]} ∪ s) s p.

Definition removeLocators (s : gset edgeLocator)
    (p : list ChannelEdgePolicy.t) : gset edgeLocator :=
  foldl (fun s e => s ∖ {[ newEdgeLocator e ]}) s p.

(** [for j := 1; j < len(pegs); j++], with [n] rounds left from [j]. *)
Fixpoint segmentsLoop (fuel : nat) (txb : bool) (graph : ChannelGraph)
    (originV : Vertex) (amt feeLimit : Z) (bandwidthHints : gmap Z Z)
    (pegs : list HopPeg.t) (n j : nat) (st : segmentsState)
    : exec (result segmentsState) :=
  match n with
  | O => mret (Ok st)
  | S n' =>
      peg ← idx pegs j;
      prevPeg ← idx pegs (j - 1)%nat;
      match FetchLightningNode graph (HopPeg.NodeID prevPeg) with
      | Err e => mret (Err e)
      | Ok prevNode =>
          rseg ←
            (if bool_decide (HopPeg.ChannelID peg = 0) then
               '(segPath, err) ←
                 findPath fuel
                   {| tx := txb; graph := graph; additionalEdges := [];
                      bandwidthHints := bandwidthHints;
                      originVertex := Some originV |}
                   {| ignoredNodes := ∅;
                      ignoredEdges := sg_ignoredEdges st;
                      feeLimit := feeLimit;
                      outgoingChannelID := None;
                      stopAtMaxHopsExceeded := false |}
                   prevNode (HopPeg.NodeID peg) amt;
               match err with
               | Some e => mret (Err e)
               | None => mret (Ok segPath)
               end
             else
               match FetchChannelEdgesByID graph (HopPeg.ChannelID peg) with
               | Err e => mret (Err e)
               | Ok (info, p1, p2) =>
                   let policy :=
                     if bool_decide (HopPeg.NodeID peg =
                                     ChannelEdgeInfo.NodeKey2Bytes info)
                     then p1 else p2 in
                   match policy with
                   | None => Panic (* nil: read by newEdgeLocator below *)
                   | Some policy => mret (Ok [policy])
                   end
               end);
          match rseg with
          | Err e => mret (Err e)
          | Ok segPath =>
              segmentsLoop fuel txb graph originV amt feeLimit
                bandwidthHints pegs n' (S j)
                {| sg_ignoredEdges := addLocators (sg_ignoredEdges st) segPath;
                   sg_startingPath := sg_startingPath st ++ segPath;
                   sg_segPaths := sg_segPaths st ++ [segPath];
                   sg_segParams := sg_segParams st ++
                     [{| seg_src := prevNode;
                         seg_dest := HopPeg.NodeID peg;
                         seg_pegged :=
                           bool_decide (HopPeg.ChannelID peg ≠ 0) |}] |}
          end
      end
  end.

(** The closure [stitchPath] over the current [segPaths]. *)
Definition stitchPath (segPaths : list (list ChannelEdgePolicy.t))
    (i : nat) (p : list ChannelEdgePolicy.t) : list ChannelEdgePolicy.t :=
  concat (imap (fun j seg => if bool_decide (i = j) then p else seg) segPaths).

(** [for j, segKPath := range segKPaths], from index [j]. *)
Fixpoint stitchLoop (i j : nat) (segKPaths : list (list ChannelEdgePolicy.t))
    (segPaths : list (list ChannelEdgePolicy.t)) (candidatePaths : list path)
    : list (list ChannelEdgePolicy.t) * list path :=
  match segKPaths with
  | [] => (segPaths, candidatePaths)
  | segKPath :: rest =>
      if bool_decide (i ≠ 0%nat) && bool_decide (j = 0%nat)
      then stitchLoop i (S j) rest segPaths candidatePaths
      else
        let segPaths' :=
          if bool_decide (i = 0%nat) && bool_decide (j = 0%nat)
          then <[0%nat := segKPath]> segPaths else segPaths in
        let stitchedPath := stitchPath segPaths' i segKPath in
        let stitchedPathLen := length stitchedPath in
        if bool_decide (HopLimit < stitchedPathLen)%nat
        then stitchLoop i (S j) rest segPaths' candidatePaths
        else
          stitchLoop i (S j) rest segPaths'
            (heap_push path_dist candidatePaths
               {| hops := stitchedPath;
                  path_dist := Z.of_nat stitchedPathLen |})
  end.

(** [for i := 0; i < len(segPaths); i++], with [n] rounds left from [i]. *)
Fixpoint alternativesLoop (fuel : nat) (txb : bool) (graph : ChannelGraph)
    (originV : Vertex) (amt feeLimit numPaths : Z)
    (bandwidthHints : gmap Z Z) (ignoredEdges : gset edgeLocator)
    (segParams : list segmentParams) (startingPathFee : Z) (n i : nat)
    (segPaths : list (list ChannelEdgePolicy.t)) (candidatePaths : list path)
    : exec (result (list path)) :=
  match n with
  | O => mret (Ok candidatePaths)
  | S n' =>
      sp ← idx segParams i;
      if seg_pegged sp then
        alternativesLoop fuel txb graph originV amt feeLimit numPaths
          bandwidthHints ignoredEdges segParams startingPathFee n' (S i)
          segPaths candidatePaths
      else
        segPath ← idx segPaths i;
        sFeeLimit ←
          (if bool_decide (feeLimit ≠ noFeeLimit) then
             segFee ← computePathFee amt segPath;
             mret (u64 (u64 (feeLimit - startingPathFee) + segFee))
           else mret noFeeLimit);
        let sIgnoredEdges := removeLocators ignoredEdges segPath in
        rk ← findKPaths fuel
               {| tx := txb; graph := graph; additionalEdges := [];
                  bandwidthHints := bandwidthHints;
                  originVertex := Some originV |}
               {| ignoredNodes := ∅;
                  ignoredEdges := sIgnoredEdges;
                  feeLimit := sFeeLimit;
                  outgoingChannelID := None;
                  stopAtMaxHopsExceeded := false |}
               (seg_src sp) (seg_dest sp) amt segPath numPaths;
        match rk with
        | Err e => mret (Err e)
        | Ok segKPaths =>
            let '(segPaths', candidatePaths') :=
              stitchLoop i 0 segKPaths segPaths candidatePaths in
            alternativesLoop fuel txb graph originV amt feeLimit numPaths
              bandwidthHints ignoredEdges segParams startingPathFee n' (S i)
              segPaths' candidatePaths'
        end
  end.

(** [for k := uint32(0); k < numPaths; k++], with [n] rounds left. *)
Fixpoint selectLoop (n : nat) (candidatePaths : list path)
    (shortestPaths : list (list ChannelEdgePolicy.t))
    : list (list ChannelEdgePolicy.t) :=
  match n with
  | O => shortestPaths
  | S n' =>
      match heap_pop path_dist candidatePaths with
      | None => shortestPaths
      | Some (p, candidatePaths') =>
          selectLoop n' candidatePaths' (shortestPaths ++ [hops p])
      end
  end.

Definition findPaths (fuel : nat) (txb : bool) (graph : ChannelGraph)
    (source : LightningNode.t) (target : Vertex) (amt feeLimit numPaths : Z)
    (bandwidthHints : gmap Z Z) (additionalPegs : list HopPeg.t)
    : exec (result (list (list ChannelEdgePolicy.t))) :=
  let originV := LightningNode.PubKeyBytes source in
  let pegs0 :=
    ([{| HopPeg.NodeID := originV; HopPeg.ChannelID := 0 |}] ++
     additionalPegs) ++
    [{| HopPeg.NodeID := target; HopPeg.ChannelID := 0 |}] in
  rp ← prepareHopPegs graph pegs0;
  match rp with
  | Err e => mret (Err e)
  | Ok pegs =>
      if bool_decide (length pegs = 0%nat) then Panic
      else
        rs ← segmentsLoop fuel txb graph originV amt feeLimit bandwidthHints
               pegs (length pegs - 1)%nat 1%nat
               {| sg_ignoredEdges := ∅; sg_startingPath := [];
                  sg_segPaths := []; sg_segParams := [] |};
        match rs with
        | Err e => mret (Err e)
        | Ok st =>
            startingPathFee ← computePathFee amt (sg_startingPath st);
            if bool_decide (feeLimit < startingPathFee)
            then mret (Err ErrNoRouteFound)
            else
              rc ← alternativesLoop fuel txb graph originV amt feeLimit
                     numPaths bandwidthHints (sg_ignoredEdges st)
                     (sg_segParams st) startingPathFee
                     (length (sg_segPaths st)) 0%nat (sg_segPaths st) [];
              match rc with
              | Err e => mret (Err e)
              | Ok candidatePaths =>
                  mret (Ok (selectLoop (Z.to_nat numPaths) candidatePaths []))
              end
        end
  end.
End Search.

(** ** Concrete data *)

Module Examples.
(** One choice of the helpers, for the evaluations: the locator is the
    channel with the lowest bit of the flags as direction, the disabled
    flag is the second bit and a satoshi is a thousand millisatoshi. *)
#[export] Instance externals : Externals := {|
  newEdgeLocator e :=
    (ChannelEdgePolicy.ChannelID e,
     Z.land (ChannelEdgePolicy.ChannelFlags e) 1);
  ChanUpdateDisabled := 2;
  NewMSatFromSatoshis sat := u64 (sat * 1000)
|}.

Definition nodeOf (v : Vertex) : LightningNode.t :=
  {| LightningNode.PubKeyBytes := v |}.

(** The policy of channel [chan] towards [dest]. *)
Definition policy (chan : Z) (dest : Vertex) (delta base rate : Z)
    : ChannelEdgePolicy.t :=
  {| ChannelEdgePolicy.ChannelID := chan;
     ChannelEdgePolicy.ChannelFlags := 0;
     ChannelEdgePolicy.TimeLockDelta := delta;
     ChannelEdgePolicy.MinHTLC := 1;
     ChannelEdgePolicy.FeeBaseMSat := base;
     ChannelEdgePolicy.FeeProportionalMillionths := rate;
     ChannelEdgePolicy.Node := nodeOf dest |}.

(** Two hops, S -> A -> T, the second with a delta of 40 blocks and a fee
    of 1000 msat plus 1000 ppm (scenario 2 of the spec). *)
Definition vS : Vertex := 1.
Definition vA : Vertex := 2.
Definition vT : Vertex := 5.
Definition edgeSA : ChannelEdgePolicy.t := policy 4 vA 10 0 0.
Definition edgeAT : ChannelEdgePolicy.t := policy 5 vT 40 1000 1000.
Definition twoHops : list ChannelEdgePolicy.t := [edgeSA; edgeAT].

Definition hop (v : Vertex) (chan : Z) : Hop.t :=
  {| Hop.PubKeyBytes := v; Hop.ChannelID := chan;
     Hop.OutgoingTimeLock := 0; Hop.AmtToForward := 0 |}.

(** A graph store over a list of nodes and a list of channels, each with
    the policy of its first node (towards the second) and the policy of
    its second node. *)
Definition channel : Type :=
  (ChannelEdgeInfo.t * option ChannelEdgePolicy.t *
   option ChannelEdgePolicy.t)%type.

Definition channelInfo (chan : Z) (v1 v2 : Vertex) : ChannelEdgeInfo.t :=
  {| ChannelEdgeInfo.ChannelID := chan;
     ChannelEdgeInfo.NodeKey1Bytes := v1;
     ChannelEdgeInfo.NodeKey2Bytes := v2;
     ChannelEdgeInfo.Capacity := 1000000 |}.

Definition otherEnd (info : ChannelEdgeInfo.t) (v : Vertex) : result Vertex :=
  if bool_decide (v = ChannelEdgeInfo.NodeKey1Bytes info)
  then Ok (ChannelEdgeInfo.NodeKey2Bytes info)
  else if bool_decide (v = ChannelEdgeInfo.NodeKey2Bytes info)
  then Ok (ChannelEdgeInfo.NodeKey1Bytes info)
  else Err ErrOther.

Definition channelsOf (chans : list channel) (v : Vertex) : list channel :=
  omap (fun c : channel =>
          let '(info, p1, p2) := c in
          if bool_decide (v = ChannelEdgeInfo.NodeKey1Bytes info)
          then Some (info, p1, p2)
          else if bool_decide (v = ChannelEdgeInfo.NodeKey2Bytes info)
          then Some (info, p2, p1)
          else None)
       chans.

Definition graphOf (nodes : list Vertex) (chans : list channel)
    : ChannelGraph :=
  {| Begin := None;
     ForEachNode := Ok (nodeOf <$> nodes);
     ForEachChannel v := Ok (channelsOf chans v);
     FetchOtherNode info v :=
       match otherEnd info v with
       | Ok w => Ok (nodeOf w)
       | Err e => Err e
       end;
     OtherNodeKeyBytes := otherEnd;
     FetchChannelEdgesByID chan :=
       match list_find (fun c : channel =>
                          ChannelEdgeInfo.ChannelID c.1.1 = chan) chans with
       | Some (_, c) => Ok c
       | None => Err ErrOther
       end;
     FetchLightningNode v :=
       if bool_decide (v ∈ nodes) then Ok (nodeOf v) else Err ErrOther |}.

Definition paramsOf (graph : ChannelGraph) : graphParams :=
  {| tx := false; graph := graph; additionalEdges := [];
     bandwidthHints := ∅; originVertex := None |}.

Definition unrestricted : restrictParams :=
  {| ignoredNodes := ∅; ignoredEdges := ∅; feeLimit := noFeeLimit;
     outgoingChannelID := None; stopAtMaxHopsExceeded := false |}.

(** One channel from S to A whose policy has no time-lock delta, and the
    distance map when A has been reached with 100000 msat to receive. *)
Definition edgeSA0 : ChannelEdgePolicy.t := policy 4 vA 0 0 0.

Definition reachedA : gmap Vertex nodeWithDist :=
  <[vA := {| dist := 0; node := Some (nodeOf vA);
             amountToReceive := 100000; fee := 0 |}]>
    (initDistance [nodeOf vS; nodeOf vA]).

Definition oneChannel (e : ChannelEdgePolicy.t) : ChannelGraph :=
  graphOf [vS; vA] [(channelInfo 4 vS vA, Some e, None)].

(** Five nodes: the cheapest path from S to T has three hops, through B
    and C, whose policies charge nothing; the two hops through A cost
    1000 msat. *)
Definition vB : Vertex := 3.
Definition vC : Vertex := 4.
Definition edgeSB : ChannelEdgePolicy.t := policy 1 vB 1 0 0.
Definition edgeBC : ChannelEdgePolicy.t := policy 2 vC 1 0 0.
Definition edgeCT : ChannelEdgePolicy.t := policy 3 vT 1 0 0.
Definition edgeAT' : ChannelEdgePolicy.t := policy 5 vT 1 1000 0.

Definition fiveNodes : ChannelGraph :=
  graphOf [vS; vA; vB; vC; vT]
    [(channelInfo 1 vS vB, Some edgeSB, None);
     (channelInfo 2 vB vC, Some edgeBC, None);
     (channelInfo 3 vC vT, Some edgeCT, None);
     (channelInfo 4 vS vA, Some edgeSA, None);
     (channelInfo 5 vA vT, Some edgeAT', None)].

Definition threeHops : list ChannelEdgePolicy.t := [edgeSB; edgeBC; edgeCT].

(** The first round of [findKPaths] on the five nodes: the paths and the
    candidates it starts from, and the one deviation the round finds. *)
Definition selfS : ChannelEdgePolicy.t := selfEdge (nodeOf vS).

Definition firstRound : kPathsState :=
  {| shortestPaths := [selfS :: threeHops]; candidatePaths := [];
     validPathsNum := 1 |}.

Definition deviation : path :=
  {| hops := [selfS; edgeSA; edgeAT']; path_dist := 3 |}.
End Examples.

(** ** Further definitions *)

(** The fees of the hops of a route one after the other, from the amount
    that enters the first hop: the closed form of [HopFee] over all the
    indices ([HopFee_feesFrom]). *)
Fixpoint feesFrom (incomingAmt : Z) (hops : list Hop.t) : list Z :=
  match hops with
  | [] => []
  | h :: rest =>
      u64 (incomingAmt - Hop.AmtToForward h) ::
      feesFrom (Hop.AmtToForward h) rest
  end.

(** The sum of a list of integers. *)
Definition sumZ (l : list Z) : Z := foldr Z.add 0 l.

(** The fee added on top of the amount [amt] that a hop forwards: that of
    the policy of the edge after the hop, and nothing after the last hop. *)
Definition feeAfter (amt : Z) (nxt : option ChannelEdgePolicy.t) : Z :=
  from_option (computeFee amt) 0 nxt.

Section SearchPredicates.
Context `{Externals}.

(** What the guards of [processEdge] leave of an edge out of [fromVertex],
    whatever the amounts: a delta that is not zero, a tail and a locator
    that are not ignored, no disabled flag unless the tail is the origin,
    and the outgoing channel when one is imposed on the origin. *)
Definition recordable (r : restrictParams) (originV fromVertex : Vertex)
    (edge : ChannelEdgePolicy.t) : Prop :=
  ChannelEdgePolicy.TimeLockDelta edge ≠ 0 ∧
  (fromVertex ∉ ignoredNodes r) ∧
  (newEdgeLocator edge ∉ ignoredEdges r) ∧
  (fromVertex ≠ originV →
   Z.land (ChannelEdgePolicy.ChannelFlags edge) ChanUpdateDisabled = 0) ∧
  (fromVertex = originV →
   ∀ c, outgoingChannelID r = Some c → ChannelEdgePolicy.ChannelID edge = c).

(** Every edge of a path that leaves [v] satisfies [P] with its tail. *)
Fixpoint pathFrom (P : Vertex → ChannelEdgePolicy.t → Prop) (v : Vertex)
    (edges : list ChannelEdgePolicy.t) : Prop :=
  match edges with
  | [] => True
  | e :: rest =>
      P v e ∧
      pathFrom P (LightningNode.PubKeyBytes (ChannelEdgePolicy.Node e)) rest
  end.

(** The vertex a path that leaves [v] ends at. *)
Fixpoint pathEnd (v : Vertex) (edges : list ChannelEdgePolicy.t) : Vertex :=
  match edges with
  | [] => v
  | e :: rest =>
      pathEnd (LightningNode.PubKeyBytes (ChannelEdgePolicy.Node e)) rest
  end.

(** Every entry of the next-hop map passed the guards. *)
Definition nextRecordable (r : restrictParams) (originV : Vertex)
    (next : gmap Vertex ChannelEdgePolicy.t) : Prop :=
  ∀ v e, next !! v = Some e → recordable r originV v e.
End SearchPredicates.

(** The pegs that the second loop of [prepareHopPegs] keeps, by recursion
    on the list with the peg before: the closed form of [dedupHopPegs]
    ([dedupHopPegs_dropRepeats]). *)
Fixpoint dropRepeatsFrom (prev : option HopPeg.t) (pegs : list HopPeg.t)
    : list HopPeg.t :=
  match pegs with
  | [] => []
  | peg :: rest =>
      (if bool_decide (HopPeg.ChannelID peg = 0) &&
          from_option (fun p => bool_decide (HopPeg.NodeID peg = HopPeg.NodeID p))
                      false prev
       then [] else [peg]) ++ dropRepeatsFrom (Some peg) rest
  end.

Definition dropRepeats (pegs : list HopPeg.t) : list HopPeg.t :=
  dropRepeatsFrom None pegs.

(** ** Hop payloads *)

(** sphinx.HopData, as far as [ToHopPayloads] fills it; the next address is
    an array of 8 bytes. *)
Record HopData : Type := {
  Realm : Z;
  NextAddress : list Z;
  ForwardAmount : Z;
  OutgoingCltv : Z
}.

(** binary.BigEndian.PutUint64 on an array of 8 bytes, and
    binary.BigEndian.Uint64 that reads them back. *)
Definition putUint64 (v : Z) : list Z :=
  (fun k => Z.land (Z.shiftr v (8 * k)) 255) <$> [7; 6; 5; 4; 3; 2; 1; 0].

Definition getUint64 (b : list Z) : Z :=
  foldl (fun acc x => acc * 256 + x) 0 b.

(** [for i, hop := range r.Hops], from index [i]. *)
Fixpoint hopPayloadsFrom (allHops : list Hop.t) (i : nat) (hops : list Hop.t)
    : exec (list HopData) :=
  match hops with
  | [] => mret []
  | hop :: rest =>
      nextHop ←
        (if bool_decide (i ≠ (length allHops - 1)%nat) then
           nxt ← idx allHops (i + 1)%nat;
           mret (Hop.ChannelID nxt)
         else mret 0);
      payloads ← hopPayloadsFrom allHops (S i) rest;
      mret ({| Realm := 0;
               ForwardAmount := Hop.AmtToForward hop;
               OutgoingCltv := Hop.OutgoingTimeLock hop;
               NextAddress := putUint64 nextHop |} :: payloads)
  end.

Definition ToHopPayloads (r : Route.t) : exec (list HopData) :=
  hopPayloadsFrom (Route.Hops r) 0 (Route.Hops r).

(** ** More concrete data *)

Module MoreExamples.
(** No restriction, and the request to stop at an over-long path. *)
Definition stopping : restrictParams :=
  {| ignoredNodes := ∅; ignoredEdges := ∅; feeLimit := noFeeLimit;
     outgoingChannelID := None; stopAtMaxHopsExceeded := true |}.

Definition peg (v : Vertex) : HopPeg.t :=
  {| HopPeg.NodeID := v; HopPeg.ChannelID := 0 |}.

(** A peg on A that is written twice, and a peg on A over channel 4. *)
Definition pegsTwice : list HopPeg.t :=
  [peg Examples.vS; peg Examples.vA; peg Examples.vA; peg Examples.vT].

Definition pegsChannel : list HopPeg.t :=
  [peg Examples.vS;
   {| HopPeg.NodeID := Examples.vA; HopPeg.ChannelID := 4 |};
   peg Examples.vT].

(** The entry recorded for S over the edge from S to A. *)
Definition reachedS : nodeWithDist :=
  {| dist := 0; node := Some (Examples.nodeOf Examples.vS);
     amountToReceive := 100000; fee := 0 |}.

(** Seven nodes with three deviations of the same length from the cheapest
    path S -> A -> B -> T (channels 1, 2, 3): from S through X and Y
    (channels 10, 11, 12), from A through W (channels 20, 21), and from B
    over a second, dearer channel to T (channel 30). *)
Definition vX : Vertex := 6.
Definition vY : Vertex := 7.
Definition vW : Vertex := 8.
Definition tieSA : ChannelEdgePolicy.t := Examples.policy 1 Examples.vA 1 0 0.
Definition tieAB : ChannelEdgePolicy.t := Examples.policy 2 Examples.vB 1 0 0.
Definition tieBT : ChannelEdgePolicy.t := Examples.policy 3 Examples.vT 1 0 0.
Definition tieSX : ChannelEdgePolicy.t := Examples.policy 10 vX 1 1000 0.
Definition tieXY : ChannelEdgePolicy.t := Examples.policy 11 vY 1 0 0.
Definition tieYT : ChannelEdgePolicy.t := Examples.policy 12 Examples.vT 1 0 0.
Definition tieAW : ChannelEdgePolicy.t := Examples.policy 20 vW 1 1000 0.
Definition tieWT : ChannelEdgePolicy.t := Examples.policy 21 Examples.vT 1 0 0.
Definition tieBT' : ChannelEdgePolicy.t :=
  Examples.policy 30 Examples.vT 1 1000 0.

Definition sevenNodes : ChannelGraph :=
  Examples.graphOf
    [Examples.vS; Examples.vA; Examples.vB; Examples.vT; vX; vY; vW]
    [(Examples.channelInfo 1 Examples.vS Examples.vA, Some tieSA, None);
     (Examples.channelInfo 2 Examples.vA Examples.vB, Some tieAB, None);
     (Examples.channelInfo 3 Examples.vB Examples.vT, Some tieBT, None);
     (Examples.channelInfo 10 Examples.vS vX, Some tieSX, None);
     (Examples.channelInfo 11 vX vY, Some tieXY, None);
     (Examples.channelInfo 12 vY Examples.vT, Some tieYT, None);
     (Examples.channelInfo 20 Examples.vA vW, Some tieAW, None);
     (Examples.channelInfo 21 vW Examples.vT, Some tieWT, None);
     (Examples.channelInfo 30 Examples.vB Examples.vT, Some tieBT', None)].

Definition tieSeed : list ChannelEdgePolicy.t := [tieSA; tieAB; tieBT].
Definition tieFromS : path :=
  {| hops := [Examples.selfS; tieSX; tieXY; tieYT]; path_dist := 4 |}.
Definition tieFromA : path :=
  {| hops := [Examples.selfS; tieSA; tieAW; tieWT]; path_dist := 4 |}.
Definition tieFromB : path :=
  {| hops := [Examples.selfS; tieSA; tieAB; tieBT']; path_dist := 4 |}.
End MoreExamples.

(** * Properties *)

(** ** Machine arithmetic *)

Lemma u64_range z : is_u64 (u64 z).
Proof. unfold is_u64, u64. apply Z.mod_pos_bound. lia. Qed.

Lemma u32_range z : is_u32 (u32 z).
Proof. unfold is_u32, u32. apply Z.mod_pos_bound. lia. Qed.

Lemma u64_small z : is_u64 z → u64 z = z.
Proof. unfold is_u64, u64. intros. by apply Z.mod_small. Qed.

Lemma u32_small z : is_u32 z → u32 z = z.
Proof. unfold is_u32, u32. intros. by apply Z.mod_small. Qed.

Lemma i64_small z : - 2 ^ 63 <= z < 2 ^ 63 → i64 z = z.
Proof. unfold i64. intros. rewrite Z.mod_small; lia. Qed.

Lemma u32_add_sub a d : u32 (u32 (a + d) - d) = u32 a.
Proof.
  unfold u32. rewrite Zminus_mod_idemp_l. f_equal. lia.
Qed.

Lemma u32_sub_add a d : is_u32 d → u32 (u32 (a + d) - a) = d.
Proof.
  intros Hd. unfold u32. rewrite Zminus_mod_idemp_l.
  replace (a + d - a) with d by lia. by apply Z.mod_small.
Qed.

(** ** The loops of [newRoute] and [computePathFee] *)

Lemma idx_Some {A} (l : list A) i x : l !! i = Some x → idx l i = Ret x.
Proof. unfold idx. by intros ->. Qed.

Lemma lookup_drop_cons {A} (l : list A) i x :
  l !! i = Some x → drop i l = x :: drop (S i) l.
Proof.
  revert i. induction l as [|y l IH]; intros [|i] Hx; simplify_eq/=; eauto.
Qed.

(** One round of the loop at index [i] is [walkStep] on the edge at [i]
    and the edges after it. *)
Lemma newRoute_body_walkStep amt pathEdges h f i e st :
  pathEdges !! i = Some e →
  newRoute_body amt pathEdges h f i st =
  Ret (walkStep amt h f e (drop (S i) pathEdges) st).
Proof.
  intros He. unfold newRoute_body. rewrite (idx_Some _ _ _ He). simpl.
  pose proof (lookup_lt_Some _ _ _ He) as Hlt.
  destruct (drop (S i) pathEdges) as [|nxt rest] eqn:Hd.
  - assert (length (drop (S i) pathEdges) = 0%nat) as Hl by (by rewrite Hd).
    rewrite length_drop in Hl.
    rewrite (bool_decide_eq_false_2 (i ≠ _)) by lia.
    rewrite (bool_decide_eq_true_2 (i = _)) by lia. reflexivity.
  - assert (pathEdges !! (i + 1)%nat = Some nxt) as Hn.
    { replace (i + 1)%nat with (S i + 0)%nat by lia.
      rewrite <- lookup_drop, Hd. reflexivity. }
    pose proof (lookup_lt_Some _ _ _ Hn).
    rewrite (bool_decide_eq_true_2 (i ≠ _)) by lia.
    rewrite (bool_decide_eq_false_2 (i = _)) by lia.
    rewrite (idx_Some _ _ _ Hn). reflexivity.
Qed.

Lemma newRoute_loop_walk amt pathEdges h f n :
  (n ≤ length pathEdges)%nat →
  newRoute_loop amt pathEdges h f n (walk amt h f (drop n pathEdges)) =
  Ret (walk amt h f pathEdges).
Proof.
  induction n as [|i IH]; intros Hn; simpl.
  - by rewrite drop_0.
  - destruct (lookup_lt_is_Some_2 pathEdges i) as [e He]; [lia|].
    rewrite (newRoute_body_walkStep _ _ _ _ _ e) by done. simpl.
    rewrite (lookup_drop_cons _ _ _ He) in IH. simpl in IH.
    apply IH. lia.
Qed.

Lemma newRoute_loop_total amt pathEdges h f :
  newRoute_loop amt pathEdges h f (length pathEdges) (newRoute_init h) =
  Ret (walk amt h f pathEdges).
Proof.
  rewrite <- (newRoute_loop_walk amt pathEdges h f (length pathEdges)) by lia.
  by rewrite drop_all.
Qed.

Lemma walk_hops_length amt h f edges :
  length (nr_hops (walk amt h f edges)) = length edges.
Proof.
  induction edges as [|e rest IH]; [done|].
  simpl. unfold walkStep. destruct rest; simpl in *; lia.
Qed.

(** The hop of the last edge forwards the payment amount and expires at
    the height plus the final delta. *)
Lemma walk_last_hop amt h f edges :
  edges ≠ [] →
  ∃ hp, nr_hops (walk amt h f edges) !! (length edges - 1)%nat = Some hp ∧
        Hop.AmtToForward hp = amt ∧
        Hop.OutgoingTimeLock hp = u32 (h + f).
Proof.
  induction edges as [|e rest IH]; [done|]. intros _.
  destruct rest as [|nxt rest'].
  - simpl. eexists. split; [reflexivity|]. done.
  - destruct IH as (hp & Hhp & Ha & Ho); [done|].
    exists hp. split; [|done].
    change (walk amt h f (e :: nxt :: rest')) with
      (walkStep amt h f e (nxt :: rest') (walk amt h f (nxt :: rest'))).
    unfold walkStep. simpl nr_hops.
    replace (length (e :: nxt :: rest') - 1)%nat
      with (S (length (nxt :: rest') - 1)) by (simpl; lia).
    exact Hhp.
Qed.

(** The total time lock after the walk is the expiry of the first hop plus
    the delta of the second edge, if there is one. *)
Lemma walk_totalTimeLock amt h f e rest :
  let st := walk amt h f (e :: rest) in
  ∃ hp, nr_hops st !! 0%nat = Some hp ∧
        nr_totalTimeLock st =
        u32 (Hop.OutgoingTimeLock hp +
             from_option ChannelEdgePolicy.TimeLockDelta 0 (rest !! 0%nat)).
Proof.
  simpl. unfold walkStep. destruct rest as [|nxt rest']; simpl.
  - eexists. split; [done|]. simpl.
    rewrite Z.add_0_r. unfold u32. by rewrite Z.mod_mod.
  - eexists. split; [done|]. simpl.
    rewrite u32_add_sub. unfold u32. by rewrite Zplus_mod_idemp_l.
Qed.

(** Between two hops the expiry drops by the delta of the edge two places
    on, and not at all between the last two. *)
Lemma walk_outgoingTimeLock amt h f edges i hi hj :
  nr_hops (walk amt h f edges) !! i = Some hi →
  nr_hops (walk amt h f edges) !! S i = Some hj →
  Hop.OutgoingTimeLock hi =
  u32 (Hop.OutgoingTimeLock hj +
       from_option ChannelEdgePolicy.TimeLockDelta 0 (edges !! (i + 2)%nat)).
Proof.
  revert i. induction edges as [|e rest IH]; intros i Hi Hj; [done|].
  destruct rest as [|nxt rest'].
  { simpl in Hj. done. }
  change (walk amt h f (e :: nxt :: rest')) with
    (walkStep amt h f e (nxt :: rest') (walk amt h f (nxt :: rest'))) in *.
  unfold walkStep in Hi, Hj. simpl nr_hops in Hi, Hj.
  destruct i as [|i].
  - simpl in Hi, Hj. injection Hi as <-. simpl.
    destruct (walk_totalTimeLock amt h f nxt rest') as (hp & Hhp & Ht).
    simpl in Hhp, Ht. rewrite Hj in Hhp. injection Hhp as <-.
    rewrite u32_add_sub, Ht. unfold u32. by rewrite Z.mod_mod.
  - simpl in Hi, Hj. by apply IH.
Qed.

Lemma computePathFee_body_walkStep amt pathEdges h f i e st :
  pathEdges !! i = Some e →
  computePathFee_body amt pathEdges i (nr_nextIncomingAmount st) =
  Ret (nr_nextIncomingAmount (walkStep amt h f e (drop (S i) pathEdges) st)).
Proof.
  intros He. unfold computePathFee_body.
  pose proof (lookup_lt_Some _ _ _ He) as Hlt.
  destruct (drop (S i) pathEdges) as [|nxt rest] eqn:Hd.
  - assert (length (drop (S i) pathEdges) = 0%nat) as Hl by (by rewrite Hd).
    rewrite length_drop in Hl.
    rewrite (bool_decide_eq_false_2 (i ≠ _)) by lia. reflexivity.
  - assert (pathEdges !! (i + 1)%nat = Some nxt) as Hn.
    { replace (i + 1)%nat with (S i + 0)%nat by lia.
      rewrite <- lookup_drop, Hd. reflexivity. }
    pose proof (lookup_lt_Some _ _ _ Hn).
    rewrite (bool_decide_eq_true_2 (i ≠ _)) by lia.
    rewrite (idx_Some _ _ _ Hn). reflexivity.
Qed.

Lemma computePathFee_loop_walk amt pathEdges h f n :
  (n ≤ length pathEdges)%nat →
  computePathFee_loop amt pathEdges n
    (nr_nextIncomingAmount (walk amt h f (drop n pathEdges))) =
  Ret (nr_nextIncomingAmount (walk amt h f pathEdges)).
Proof.
  induction n as [|i IH]; intros Hn; simpl.
  - by rewrite drop_0.
  - destruct (lookup_lt_is_Some_2 pathEdges i) as [e He]; [lia|].
    rewrite (computePathFee_body_walkStep _ _ h f _ e) by done. simpl.
    rewrite (lookup_drop_cons _ _ _ He) in IH. simpl in IH.
    apply IH. lia.
Qed.

(** [computePathFee] never panics: its value on any path. *)
Lemma computePathFee_walk amt pathEdges h f :
  computePathFee amt pathEdges =
  Ret (u64 (nr_nextIncomingAmount (walk amt h f pathEdges) - amt)).
Proof.
  unfold computePathFee.
  pose proof (computePathFee_loop_walk amt pathEdges h f (length pathEdges)) as H.
  rewrite drop_all in H. simpl in H. rewrite H by lia. reflexivity.
Qed.

(** [NewRouteFromHops] on a list that is not empty. *)
Lemma NewRouteFromHops_nonempty amt tl src hops :
  hops ≠ [] →
  ∃ lastHop r,
    hops !! (length hops - 1)%nat = Some lastHop ∧
    NewRouteFromHops amt tl src hops = Ret (Ok r) ∧
    Route.Hops r = hops ∧ Route.TotalTimeLock r = tl ∧
    Route.TotalAmount r = amt ∧ Route.SourcePubKey r = src ∧
    Route.TotalFees r = u64 (amt - Hop.AmtToForward lastHop).
Proof.
  intros Hne. unfold NewRouteFromHops.
  assert (length hops ≠ 0%nat) as Hl by (by destruct hops).
  rewrite bool_decide_eq_false_2 by done.
  destruct (lookup_lt_is_Some_2 hops (length hops - 1)%nat) as [lastHop Hlast];
    [lia|].
  rewrite (idx_Some _ _ _ Hlast). simpl.
  eexists _, _. split; [done|]. split; [reflexivity|]. done.
Qed.

(** [newRoute] on a path that is not empty, in terms of the walk. *)
Lemma newRoute_nonempty amt feeLimit src pathEdges h f :
  pathEdges ≠ [] →
  let st := walk amt h f pathEdges in
  let totalFees := u64 (nr_nextIncomingAmount st - amt) in
  ∃ r, Route.Hops r = nr_hops st ∧
       Route.TotalTimeLock r = nr_totalTimeLock st ∧
       Route.TotalAmount r = nr_nextIncomingAmount st ∧
       Route.TotalFees r = totalFees ∧
       newRoute amt feeLimit src pathEdges h f =
       Ret (if bool_decide (feeLimit < totalFees)
            then Err ErrFeeLimitExceeded else Ok r).
Proof.
  intros Hne st totalFees. unfold newRoute.
  rewrite newRoute_loop_total. fold st. simpl.
  assert (nr_hops st ≠ []) as Hh.
  { intros Hnil. pose proof (walk_hops_length amt h f pathEdges) as Hl.
    fold st in Hl. rewrite Hnil in Hl. by destruct pathEdges. }
  destruct (NewRouteFromHops_nonempty (nr_nextIncomingAmount st)
              (nr_totalTimeLock st) src (nr_hops st) Hh)
    as (lastHop & r & Hlast & Hr & Hhops & Htl & Hamt & _ & Hfees).
  rewrite Hr. simpl.
  destruct (walk_last_hop amt h f pathEdges Hne) as (hp & Hhp & Ha & _).
  pose proof (walk_hops_length amt h f pathEdges) as Hl. fold st in Hhp, Hl.
  rewrite Hl, Hhp in Hlast.
  injection Hlast as <-. rewrite Ha in Hfees.
  exists r. repeat split; try done.
  rewrite Hfees. fold totalFees. by destruct (bool_decide _).
Qed.

(** ** Route construction *)

(** C1 (as amended). A route returned by [newRoute] for a path that is not
    empty has one hop per edge; its last hop expires at
    [currentHeight + finalCLTVDelta] (uint32 arithmetic); and from a hop to
    the next the outgoing time lock drops by the time-lock delta of the edge
    two places on, [pathEdges[i+2]], and by nothing between the last two
    hops. *)
Theorem newRoute_timelocks amt feeLimit src pathEdges h f r :
  pathEdges ≠ [] →
  Forall ChannelEdgePolicy.wf pathEdges →
  newRoute amt feeLimit src pathEdges h f = Ret (Ok r) →
  length (Route.Hops r) = length pathEdges ∧
  (∃ lastHop, last (Route.Hops r) = Some lastHop ∧
              Hop.OutgoingTimeLock lastHop = u32 (h + f)) ∧
  ∀ i hi hj,
    Route.Hops r !! i = Some hi →
    Route.Hops r !! S i = Some hj →
    u32 (Hop.OutgoingTimeLock hi - Hop.OutgoingTimeLock hj) =
    from_option ChannelEdgePolicy.TimeLockDelta 0 (pathEdges !! (i + 2)%nat).
Proof.
  intros Hne Hwf Hr.
  destruct (newRoute_nonempty amt feeLimit src pathEdges h f Hne)
    as (r' & Hhops & _ & _ & _ & Hnew).
  rewrite Hnew in Hr. destruct (bool_decide _); [done|].
  injection Hr as ->.
  split; [by rewrite Hhops, walk_hops_length|]. split.
  - destruct (walk_last_hop amt h f pathEdges Hne) as (hp & Hhp & _ & Ho).
    exists hp. split; [|done].
    rewrite last_lookup, Hhops, walk_hops_length.
    by replace (pred (length pathEdges)) with (length pathEdges - 1)%nat by lia.
  - intros i hi hj Hi Hj. rewrite Hhops in Hi, Hj.
    rewrite (walk_outgoingTimeLock _ _ _ _ _ _ _ Hi Hj).
    apply u32_sub_add.
    destruct (pathEdges !! (i + 2)%nat) as [e|] eqn:He; simpl.
    + assert (ChannelEdgePolicy.wf e) as (_ & Hd & _).
      { eapply Forall_lookup_1; eauto. }
      unfold is_u16, is_u32 in *. lia.
    + unfold is_u32. lia.
Qed.

Lemma twoHops_wf : Forall ChannelEdgePolicy.wf Examples.twoHops.
Proof.
  repeat constructor; unfold is_u64, is_u16; simpl; lia.
Qed.

Lemma newRoute_timelocks_witness :
  ∃ r, newRoute 100000 noFeeLimit Examples.vS Examples.twoHops 100 9 = Ret (Ok r) ∧
       length (Route.Hops r) = 2%nat ∧
       (∃ lastHop, last (Route.Hops r) = Some lastHop ∧
                   Hop.OutgoingTimeLock lastHop = u32 (100 + 9)) ∧
       ∀ i hi hj,
         Route.Hops r !! i = Some hi →
         Route.Hops r !! S i = Some hj →
         u32 (Hop.OutgoingTimeLock hi - Hop.OutgoingTimeLock hj) =
         from_option ChannelEdgePolicy.TimeLockDelta 0
                     (Examples.twoHops !! (i + 2)%nat).
Proof.
  eexists. split; [reflexivity|].
  apply (newRoute_timelocks 100000 noFeeLimit Examples.vS Examples.twoHops
           100 9).
  - discriminate.
  - exact twoHops_wf.
  - reflexivity.
Defined.

(** C1 as stated fails: on the two hops S -> A -> T, whose second edge has a
    delta of 40, both hops expire at height 109; the difference is 0 and
    not [pathEdges[1].TimeLockDelta]. *)
Lemma newRoute_timelocks_counterexample :
  ∃ r h0 h1 e1,
    newRoute 100000 noFeeLimit Examples.vS Examples.twoHops 100 9 = Ret (Ok r) ∧
    Route.Hops r !! 0%nat = Some h0 ∧
    Route.Hops r !! 1%nat = Some h1 ∧
    Examples.twoHops !! 1%nat = Some e1 ∧
    Hop.OutgoingTimeLock h0 = 109 ∧ Hop.OutgoingTimeLock h1 = 109 ∧
    ChannelEdgePolicy.TimeLockDelta e1 = 40 ∧
    u32 (Hop.OutgoingTimeLock h0 - Hop.OutgoingTimeLock h1) ≠
    ChannelEdgePolicy.TimeLockDelta e1.
Proof.
  eexists _, _, _, _.
  split; [reflexivity|]. split; [reflexivity|]. split; [reflexivity|].
  split; [reflexivity|]. split; [reflexivity|]. split; [reflexivity|].
  split; [reflexivity|]. vm_compute. discriminate.
Qed.

(** ** Fees and weights *)

(** The fee without overflow: the formula over the integers. *)
Lemma computeFee_exact amt e :
  0 <= amt →
  ChannelEdgePolicy.wf e →
  amt * ChannelEdgePolicy.FeeProportionalMillionths e < 2 ^ 64 →
  ChannelEdgePolicy.FeeBaseMSat e +
    amt * ChannelEdgePolicy.FeeProportionalMillionths e / 1000000 < 2 ^ 64 →
  computeFee amt e =
  ChannelEdgePolicy.FeeBaseMSat e +
  amt * ChannelEdgePolicy.FeeProportionalMillionths e / 1000000.
Proof.
  intros Hamt (_ & _ & _ & Hb & Hp) Hmul Hsum. unfold computeFee.
  unfold is_u64 in *.
  assert (0 <= amt * ChannelEdgePolicy.FeeProportionalMillionths e) by lia.
  rewrite (u64_small (amt * _)) by (unfold is_u64; lia).
  rewrite Z.quot_div_nonneg by lia.
  apply u64_small. unfold is_u64.
  pose proof (Z.div_pos (amt * ChannelEdgePolicy.FeeProportionalMillionths e)
                1000000). lia.
Qed.

(** C2. [computeFee amt e] is the base fee plus the floor of
    [amt * rate / 1000000], in the arithmetic of its type (unsigned 64-bit
    millisatoshi): Go's truncating division is the floor here. Where
    neither the product nor the sum leaves 64 bits this is the formula over
    the integers. *)
Theorem computeFee_formula amt e :
  computeFee amt e =
    u64 (ChannelEdgePolicy.FeeBaseMSat e +
         u64 (amt * ChannelEdgePolicy.FeeProportionalMillionths e) / 1000000) ∧
  (0 <= amt →
   ChannelEdgePolicy.wf e →
   amt * ChannelEdgePolicy.FeeProportionalMillionths e < 2 ^ 64 →
   ChannelEdgePolicy.FeeBaseMSat e +
     amt * ChannelEdgePolicy.FeeProportionalMillionths e / 1000000 < 2 ^ 64 →
   computeFee amt e =
   ChannelEdgePolicy.FeeBaseMSat e +
   amt * ChannelEdgePolicy.FeeProportionalMillionths e / 1000000).
Proof.
  split.
  - unfold computeFee. rewrite Z.quot_div_nonneg; [done| |lia].
    apply u64_range.
  - apply computeFee_exact.
Qed.

Lemma edgeAT_wf : ChannelEdgePolicy.wf Examples.edgeAT.
Proof. repeat split; simpl; lia. Qed.

Lemma computeFee_formula_witness :
  computeFee 100000 Examples.edgeAT = 1000 + 100000 * 1000 / 1000000 ∧
  computeFee 100000 Examples.edgeAT = 1100.
Proof.
  split; [|reflexivity].
  apply (proj2 (computeFee_formula 100000 Examples.edgeAT)).
  - lia.
  - exact edgeAT_wf.
  - reflexivity.
  - reflexivity.
Defined.

(** The weight without overflow. *)
Lemma edgeWeight_no_overflow lockedAmt fee timeLockDelta :
  0 <= lockedAmt → 0 <= timeLockDelta → 0 <= fee →
  lockedAmt * timeLockDelta * 15 < 2 ^ 63 →
  fee + lockedAmt * timeLockDelta * 15 / 1000000000 < 2 ^ 63 →
  edgeWeight lockedAmt fee timeLockDelta =
  fee + lockedAmt * timeLockDelta * 15 / 1000000000.
Proof.
  intros Hl Hd Hf Hmul Hsum. unfold edgeWeight, RiskFactorBillionths.
  assert (0 <= lockedAmt * timeLockDelta * 15 / 1000000000)
    by (apply Z.div_pos; lia).
  assert (i64 (i64 lockedAmt * timeLockDelta) = lockedAmt * timeLockDelta) as ->.
  { destruct (decide (timeLockDelta = 0)) as [->|Hnz].
    - rewrite !Z.mul_0_r. by apply i64_small.
    - rewrite (i64_small lockedAmt) by nia. apply i64_small. nia. }
  rewrite (i64_small (lockedAmt * timeLockDelta * 15)) by lia.
  rewrite Z.quot_div_nonneg by lia.
  rewrite (i64_small fee) by lia.
  apply i64_small. lia.
Qed.

(** C3 (as amended). [edgeWeight] is [fee + floor (lockedAmt * delta * 15 /
    10^9)] over the integers whenever the product stays below 2^63 and the
    sum too: this holds for every locked amount up to 2^43 at any 16-bit
    delta. The product is an int64 product and wraps beyond. *)
Theorem edgeWeight_exact lockedAmt fee timeLockDelta :
  0 <= lockedAmt → 0 <= timeLockDelta → 0 <= fee →
  fee + lockedAmt * timeLockDelta * 15 / 1000000000 < 2 ^ 63 →
  lockedAmt * timeLockDelta * 15 < 2 ^ 63 ∨
    (lockedAmt <= 2 ^ 43 ∧ is_u16 timeLockDelta) →
  edgeWeight lockedAmt fee timeLockDelta =
  fee + lockedAmt * timeLockDelta * RiskFactorBillionths / 1000000000.
Proof.
  intros Hl Hd Hf Hsum Hmul. apply edgeWeight_no_overflow; try done.
  destruct Hmul as [?|[Hle Hu]]; [done|].
  unfold is_u16 in Hu.
  assert (lockedAmt * timeLockDelta <= 2 ^ 43 * (2 ^ 16 - 1)) by nia.
  lia.
Qed.

Lemma edgeWeight_exact_witness :
  edgeWeight (2 ^ 42) 1000 65535 =
  1000 + 2 ^ 42 * 65535 * RiskFactorBillionths / 1000000000.
Proof.
  apply (edgeWeight_exact (2 ^ 42) 1000 65535).
  - lia.
  - lia.
  - lia.
  - reflexivity.
  - right. unfold is_u16. lia.
Defined.

(** C3 as stated fails: at a locked amount of 2^44 msat and a delta of
    65535 the int64 product wraps and the weight is negative. *)
Lemma edgeWeight_exact_counterexample :
  edgeWeight (2 ^ 44) 0 65535 = -1153185387 ∧
  0 + 2 ^ 44 * 65535 * 15 / 1000000000 = 17293558686 ∧
  edgeWeight (2 ^ 44) 0 65535 ≠ 0 + 2 ^ 44 * 65535 * 15 / 1000000000.
Proof.
  split; [reflexivity|]. split; [reflexivity|]. vm_compute. discriminate.
Qed.

(** ** The fee limit *)

(** C4. On a path that is not empty [newRoute] returns, and it fails with
    [ErrFeeLimitExceeded] exactly when the total fees, the amount the loop
    ends with minus the payment, exceed the fee limit (no other error is
    possible); a route it returns has [TotalFees = TotalAmount - amtToSend]
    and [TotalFees <= feeLimit]. *)
Theorem newRoute_fee_limit amt feeLimit src pathEdges h f :
  pathEdges ≠ [] →
  ∃ st,
    newRoute_loop amt pathEdges h f (length pathEdges) (newRoute_init h) = Ret st ∧
    let totalFees := u64 (nr_nextIncomingAmount st - amt) in
    (newRoute amt feeLimit src pathEdges h f = Ret (Err ErrFeeLimitExceeded) ↔
     feeLimit < totalFees) ∧
    ((∃ r, newRoute amt feeLimit src pathEdges h f = Ret (Ok r)) ↔
     totalFees <= feeLimit) ∧
    (∀ r, newRoute amt feeLimit src pathEdges h f = Ret (Ok r) →
          Route.TotalAmount r = nr_nextIncomingAmount st ∧
          Route.TotalFees r = u64 (Route.TotalAmount r - amt) ∧
          Route.TotalFees r <= feeLimit).
Proof.
  intros Hne. exists (walk amt h f pathEdges).
  split; [apply newRoute_loop_total|]. simpl.
  destruct (newRoute_nonempty amt feeLimit src pathEdges h f Hne)
    as (r' & _ & _ & Hamt & Hfees & ->).
  case_bool_decide as Hlim.
  - split; [done|]. split.
    + split; [by intros [? ?] | lia].
    + by intros.
  - split; [split; [done | lia]|]. split.
    + split; [lia | eauto].
    + intros r [= <-]. rewrite Hfees, Hamt. split; [done|]. split; [done | lia].
Qed.

Lemma newRoute_fee_limit_witness :
  ∃ st,
    newRoute_loop 100000 Examples.twoHops 100 9 2 (newRoute_init 100) = Ret st ∧
    let totalFees := u64 (nr_nextIncomingAmount st - 100000) in
    (newRoute 100000 500 Examples.vS Examples.twoHops 100 9 =
       Ret (Err ErrFeeLimitExceeded) ↔ 500 < totalFees) ∧
    ((∃ r, newRoute 100000 500 Examples.vS Examples.twoHops 100 9 = Ret (Ok r)) ↔
     totalFees <= 500) ∧
    (∀ r, newRoute 100000 500 Examples.vS Examples.twoHops 100 9 = Ret (Ok r) →
          Route.TotalAmount r = nr_nextIncomingAmount st ∧
          Route.TotalFees r = u64 (Route.TotalAmount r - 100000) ∧
          Route.TotalFees r <= 500).
Proof.
  apply (newRoute_fee_limit 100000 500 Examples.vS Examples.twoHops 100 9).
  discriminate.
Defined.

(** Scenarios 2 and 3 of the spec: fees of 1100 msat pass a limit of
    [noFeeLimit] and fail one of 500. Both hops forward the payment amount:
    the fee of A is part of the total amount only. *)
Example newRoute_scenario_2 :
  ∃ r, newRoute 100000 noFeeLimit Examples.vS Examples.twoHops 100 9 = Ret (Ok r) ∧
       Route.TotalFees r = 1100 ∧ Route.TotalAmount r = 101100 ∧
       Hop.AmtToForward <$> Route.Hops r = [100000; 100000].
Proof. eexists. split; [reflexivity|]. by vm_compute. Qed.

Example newRoute_scenario_3 :
  newRoute 100000 500 Examples.vS Examples.twoHops 100 9 =
  Ret (Err ErrFeeLimitExceeded).
Proof. reflexivity. Qed.

(** C9. When [newRoute] returns a route for a path that is not empty,
    [computePathFee] on the same amount and path returns the [TotalFees] of
    that route. *)
Theorem computePathFee_newRoute amt feeLimit src pathEdges h f r :
  pathEdges ≠ [] →
  newRoute amt feeLimit src pathEdges h f = Ret (Ok r) →
  computePathFee amt pathEdges = Ret (Route.TotalFees r).
Proof.
  intros Hne Hr.
  destruct (newRoute_nonempty amt feeLimit src pathEdges h f Hne)
    as (r' & _ & _ & _ & Hfees & Hnew).
  rewrite Hnew in Hr. destruct (bool_decide _); [done|].
  injection Hr as ->.
  rewrite Hfees. apply computePathFee_walk.
Qed.

Lemma computePathFee_newRoute_witness :
  ∃ r, newRoute 100000 noFeeLimit Examples.vS Examples.twoHops 100 9 = Ret (Ok r) ∧
       computePathFee 100000 Examples.twoHops = Ret (Route.TotalFees r) ∧
       Route.TotalFees r = 1100.
Proof.
  eexists. split; [reflexivity|]. split; [|reflexivity].
  apply (computePathFee_newRoute 100000 noFeeLimit Examples.vS
           Examples.twoHops 100 9).
  - discriminate.
  - reflexivity.
Defined.

(** C10. [NewRouteFromHops] returns an error exactly on the empty hop list,
    and that error is [ErrNoRouteHopsProvided]; on every other list,
    whatever its length and whatever vertices and channels repeat in it, it
    returns a route made of these very hops. *)
Theorem NewRouteFromHops_error_iff amt tl src hops :
  ((∃ e, NewRouteFromHops amt tl src hops = Ret (Err e)) ↔ hops = []) ∧
  (∀ e, NewRouteFromHops amt tl src hops = Ret (Err e) →
        e = ErrNoRouteHopsProvided) ∧
  (hops ≠ [] →
   ∃ r, NewRouteFromHops amt tl src hops = Ret (Ok r) ∧
        Route.Hops r = hops ∧ Route.TotalAmount r = amt ∧
        Route.TotalTimeLock r = tl ∧ Route.SourcePubKey r = src).
Proof.
  destruct hops as [|hp hops].
  - split; [|split]; [| |done].
    + split; [done|]. intros _. by exists ErrNoRouteHopsProvided.
    + intros e. unfold NewRouteFromHops. simpl. by intros [= <-].
  - destruct (NewRouteFromHops_nonempty amt tl src (hp :: hops))
      as (lastHop & r & _ & Hr & Hh & Htl & Hamt & Hsrc & _); [done|].
    split; [|split].
    + split; [|done]. intros [e He]. by rewrite Hr in He.
    + intros e He. by rewrite Hr in He.
    + intros _. by exists r.
Qed.

(** Twenty-five hops over one channel into one vertex are accepted. *)
Lemma NewRouteFromHops_error_iff_witness :
  ∃ r, NewRouteFromHops 1000 144 Examples.vS
         (replicate 25 (Examples.hop Examples.vA 7)) = Ret (Ok r) ∧
       Route.Hops r = replicate 25 (Examples.hop Examples.vA 7) ∧
       Route.TotalAmount r = 1000 ∧ Route.TotalTimeLock r = 144 ∧
       Route.SourcePubKey r = Examples.vS.
Proof.
  apply (NewRouteFromHops_error_iff 1000 144 Examples.vS
           (replicate 25 (Examples.hop Examples.vA 7))).
  discriminate.
Defined.

(** * The priority queues *)

Section HeapProperties.
Context {A : Type} (key : A → Z).
Implicit Types h : list A.

Lemma key_at_lookup h i a : h !! i = Some a → key_at key h i = key a.
Proof. unfold key_at. by intros ->. Qed.

Lemma is_heap_key_at h :
  is_heap key h ↔
  ∀ c, (0 < c < length h)%nat →
       key_at key h ((c - 1) / 2) <= key_at key h c.
Proof.
  split.
  - intros Hh c Hc.
    destruct (lookup_lt_is_Some_2 h c) as [b Hb]; [lia|].
    destruct (lookup_lt_is_Some_2 h ((c - 1) / 2)) as [a Ha].
    { assert ((c - 1) / 2 ≤ c - 1)%nat
        by (apply Nat.Div0.div_le_upper_bound; lia).
      lia. }
    rewrite (key_at_lookup _ _ _ Ha), (key_at_lookup _ _ _ Hb).
    apply (Hh c); [lia|done|done].
  - intros Hh c a b Hc Ha Hb.
    rewrite <- (key_at_lookup _ _ _ Ha), <- (key_at_lookup _ _ _ Hb).
    apply Hh. apply lookup_lt_Some in Hb. lia.
Qed.

Lemma is_heap_nil : is_heap key [].
Proof. intros j a b _ Ha. done. Qed.

Lemma heap_swap_length h i j : length (heap_swap h i j) = length h.
Proof.
  unfold heap_swap. destruct (h !! i), (h !! j); try done.
  by rewrite !length_insert.
Qed.

Lemma heap_swap_lookup h i j k :
  (i < length h)%nat → (j < length h)%nat →
  heap_swap h i j !! k =
  if decide (k = i) then h !! j else if decide (k = j) then h !! i else h !! k.
Proof.
  intros Hi Hj. unfold heap_swap.
  destruct (lookup_lt_is_Some_2 h i Hi) as [a Ha].
  destruct (lookup_lt_is_Some_2 h j Hj) as [b Hb].
  rewrite Ha, Hb.
  destruct (decide (k = i)) as [->|Hki].
  - by rewrite list_lookup_insert_eq by (rewrite length_insert; lia).
  - rewrite list_lookup_insert_ne by done.
    destruct (decide (k = j)) as [->|Hkj].
    + by rewrite list_lookup_insert_eq by lia.
    + by rewrite list_lookup_insert_ne by done.
Qed.

Lemma heap_swap_key_at h i j k :
  (i < length h)%nat → (j < length h)%nat →
  key_at key (heap_swap h i j) k =
  if decide (k = i) then key_at key h j
  else if decide (k = j) then key_at key h i else key_at key h k.
Proof.
  intros Hi Hj. unfold key_at. rewrite heap_swap_lookup by done.
  by repeat case_decide.
Qed.

Lemma heap_less_key_at h i j :
  (i < length h)%nat → (j < length h)%nat →
  heap_less key h i j = bool_decide (key_at key h i < key_at key h j).
Proof.
  intros Hi Hj. unfold heap_less, key_at.
  destruct (lookup_lt_is_Some_2 h i Hi) as [a ->].
  by destruct (lookup_lt_is_Some_2 h j Hj) as [b ->].
Qed.

Lemma insert_Permutation_cons h j (x b : A) :
  h !! j = Some b → b :: <[j := x]> h ≡ₚ x :: h.
Proof.
  revert j. induction h as [|c t IH]; intros [|j] Hj; try done; simpl in *.
  - injection Hj as ->. apply perm_swap.
  - rewrite perm_swap, (IH _ Hj). apply perm_swap.
Qed.

Lemma heap_swap_Permutation h i j : heap_swap h i j ≡ₚ h.
Proof.
  unfold heap_swap.
  destruct (h !! i) as [a|] eqn:Ha; [|done].
  destruct (h !! j) as [b|] eqn:Hb; [|done].
  destruct (decide (i = j)) as [->|Hij].
  - rewrite list_insert_insert_eq. assert (a = b) as -> by congruence.
    by rewrite list_insert_id.
  - apply (Permutation_cons_inv (a := a)).
    rewrite (insert_Permutation_cons _ i b a)
      by (by rewrite list_lookup_insert_ne).
    by rewrite (insert_Permutation_cons _ j a b).
Qed.

Lemma heap_up_Permutation fuel h j : heap_up key fuel h j ≡ₚ h.
Proof.
  revert h j. induction fuel as [|fuel IH]; intros h j; cbn [heap_up]; [done|].
  destruct (_ || _); [done|]. by rewrite IH, heap_swap_Permutation.
Qed.

Lemma heap_down_Permutation fuel h i n : heap_down key fuel h i n ≡ₚ h.
Proof.
  revert h i. induction fuel as [|fuel IH]; intros h i; cbn [heap_down]; [done|].
  case_bool_decide; [done|]. destruct (negb _); [done|].
  by rewrite IH, heap_swap_Permutation.
Qed.

Lemma heap_down_length fuel h i n :
  length (heap_down key fuel h i n) = length h.
Proof. apply Permutation_length, heap_down_Permutation. Qed.

(** [down(h, i, n)] leaves the slice from [n] on as it is. *)
Lemma heap_down_lookup_ge fuel h i n k :
  (i < n)%nat → (n ≤ length h)%nat → (n ≤ k)%nat →
  heap_down key fuel h i n !! k = h !! k.
Proof.
  revert h i. induction fuel as [|fuel IH]; intros h i Hi Hn Hk;
    cbn [heap_down]; [done|].
  case_bool_decide as Hj1; [done|].
  set (j := if _ && _ then _ else _).
  assert (2 * i + 1 ≤ j < n ∧ j ≤ 2 * i + 2)%nat as Hj.
  { subst j. destruct (bool_decide (2 * i + 1 + 1 < n)%nat) eqn:Hb; simpl.
    - apply bool_decide_eq_true in Hb. destruct (heap_less _ _ _ _); lia.
    - lia. }
  destruct (negb _); [done|].
  rewrite IH by (rewrite ?heap_swap_length; lia).
  rewrite heap_swap_lookup by lia. by repeat case_decide; try lia.
Qed.

(** The parent [(c - 1) / 2] of an index, between integers of Go (the
    quotient of [-1] by [2] is [0]). *)
Lemma parent_cases (c : nat) :
  (c = 0 ∧ (c - 1) / 2 = 0)%nat ∨
  (c = 2 * ((c - 1) / 2) + 1)%nat ∨ (c = 2 * ((c - 1) / 2) + 2)%nat.
Proof.
  destruct c as [|c]; [by left|]. right.
  replace (S c - 1)%nat with c by lia.
  pose proof (Nat.div_mod_eq c 2) as Hd.
  pose proof (Nat.mod_upper_bound c 2). lia.
Qed.

(** The rounds counted for the two loops are enough: more of them change
    nothing. *)
Lemma heap_up_fuel fuel fuel' h j :
  (j < fuel)%nat → (j < fuel')%nat →
  heap_up key fuel h j = heap_up key fuel' h j.
Proof.
  revert fuel' h j. induction fuel as [|fuel IH]; intros fuel' h j Hf Hf';
    [lia|].
  destruct fuel' as [|fuel']; [lia|]. cbn [heap_up].
  pose proof (parent_cases j).
  case_bool_decide; [done|]. cbn [orb]. destruct (negb _); [done|].
  apply IH; lia.
Qed.

Lemma heap_down_fuel fuel fuel' h i n :
  (n ≤ i + fuel)%nat → (n ≤ i + fuel')%nat →
  heap_down key fuel h i n = heap_down key fuel' h i n.
Proof.
  revert fuel' h i. induction fuel as [|fuel IH]; intros fuel' h i Hf Hf'.
  - destruct fuel' as [|fuel']; [done|]. cbn [heap_down].
    by rewrite bool_decide_eq_true_2 by lia.
  - destruct fuel' as [|fuel']; cbn [heap_down].
    + by rewrite bool_decide_eq_true_2 by lia.
    + case_bool_decide; [done|]. destruct (negb _); [done|].
      apply IH; destruct (_ && _); lia.
Qed.

Lemma heap_push_Permutation h x : heap_push key h x ≡ₚ x :: h.
Proof.
  unfold heap_push. rewrite heap_up_Permutation.
  by rewrite Permutation_app_comm.
Qed.

Lemma heap_push_nil x : heap_push key [] x = [x].
Proof. reflexivity. Qed.

Lemma elem_of_heap_push h x y : y ∈ heap_push key h x ↔ y = x ∨ y ∈ h.
Proof. by rewrite heap_push_Permutation, elem_of_cons. Qed.

Lemma heap_pop_None h : heap_pop key h = None ↔ h = [].
Proof.
  split; [|by intros ->]. destruct h as [|a t]; [done|].
  unfold heap_pop.
  destruct (last _) eqn:Hl; [done|]. apply last_None in Hl.
  apply (f_equal length) in Hl.
  rewrite heap_down_length, heap_swap_length in Hl. done.
Qed.

(** What [heap.Pop] takes is an element of the queue, and it leaves the
    others. *)
Lemma heap_pop_Permutation h x h' :
  heap_pop key h = Some (x, h') → h ≡ₚ x :: h'.
Proof.
  destruct h as [|a t]; [done|]. unfold heap_pop.
  set (n := (length (a :: t) - 1)%nat).
  set (hd := heap_down key n _ 0 n).
  destruct (last hd) as [y|] eqn:Hl; [|done]. intros [= <- <-].
  assert (hd ≡ₚ a :: t) as <-.
  { subst hd. by rewrite heap_down_Permutation, heap_swap_Permutation. }
  assert (length hd = S n) as Hlen.
  { subst hd n. rewrite heap_down_length, heap_swap_length. simpl. lia. }
  rewrite last_lookup, Hlen in Hl. simpl in Hl.
  rewrite <- (take_drop n hd) at 1.
  rewrite (drop_S _ _ _ Hl), drop_ge by lia.
  by rewrite Permutation_app_comm.
Qed.

Lemma heap_pop_Forall (P : A → Prop) h x h' :
  heap_pop key h = Some (x, h') → Forall P h → P x ∧ Forall P h'.
Proof.
  intros Hp%heap_pop_Permutation HP. rewrite Hp in HP.
  by apply Forall_cons in HP.
Qed.

Lemma heap_push_Forall (P : A → Prop) h x :
  Forall P h → P x → Forall P (heap_push key h x).
Proof. intros Hh Hx. rewrite heap_push_Permutation. by constructor. Qed.

Lemma heap_up_length fuel h j : length (heap_up key fuel h j) = length h.
Proof. apply Permutation_length, heap_up_Permutation. Qed.

(** [up(h, j)] restores the order of a slice that is in order but for the
    element at [j], which may be less than its parent. *)
Lemma heap_up_is_heap fuel h j :
  (j < fuel)%nat → (j < length h)%nat →
  (∀ c, (0 < c < length h)%nat → c ≠ j →
        key_at key h ((c - 1) / 2) <= key_at key h c) →
  (∀ c, (0 < c < length h)%nat → ((c - 1) / 2)%nat = j → (0 < j)%nat →
        key_at key h ((j - 1) / 2) <= key_at key h c) →
  is_heap key (heap_up key fuel h j).
Proof.
  revert h j. induction fuel as [|fuel IH]; intros h j Hf Hj Ha Hb; [lia|].
  cbn [heap_up]. pose proof (parent_cases j) as Hpj.
  case_bool_decide as Hij; cbn [orb].
  { apply is_heap_key_at. intros c Hc. apply Ha; [done|]. lia. }
  rewrite heap_less_key_at by lia.
  case_bool_decide as Hlt; cbn [negb].
  - apply IH.
    + lia.
    + rewrite heap_swap_length. lia.
    + rewrite heap_swap_length. intros c Hc Hci.
      pose proof (parent_cases c).
      rewrite !heap_swap_key_at by lia.
      repeat case_decide; subst; try lia.
      * match goal with
        | E : ((c - 1) / 2)%nat = _ |- _ =>
            specialize (Ha c Hc); rewrite E in Ha
        end. lia.
      * apply (Hb c Hc); lia.
      * by apply Ha.
    + rewrite heap_swap_length. intros c Hc Hci Hi.
      pose proof (parent_cases c). pose proof (parent_cases ((j - 1) / 2)).
      rewrite !heap_swap_key_at by lia.
      pose proof (Ha ((j - 1) / 2)%nat ltac:(lia) ltac:(lia)) as Hai.
      repeat case_decide; subst; try lia.
      match goal with
      | E : c ≠ j |- _ => specialize (Ha c Hc E); rewrite Hci in Ha
      end. lia.
  - apply is_heap_key_at. intros c Hc.
    destruct (decide (c = j)) as [->|Hcj]; [lia|]. by apply Ha.
Qed.

Lemma heap_push_is_heap h x : is_heap key h → is_heap key (heap_push key h x).
Proof.
  intros Hh. pose proof (proj1 (is_heap_key_at h) Hh) as Hk.
  unfold heap_push. apply heap_up_is_heap; rewrite ?length_app;
    cbn [length]; try lia.
  - intros c Hc Hcj. pose proof (parent_cases c).
    unfold key_at. rewrite !lookup_app_l by lia. apply Hk. lia.
  - intros c Hc Hcj _. pose proof (parent_cases c). lia.
Qed.

(** [down(h, i, n)] restores the order of the first [n] elements when they
    are in order but for the element at [i], which may be greater than its
    children. *)
Lemma heap_down_is_heap fuel h i n :
  (n ≤ i + fuel)%nat → (n ≤ length h)%nat →
  (∀ c, (0 < c < n)%nat → ((c - 1) / 2)%nat ≠ i →
        key_at key h ((c - 1) / 2) <= key_at key h c) →
  (∀ c, (0 < c < n)%nat → ((c - 1) / 2)%nat = i → (0 < i)%nat →
        key_at key h ((i - 1) / 2) <= key_at key h c) →
  ∀ c, (0 < c < n)%nat →
       key_at key (heap_down key fuel h i n) ((c - 1) / 2) <=
       key_at key (heap_down key fuel h i n) c.
Proof.
  revert h i. induction fuel as [|fuel IH]; intros h i Hf Hn Ha Hb c Hc;
    cbn [heap_down].
  { pose proof (parent_cases c). apply Ha; lia. }
  case_bool_decide as Hj1.
  { pose proof (parent_cases c). apply Ha; lia. }
  set (j1 := (2 * i + 1)%nat) in *.
  set (j := if _ && _ then _ else _).
  assert ((j = j1 ∨ j = (j1 + 1)%nat) ∧ (j < n)%nat ∧
          ((j1 + 1 < n)%nat → key_at key h j <= key_at key h j1 ∧
                              key_at key h j <= key_at key h (j1 + 1)))
    as (Hjj & Hjn & Hjmin).
  { subst j. case_bool_decide as Hj2; cbn [andb].
    - rewrite heap_less_key_at by lia. case_bool_decide; (split; [|split]); lia.
    - split; [|split]; lia. }
  clearbody j. rewrite heap_less_key_at by lia.
  case_bool_decide as Hlt; cbn [negb].
  - assert (∀ c', (0 < c' < n)%nat → ((c' - 1) / 2)%nat = i →
                  key_at key h j <= key_at key h c') as Hsib.
    { intros c' Hc' Hpc'. pose proof (parent_cases c').
      assert (c' = j1 ∨ c' = j1 + 1)%nat as [->| ->] by lia.
      - destruct Hjj as [->|Hjj]; [lia|]. apply Hjmin. lia.
      - apply Hjmin. lia. }
    assert ((0 < i)%nat → key_at key h ((i - 1) / 2) <= key_at key h j)
      as Hup.
    { intros Hi. pose proof (parent_cases j). apply (Hb j); lia. }
    pose proof (parent_cases i) as Hpi. pose proof (parent_cases j) as Hpj.
    revert c Hc. apply IH.
    + lia.
    + by rewrite heap_swap_length.
    + intros c Hc Hcj. pose proof (parent_cases c).
      rewrite !heap_swap_key_at by lia.
      destruct (decide (c = i)) as [->|Hci].
      { rewrite !decide_False by lia. apply Hup. lia. }
      destruct (decide (c = j)) as [->|Hcj'].
      { rewrite decide_True by lia. lia. }
      destruct (decide (((c - 1) / 2)%nat = i)) as [Hpc|Hpc].
      { by apply Hsib. }
      rewrite decide_False by done. by apply Ha.
    + intros c Hc Hcj Hj0. pose proof (parent_cases c).
      rewrite !heap_swap_key_at by lia.
      rewrite (decide_False (P := (c = i))) by lia.
      rewrite (decide_False (P := (c = j))) by lia.
      rewrite (decide_True (P := (((j - 1) / 2)%nat = i))) by lia.
      rewrite <- Hcj. apply Ha; [done|lia].
  - pose proof (parent_cases c).
    destruct (decide (((c - 1) / 2)%nat = i)) as [Hci|Hci]; [|by apply Ha].
    rewrite Hci. assert (c = j1 ∨ c = j1 + 1)%nat as [->| ->] by lia.
    + destruct Hjj as [->|Hjj]; [lia|]. destruct Hjmin; lia.
    + destruct Hjmin; [lia|]. destruct Hjj as [->| ->]; lia.
Qed.

(** The root of a heap is an element of least key. *)
Lemma is_heap_root h c :
  is_heap key h → (c < length h)%nat → key_at key h 0 <= key_at key h c.
Proof.
  intros Hh. pose proof (proj1 (is_heap_key_at h) Hh) as Hk.
  induction (lt_wf c) as [c _ IH]. intros Hc.
  destruct (decide (c = 0%nat)) as [->|Hc0]; [lia|].
  pose proof (parent_cases c).
  specialize (Hk c ltac:(lia)).
  specialize (IH ((c - 1) / 2)%nat ltac:(lia) ltac:(lia)). lia.
Qed.

(** What [heap.Pop] takes from a heap is an element of least key, and what
    it leaves is a heap. *)
Lemma heap_pop_is_heap h x h' :
  is_heap key h → heap_pop key h = Some (x, h') →
  (∀ y, y ∈ h → key x <= key y) ∧ is_heap key h'.
Proof.
  intros Hh Hp. pose proof (proj1 (is_heap_key_at h) Hh) as Hk.
  destruct h as [|a t]; [done|]. unfold heap_pop in Hp.
  set (n := (length (a :: t) - 1)%nat) in *.
  assert (length (a :: t) = S n) as Hlen by (subst n; simpl; lia).
  set (hs := heap_swap (a :: t) 0 n) in *.
  assert (length hs = S n) as Hlens by (subst hs; by rewrite heap_swap_length).
  set (hd := heap_down key n hs 0 n) in *.
  assert (length hd = S n) as Hlend by (subst hd; by rewrite heap_down_length).
  destruct (last hd) as [y|] eqn:Hl; [|done]. injection Hp as -> <-.
  rewrite last_lookup, Hlend in Hl. cbn [pred] in Hl.
  assert (x = a) as ->.
  { destruct (decide (n = 0)%nat) as [Hn0|Hn0].
    - subst hd. rewrite Hn0 in Hl. cbn [heap_down] in Hl. subst hs.
      rewrite heap_swap_lookup in Hl by lia. rewrite Hn0 in Hl.
      simpl in Hl. congruence.
    - subst hd. rewrite heap_down_lookup_ge in Hl by lia. subst hs.
      rewrite heap_swap_lookup in Hl by lia.
      rewrite decide_False in Hl by done. rewrite decide_True in Hl by done.
      simpl in Hl. congruence. }
  split.
  - intros y [k Hy]%list_elem_of_lookup_1.
    pose proof (is_heap_root _ k Hh ltac:(by eapply lookup_lt_Some)) as Hr.
    by rewrite (key_at_lookup _ _ _ Hy) in Hr.
  - apply is_heap_key_at. rewrite length_take, Hlend.
    intros c Hc. pose proof (parent_cases c).
    unfold key_at. rewrite !lookup_take_lt by lia.
    apply (heap_down_is_heap n hs 0 n); try lia.
    intros c' Hc' Hp'. pose proof (parent_cases c').
    subst hs. rewrite !heap_swap_key_at by lia.
    repeat case_decide; try lia. apply Hk. lia.
Qed.
End HeapProperties.

(** The queue is not stable: of three elements with the same key, pushed
    one after the other, the first comes out first and the third second. *)
Example heap_pop_equal_keys :
  let h := foldl (heap_push (fun _ : Z => 0)) [] [1; 2; 3] in
  h = [1; 2; 3] ∧
  heap_pop (fun _ : Z => 0) h = Some (1, [3; 2]) ∧
  heap_pop (fun _ : Z => 0) [3; 2] = Some (3, [2]).
Proof. by vm_compute. Qed.

(** * The searches *)

Section SearchProperties.
Context `{Externals}.

(** C5 (as amended). An edge that none of the earlier guards of
    [processEdge] rejects is rejected for its time-lock delta exactly when
    that delta is 0, whether or not its tail is the origin; an edge out of
    the origin with a delta of 0 is never recorded. *)
Theorem processEdge_zero_timelock r originV amt distance fromNode edge
    bandwidth toNode :
  let v := processEdge_verdict r originV amt distance fromNode edge
             bandwidth toNode in
  (v = SkipZeroTimeLock ↔
   ChannelEdgePolicy.TimeLockDelta edge = 0 ∧ rejectedEarlier v = false) ∧
  ((∃ d, v = Relax d) ↔
   ChannelEdgePolicy.TimeLockDelta edge ≠ 0 ∧ rejectedEarlier v = false) ∧
  (LightningNode.PubKeyBytes fromNode = originV →
   ChannelEdgePolicy.TimeLockDelta edge = 0 →
   ∀ d, v ≠ Relax d).
Proof.
  assert (∀ v,
    v = processEdge_verdict r originV amt distance fromNode edge
          bandwidth toNode →
    (v = SkipZeroTimeLock → ChannelEdgePolicy.TimeLockDelta edge = 0) ∧
    (∀ d, v = Relax d → ChannelEdgePolicy.TimeLockDelta edge ≠ 0)) as Hv.
  { intros v ->. unfold processEdge_verdict.
    repeat (case_match; try done); split; try done;
      repeat match goal with
             | Hb : bool_decide _ = _ |- _ =>
                 first [apply bool_decide_eq_true_1 in Hb
                       |apply bool_decide_eq_false_1 in Hb]
             end; try done; intros; done. }
  intros v. destruct (Hv v eq_refl) as [Hz Hr]. clearbody v.
  split; [|split].
  - split; [intros Hs; split; [auto | by rewrite Hs]|].
    intros [Hd He]. destruct v; try done. by destruct (Hr d).
  - split.
    + intros [d ->]. split; [by apply (Hr d) | done].
    + intros [Hd He]. destruct v; try done; [|by eauto].
      by destruct Hd; apply Hz.
  - intros _ Hd d Hvd. by apply (Hr d).
Qed.

(** [findKPaths] asks for a search that stops at an over-long path, and
    on such a request [findPath] does not call [findKPaths]: the
    [findPath_stop] inside [findKPaths] is [findPath]. *)
Lemma findPath_gen_stop kp kp' fuel g r sourceNode target amt :
  stopAtMaxHopsExceeded r = true →
  findPath_gen kp fuel g r sourceNode target amt =
  findPath_gen kp' fuel g r sourceNode target amt.
Proof.
  intros Hstop. unfold findPath_gen. rewrite Hstop. reflexivity.
Qed.

Lemma findPath_stop_findPath fuel g r sourceNode target amt :
  stopAtMaxHopsExceeded r = true →
  findPath_stop fuel g r sourceNode target amt =
  findPath fuel g r sourceNode target amt.
Proof. apply findPath_gen_stop. Qed.

(** C7 (as amended). With [numPaths = 1] and a starting path of at most
    20 edges [findKPaths] returns one path, whatever the graph and the
    fuel: the starting path behind the self edge of the source, and the
    starting path itself only when an origin is set and the source is not
    the origin. *)
Theorem findKPaths_one fuel g r source target amt startingPath :
  (length startingPath ≤ HopLimit)%nat →
  findKPaths fuel g r source target amt startingPath 1 =
  Ret (Ok [match originVertex g with
           | Some o =>
               if bool_decide (LightningNode.PubKeyBytes source ≠ o)
               then startingPath
               else selfEdge source :: startingPath
           | None => selfEdge source :: startingPath
           end]).
Proof.
  intros Hlen. unfold findKPaths, findKPaths_gen, HopLimit in *.
  rewrite bool_decide_eq_true_2 by (simpl; lia).
  assert (∀ st, validPathsNum st = 1 →
            kPathsLoop fuel (findPath_stop fuel) g r target amt 1 1 st =
            Ret (Ok st)) as ->.
  { intros st Hst. destruct fuel; simpl; by rewrite Hst. }
  2: done.
  simpl. rewrite filter_cons_True by (simpl; lia).
  rewrite filter_nil.
  destruct (originVertex g) as [o|]; [|done].
  case_bool_decide; done.
Qed.

(** ** Stitched paths *)

Ltac exec_step H :=
  match type of H with
  | mbind _ ?m = Ret _ =>
      let E := fresh "E" in
      destruct m eqn:E; simpl in H; [|discriminate H..]
  end.

(** What the stitching loop pushes is a stitched path of at most
    [HopLimit] entries, filed under its length. *)
Lemma stitchLoop_pushed i j segKPaths segPaths candidatePaths p :
  p ∈ (stitchLoop i j segKPaths segPaths candidatePaths).2 →
  p ∈ candidatePaths ∨
  ∃ segPaths' segKPath,
    segKPath ∈ segKPaths ∧
    hops p = stitchPath segPaths' i segKPath ∧
    (length (hops p) ≤ HopLimit)%nat ∧
    path_dist p = Z.of_nat (length (hops p)).
Proof.
  revert j segPaths candidatePaths.
  induction segKPaths as [|segKPath rest IH]; intros j segPaths cands Hp;
    [by left|].
  simpl in Hp.
  assert (∀ j' sp' cs,
    p ∈ (stitchLoop i j' rest sp' cs).2 →
    (∀ q, q ∈ cs → q ∈ cands ∨
       ∃ segPaths' segKPath0,
         segKPath0 ∈ segKPath :: rest ∧
         hops q = stitchPath segPaths' i segKPath0 ∧
         (length (hops q) ≤ HopLimit)%nat ∧
         path_dist q = Z.of_nat (length (hops q))) →
    p ∈ cands ∨
    ∃ segPaths' segKPath0,
      segKPath0 ∈ segKPath :: rest ∧
      hops p = stitchPath segPaths' i segKPath0 ∧
      (length (hops p) ≤ HopLimit)%nat ∧
      path_dist p = Z.of_nat (length (hops p))) as Hrest.
  { intros j' sp' cs Hin Hcs.
    destruct (IH _ _ _ Hin) as [Hc|(sp & k & Hk & Hh & Hl & Hd)].
    - by apply Hcs.
    - right. exists sp, k. split; [by right|done]. }
  destruct (bool_decide (i ≠ 0%nat) && bool_decide (j = 0%nat)).
  { apply (Hrest _ _ _ Hp). by left. }
  case_bool_decide as Hlen.
  { apply (Hrest _ _ _ Hp). by left. }
  apply (Hrest _ _ _ Hp).
  intros q [Hq|Hq]%elem_of_heap_push; [|by left].
  right. subst q. simpl. eexists _, segKPath.
  split; [by left|]. split; [reflexivity|]. split; [lia|done].
Qed.

Lemma stitchLoop_hop_limit i j segKPaths segPaths candidatePaths :
  Forall (fun p => (length (hops p) ≤ HopLimit)%nat) candidatePaths →
  Forall (fun p => (length (hops p) ≤ HopLimit)%nat)
         (stitchLoop i j segKPaths segPaths candidatePaths).2.
Proof.
  intros Hc. apply Forall_forall. intros p Hp.
  destruct (stitchLoop_pushed _ _ _ _ _ _ Hp) as [Hin|(? & ? & _ & _ & Hl & _)];
    [|done].
  by eapply Forall_forall in Hc.
Qed.

Lemma alternativesLoop_hop_limit fuel txb graph originV amt feeLimit numPaths
    bandwidthHints ignoredEdges segParams startingPathFee n i segPaths
    candidatePaths candidatePaths' :
  alternativesLoop fuel txb graph originV amt feeLimit numPaths
    bandwidthHints ignoredEdges segParams startingPathFee n i segPaths
    candidatePaths = Ret (Ok candidatePaths') →
  Forall (fun p => (length (hops p) ≤ HopLimit)%nat) candidatePaths →
  Forall (fun p => (length (hops p) ≤ HopLimit)%nat) candidatePaths'.
Proof.
  revert i segPaths candidatePaths.
  induction n as [|n IH]; intros i segPaths cands Hrun Hc; simpl in Hrun.
  { by injection Hrun as <-. }
  exec_step Hrun. destruct (seg_pegged a); [by eapply IH|].
  exec_step Hrun. exec_step Hrun. exec_step Hrun.
  destruct a2 as [segKPaths|e]; [|done].
  destruct (stitchLoop i 0 segKPaths segPaths cands) as [sp' cs'] eqn:Hs.
  eapply IH; [exact Hrun|].
  pose proof (stitchLoop_hop_limit i 0 segKPaths segPaths cands Hc) as Hf.
  by rewrite Hs in Hf.
Qed.

Lemma selectLoop_hop_limit n candidatePaths shortest :
  Forall (fun p => (length (hops p) ≤ HopLimit)%nat) candidatePaths →
  Forall (fun p => (length p ≤ HopLimit)%nat) shortest →
  Forall (fun p => (length p ≤ HopLimit)%nat)
         (selectLoop n candidatePaths shortest).
Proof.
  revert candidatePaths shortest.
  induction n as [|n IH]; intros cands shortest Hc Hs; simpl; [done|].
  destruct (heap_pop path_dist cands) as [[p cands']|] eqn:Hp; [|done].
  destruct (heap_pop_Forall _ _ _ _ _ Hp Hc) as [Hpl Hc'].
  apply IH; [done|]. apply Forall_app. split; [done|]. by constructor.
Qed.

(** C8. In [findPaths] a stitched candidate enters the candidate heap only
    if it has at most [HopLimit] = 20 entries (one of more than 20 is
    dropped), and so every path that [findPaths] returns has at most 20
    entries. *)
Theorem findPaths_hop_limit fuel txb graph source target amt feeLimit
    numPaths bandwidthHints additionalPegs :
  (∀ i j segKPaths segPaths candidatePaths p,
     p ∈ (stitchLoop i j segKPaths segPaths candidatePaths).2 →
     p ∈ candidatePaths ∨
     ∃ segPaths' segKPath,
       segKPath ∈ segKPaths ∧
       hops p = stitchPath segPaths' i segKPath ∧
       (length (hops p) ≤ 20)%nat) ∧
  (∀ paths,
     findPaths fuel txb graph source target amt feeLimit numPaths
       bandwidthHints additionalPegs = Ret (Ok paths) →
     Forall (fun p => (length p ≤ 20)%nat) paths).
Proof.
  split.
  - intros i j segKPaths segPaths cands p Hp.
    destruct (stitchLoop_pushed _ _ _ _ _ _ Hp)
      as [Hin|(sp & k & Hk & Hh & Hl & _)]; [by left|].
    right. by exists sp, k.
  - intros paths Hrun. unfold findPaths in Hrun.
    exec_step Hrun. destruct a as [pegs|e]; [|done].
    destruct (bool_decide (length pegs = 0%nat)); [done|].
    exec_step Hrun. destruct a as [st|e]; [|done].
    exec_step Hrun. destruct (bool_decide (feeLimit < a)); [done|].
    exec_step Hrun. destruct a0 as [cands|e]; [|done].
    injection Hrun as <-.
    apply (selectLoop_hop_limit (Z.to_nat numPaths) cands []); [|done].
    eapply alternativesLoop_hop_limit; [exact E2|done].
Qed.

(** ** The order of the K shortest paths *)

(** The spur loop pushes its candidates one after the other, whatever
    the heap holds, each filed under its number of entries. *)
Lemma spurLoop_pushes fp g r target amt shortest valid prevShortest n i
    candidatePaths candidatePaths' :
  spurLoop fp g r target amt shortest valid prevShortest n i candidatePaths =
    Ret (Ok candidatePaths') →
  ∃ pushed,
    (∀ cs, spurLoop fp g r target amt shortest valid prevShortest n i cs =
           Ret (Ok (foldl (heap_push path_dist) cs pushed))) ∧
    Forall (fun q => path_dist q = Z.of_nat (length (hops q))) pushed.
Proof.
  revert i candidatePaths.
  induction n as [|n IH]; intros i cands Hrun; simpl in Hrun.
  { exists []. split; [done|constructor]. }
  exec_step Hrun. exec_step Hrun. destruct a0 as [spurPath err].
  assert (∃ pushed,
    (∀ cs,
       (if bool_decide (HopLimit + 1 < length (take (i + 1) prevShortest) +
                                        length spurPath)%nat &&
           bool_decide (0 < valid)
        then mret (Ok cs)
        else spurLoop fp g r target amt shortest valid prevShortest n (S i)
               (heap_push path_dist cs
                  {| hops := take (i + 1) prevShortest ++ spurPath;
                     path_dist :=
                       Z.of_nat (length (take (i + 1) prevShortest) +
                                 length spurPath) |})) =
       Ret (Ok (foldl (heap_push path_dist) cs pushed))) ∧
    Forall (fun q => path_dist q = Z.of_nat (length (hops q))) pushed)
    as Hpush.
  { destruct (_ && _) eqn:Hbreak.
    - exists []. split; [done|constructor].
    - destruct err as [[]|]; try done;
        (destruct (IH _ _ Hrun) as (pushed & Hall & Hd);
         eexists (_ :: pushed); split;
         [intros cs; apply Hall
         |constructor; [simpl; by rewrite length_app|done]]). }
  destruct err as [[]|]; try done.
  - destruct (IH _ _ Hrun) as (pushed & Hall & Hd). exists pushed.
    split; [|done]. intros cs. simpl. rewrite E. simpl. rewrite E0. simpl.
    apply Hall.
  - destruct Hpush as (pushed & Hall & Hd). exists pushed.
    split; [|done]. intros cs. simpl. rewrite E. simpl. rewrite E0. simpl.
    apply Hall.
  - destruct Hpush as (pushed & Hall & Hd). exists pushed.
    split; [|done]. intros cs. simpl. rewrite E. simpl. rewrite E0. simpl.
    apply Hall.
Qed.

Lemma foldl_heap_push_Permutation {A} (key : A → Z) h l :
  foldl (heap_push key) h l ≡ₚ h ++ l.
Proof.
  revert h. induction l as [|x l IH]; intros h; simpl.
  - by rewrite app_nil_r.
  - rewrite IH, heap_push_Permutation. by rewrite <- Permutation_middle.
Qed.

Lemma foldl_heap_push_is_heap {A} (key : A → Z) h l :
  is_heap key h → is_heap key (foldl (heap_push key) h l).
Proof.
  revert h. induction l as [|x l IH]; intros h Hh; simpl; [done|].
  by apply IH, heap_push_is_heap.
Qed.

(** Every candidate is filed under its number of entries. *)
Lemma spurLoop_dist fp g r target amt shortest valid prevShortest n i
    candidatePaths candidatePaths' :
  spurLoop fp g r target amt shortest valid prevShortest n i candidatePaths =
    Ret (Ok candidatePaths') →
  Forall (fun q => path_dist q = Z.of_nat (length (hops q))) candidatePaths →
  Forall (fun q => path_dist q = Z.of_nat (length (hops q))) candidatePaths'.
Proof.
  intros Hrun Hc.
  destruct (spurLoop_pushes _ _ _ _ _ _ _ _ _ _ _ _ Hrun) as (pushed & Hall & Hd).
  rewrite Hall in Hrun. injection Hrun as <-.
  rewrite foldl_heap_push_Permutation. by apply Forall_app.
Qed.

(** The loop only appends to the paths it has. *)
Lemma kPathsLoop_appends fuel fp g r target amt numPaths k st st' :
  kPathsLoop fuel fp g r target amt numPaths k st = Ret (Ok st') →
  ∃ more, shortestPaths st' = shortestPaths st ++ more.
Proof.
  revert k st. induction fuel as [|fuel IH]; intros k st Hrun; simpl in Hrun.
  - case_bool_decide; [done|]. injection Hrun as <-. exists []. by rewrite app_nil_r.
  - case_bool_decide; [|injection Hrun as <-; exists []; by rewrite app_nil_r].
    exec_step Hrun. exec_step Hrun. destruct a0 as [cands|e]; [|done].
    destruct (heap_pop path_dist cands) as [[p cands']|].
    + destruct (IH _ _ Hrun) as [more Hmore]. simpl in Hmore.
      exists (hops p :: more). by rewrite Hmore, <- app_assoc.
    + injection Hrun as <-. exists []. by rewrite app_nil_r.
Qed.

Lemma popFirstEdges_cons e p paths stripped :
  popFirstEdges ((e :: p) :: paths) = Ret stripped →
  ∃ rest, stripped = p :: rest.
Proof.
  simpl. intros Hrun. exec_step Hrun. injection Hrun as <-. by eexists.
Qed.

Lemma popFirstEdges_tail paths stripped :
  popFirstEdges paths = Ret stripped → stripped = tail <$> paths.
Proof.
  revert stripped. induction paths as [|p paths IH]; intros stripped Hrun;
    simpl in Hrun.
  { by injection Hrun as <-. }
  destruct p as [|e p]; [done|]. exec_step Hrun. injection Hrun as <-.
  simpl. f_equal. by apply IH.
Qed.

(** The loop of [findKPaths] runs the rounds: the candidate heap is a heap
    by the number of entries, so that what a round pops has the fewest. *)
Lemma kPathsLoop_kRounds fuel fp g r target amt numPaths k st st' :
  kPathsLoop fuel fp g r target amt numPaths k st = Ret (Ok st') →
  k = length (shortestPaths st) →
  is_heap path_dist (candidatePaths st) →
  Forall (fun q => path_dist q = Z.of_nat (length (hops q)))
         (candidatePaths st) →
  kRounds fp g r target amt numPaths (shortestPaths st) (candidatePaths st)
    (validPathsNum st) (shortestPaths st').
Proof.
  revert k st. induction fuel as [|fuel IH]; intros k st Hrun Hk Hh Hd;
    simpl in Hrun.
  { case_bool_decide; [done|]. injection Hrun as <-. by constructor. }
  case_bool_decide as Hlt; [|injection Hrun as <-; by constructor].
  exec_step Hrun. exec_step Hrun. destruct a0 as [cands|e]; [|done].
  rename a into prevShortest.
  assert (last (shortestPaths st) = Some prevShortest) as Hlast.
  { unfold idx in E. destruct (shortestPaths st !! _) eqn:Hprev; [|done].
    injection E as ->. rewrite last_lookup, <- Hprev. f_equal. lia. }
  destruct (spurLoop_pushes _ _ _ _ _ _ _ _ _ _ _ _ E0)
    as (pushed & Hall & Hdp).
  pose proof E0 as Hcands. rewrite Hall in Hcands. injection Hcands as Hcands.
  assert (is_heap path_dist cands) as Hh'.
  { rewrite <- Hcands. by apply foldl_heap_push_is_heap. }
  assert (Forall (fun q => path_dist q = Z.of_nat (length (hops q))) cands)
    as Hd' by by eapply spurLoop_dist.
  assert (cands ≡ₚ candidatePaths st ++ foldl (heap_push path_dist) [] pushed)
    as Hbag.
  { rewrite <- Hcands. by rewrite !foldl_heap_push_Permutation. }
  destruct (heap_pop path_dist cands) as [[p cands']|] eqn:Hp.
  - destruct (heap_pop_is_heap _ _ _ _ Hh' Hp) as [Hleast Hh''].
    pose proof (heap_pop_Permutation _ _ _ _ Hp) as Hperm.
    destruct (heap_pop_Forall _ _ _ _ _ Hp Hd') as [Hdp' Hd''].
    eapply kRounds_next; [done|done|apply Hall| | |].
    + by rewrite <- Hbag.
    + intros q Hq.
      assert (q ∈ cands) as Hqc by (rewrite Hperm; by right).
      specialize (Hleast q Hqc).
      eapply Forall_forall in Hd'; [|exact Hqc]. lia.
    + apply (IH _ _ Hrun); simpl; [|done|done].
      rewrite length_app. simpl. lia.
  - injection Hrun as <-. simpl.
    apply heap_pop_None in Hp. subst cands.
    symmetry in Hbag. apply Permutation_nil_r in Hbag.
    apply app_eq_nil in Hbag as [Hc0 Hn0]. rewrite Hc0.
    eapply kRounds_empty; [done|done|]. rewrite Hall. by rewrite Hn0.
Qed.

(** C6 (as amended). [findKPaths] returns the paths that its rounds find,
    in that order: the starting path first (behind the self edge),
    whatever its number of hops, and after it, round by round, a candidate
    that has the fewest entries among the candidates of the heap, which
    are the deviations pushed so far and not yet taken. Which of several
    candidates with the fewest entries is taken is left open. Paths of
    more than [HopLimit + 1] entries are left out of the result and the
    self edge is taken off when the source is not the origin. The list as
    a whole need not be sorted by hop count. *)
Theorem findKPaths_order fuel g r source target amt startingPath numPaths
    paths :
  findKPaths fuel g r source target amt startingPath numPaths =
    Ret (Ok paths) →
  let firstPath := selfEdge source :: startingPath in
  ∃ found,
    kRounds (findPath_stop fuel) g r target amt numPaths [firstPath] []
      (if bool_decide (length firstPath ≤ HopLimit + 1)%nat then 1 else 0)
      (firstPath :: found) ∧
    paths =
      (match originVertex g with
       | Some o =>
           if bool_decide (LightningNode.PubKeyBytes source ≠ o)
           then fmap tail
           else id
       | None => id
       end)
        (filter (fun p => length p ≤ HopLimit + 1)%nat (firstPath :: found)) ∧
    ((length startingPath ≤ HopLimit)%nat →
     ∃ rest,
       paths = match originVertex g with
               | Some o =>
                   if bool_decide (LightningNode.PubKeyBytes source ≠ o)
                   then startingPath
                   else firstPath
               | None => firstPath
               end :: rest).
Proof.
  intros Hrun firstPath. unfold findKPaths, findKPaths_gen in Hrun.
  exec_step Hrun. destruct a as [st|e]; [|done].
  destruct (kPathsLoop_appends _ _ _ _ _ _ _ _ _ _ E) as [found Hfound].
  simpl in Hfound. exists found.
  pose proof (kPathsLoop_kRounds _ _ _ _ _ _ _ _ _ _ E eq_refl
                (is_heap_nil _) (Forall_nil_2 _)) as Hrounds.
  simpl in Hrounds. rewrite Hfound in Hrounds, Hrun.
  split; [exact Hrounds|].
  assert (paths =
    (match originVertex g with
     | Some o =>
         if bool_decide (LightningNode.PubKeyBytes source ≠ o)
         then fmap tail
         else id
     | None => id
     end)
      (filter (fun p => length p ≤ HopLimit + 1)%nat (firstPath :: found)))
    as Hpaths.
  { clear Hrounds. destruct (originVertex g) as [o|].
    - destruct (bool_decide (LightningNode.PubKeyBytes source ≠ o)).
      + exec_step Hrun. injection Hrun as <-.
        by apply popFirstEdges_tail in E0.
      + by injection Hrun as <-.
    - by injection Hrun as <-. }
  split; [exact Hpaths|].
  intros Hlen. rewrite Hpaths.
  rewrite filter_cons_True by (unfold HopLimit in *; simpl; lia).
  destruct (originVertex g) as [o|];
    [destruct (bool_decide (LightningNode.PubKeyBytes source ≠ o))|];
    by eexists.
Qed.
End SearchProperties.

(** * The searches on concrete graphs *)

(** The cheapest path of the five nodes has three hops. *)
Example findPath_fiveNodes :
  findPath (H := Examples.externals) 10
    (Examples.paramsOf Examples.fiveNodes) Examples.unrestricted
    (Examples.nodeOf Examples.vS) Examples.vT 100000 =
  Ret (Examples.threeHops, None).
Proof. vm_compute. reflexivity. Qed.

(** A single channel is found when its policy has a delta, and not found
    when the delta is 0, although the edge leaves the origin. *)
Example findPath_oneChannel :
  findPath (H := Examples.externals) 10
    (Examples.paramsOf (Examples.oneChannel Examples.edgeSA))
    Examples.unrestricted (Examples.nodeOf Examples.vS) Examples.vA 100000 =
  Ret ([Examples.edgeSA], None) ∧
  findPath (H := Examples.externals) 10
    (Examples.paramsOf (Examples.oneChannel Examples.edgeSA0))
    Examples.unrestricted (Examples.nodeOf Examples.vS) Examples.vA 100000 =
  Ret ([], Some ErrNoPathFound).
Proof. split; vm_compute; reflexivity. Qed.

Lemma processEdge_zero_timelock_witness :
  processEdge_verdict (H := Examples.externals) Examples.unrestricted
    Examples.vS 100000 Examples.reachedA (Examples.nodeOf Examples.vS)
    Examples.edgeSA0 1000000000 Examples.vA = SkipZeroTimeLock.
Proof.
  apply (processEdge_zero_timelock (H := Examples.externals)
           Examples.unrestricted Examples.vS 100000 Examples.reachedA
           (Examples.nodeOf Examples.vS) Examples.edgeSA0 1000000000
           Examples.vA).
  split; reflexivity.
Defined.

(** C5 as stated fails: the edge from the origin S to A with a delta of 0
    passes every earlier guard and is rejected by the guard on the delta;
    with a delta of 10 the same edge is recorded. *)
Lemma processEdge_zero_timelock_counterexample :
  LightningNode.PubKeyBytes (Examples.nodeOf Examples.vS) = Examples.vS ∧
  ChannelEdgePolicy.TimeLockDelta Examples.edgeSA0 = 0 ∧
  processEdge_verdict (H := Examples.externals) Examples.unrestricted
    Examples.vS 100000 Examples.reachedA (Examples.nodeOf Examples.vS)
    Examples.edgeSA0 1000000000 Examples.vA = SkipZeroTimeLock ∧
  processEdge_verdict (H := Examples.externals) Examples.unrestricted
    Examples.vS 100000 Examples.reachedA (Examples.nodeOf Examples.vS)
    Examples.edgeSA 1000000000 Examples.vA =
  Relax {| dist := 0; node := Some (Examples.nodeOf Examples.vS);
           amountToReceive := 100000; fee := 0 |}.
Proof. repeat split; vm_compute; reflexivity. Qed.

Lemma findKPaths_one_witness :
  findKPaths (H := Examples.externals) 0
    (Examples.paramsOf Examples.fiveNodes) Examples.unrestricted
    (Examples.nodeOf Examples.vS) Examples.vT 100000 Examples.threeHops 1 =
  Ret (Ok [Examples.selfS :: Examples.threeHops]).
Proof.
  apply (findKPaths_one (H := Examples.externals) 0
           (Examples.paramsOf Examples.fiveNodes) Examples.unrestricted
           (Examples.nodeOf Examples.vS) Examples.vT 100000 Examples.threeHops).
  unfold HopLimit. simpl. lia.
Defined.

(** C7 as stated fails: from the source S the one path returned for the
    three-hop starting path has four entries, the self edge of S first. *)
Lemma findKPaths_one_counterexample :
  findKPaths (H := Examples.externals) 10
    (Examples.paramsOf Examples.fiveNodes) Examples.unrestricted
    (Examples.nodeOf Examples.vS) Examples.vT 100000 Examples.threeHops 1 =
  Ret (Ok [Examples.selfS :: Examples.threeHops]) ∧
  findKPaths (H := Examples.externals) 10
    (Examples.paramsOf Examples.fiveNodes) Examples.unrestricted
    (Examples.nodeOf Examples.vS) Examples.vT 100000 Examples.threeHops 1 ≠
  Ret (Ok [Examples.threeHops]).
Proof. split; [reflexivity|]. vm_compute. discriminate. Qed.

(** The two paths of the five nodes, as [findKPaths] returns them. *)
Example findKPaths_fiveNodes :
  findKPaths (H := Examples.externals) 10
    (Examples.paramsOf Examples.fiveNodes) Examples.unrestricted
    (Examples.nodeOf Examples.vS) Examples.vT 100000 Examples.threeHops 2 =
  Ret (Ok [Examples.selfS :: Examples.threeHops; hops Examples.deviation]).
Proof. vm_compute. reflexivity. Qed.

Lemma findKPaths_order_witness :
  findKPaths (H := Examples.externals) 10
    (Examples.paramsOf Examples.fiveNodes) Examples.unrestricted
    (Examples.nodeOf Examples.vS) Examples.vT 100000 Examples.threeHops 2 =
  Ret (Ok [Examples.selfS :: Examples.threeHops; hops Examples.deviation]) ∧
  ∃ found,
    kRounds (H := Examples.externals)
      (findPath_stop (H := Examples.externals) 10)
      (Examples.paramsOf Examples.fiveNodes) Examples.unrestricted
      Examples.vT 100000 2 [Examples.selfS :: Examples.threeHops] [] 1
      ((Examples.selfS :: Examples.threeHops) :: found) ∧
    [Examples.selfS :: Examples.threeHops; hops Examples.deviation] =
    filter (fun p => length p ≤ HopLimit + 1)%nat
           ((Examples.selfS :: Examples.threeHops) :: found).
Proof.
  assert (findKPaths (H := Examples.externals) 10
            (Examples.paramsOf Examples.fiveNodes) Examples.unrestricted
            (Examples.nodeOf Examples.vS) Examples.vT 100000
            Examples.threeHops 2 =
          Ret (Ok [Examples.selfS :: Examples.threeHops;
                   hops Examples.deviation])) as Hrun
    by (vm_compute; reflexivity).
  split; [exact Hrun|].
  destruct (findKPaths_order (H := Examples.externals) 10
              (Examples.paramsOf Examples.fiveNodes) Examples.unrestricted
              (Examples.nodeOf Examples.vS) Examples.vT 100000
              Examples.threeHops 2 _ Hrun) as (found & Hrounds & Hpaths & _).
  exists found. split; [exact Hrounds | exact Hpaths].
Defined.

(** C6 as stated fails: on the five nodes the starting path has three hops
    and the path returned after it has two. *)
Lemma findKPaths_order_counterexample :
  ∃ p1 p2,
    findKPaths (H := Examples.externals) 10
      (Examples.paramsOf Examples.fiveNodes) Examples.unrestricted
      (Examples.nodeOf Examples.vS) Examples.vT 100000 Examples.threeHops 2 =
    Ret (Ok [p1; p2]) ∧
    length p1 = 4%nat ∧ length p2 = 3%nat ∧ (length p2 < length p1)%nat.
Proof.
  exists (Examples.selfS :: Examples.threeHops), (hops Examples.deviation).
  split; [vm_compute; reflexivity|]. simpl. lia.
Qed.

(** Candidates with the same number of entries do not come out in the
    order they went in. On the seven nodes the first round pushes the
    deviation from S, the one from A and the one from B, of four entries
    each; [findKPaths] returns the one from S and then the one from B. *)
Example findKPaths_ties :
  spurLoop (H := Examples.externals)
    (findPath_stop (H := Examples.externals) 20)
    (Examples.paramsOf MoreExamples.sevenNodes) Examples.unrestricted
    Examples.vT 100000 [Examples.selfS :: MoreExamples.tieSeed] 1
    (Examples.selfS :: MoreExamples.tieSeed) 3 0 [] =
  Ret (Ok [MoreExamples.tieFromS; MoreExamples.tieFromA;
           MoreExamples.tieFromB]) ∧
  findKPaths (H := Examples.externals) 20
    (Examples.paramsOf MoreExamples.sevenNodes) Examples.unrestricted
    (Examples.nodeOf Examples.vS) Examples.vT 100000 MoreExamples.tieSeed 4 =
  Ret (Ok [Examples.selfS :: MoreExamples.tieSeed;
           hops MoreExamples.tieFromS; hops MoreExamples.tieFromB;
           hops MoreExamples.tieFromA]).
Proof. split; vm_compute; reflexivity. Qed.

(** [findPaths] on the five nodes returns both paths, the shorter first,
    each behind the self edge of the source. *)
Example findPaths_fiveNodes :
  findPaths (H := Examples.externals) 10 false Examples.fiveNodes
    (Examples.nodeOf Examples.vS) Examples.vT 100000 noFeeLimit 2 ∅ [] =
  Ret (Ok [hops Examples.deviation; Examples.selfS :: Examples.threeHops]).
Proof. vm_compute. reflexivity. Qed.

Lemma findPaths_hop_limit_witness :
  Forall (fun p => (length p ≤ 20)%nat)
         [hops Examples.deviation; Examples.selfS :: Examples.threeHops].
Proof.
  apply (findPaths_hop_limit (H := Examples.externals) 10 false
           Examples.fiveNodes (Examples.nodeOf Examples.vS) Examples.vT
           100000 noFeeLimit 2 ∅ []).
  vm_compute. reflexivity.
Defined.

(** * Further properties of route construction *)

Lemma u64_u64 z : u64 (u64 z) = u64 z.
Proof. unfold u64. by rewrite Z.mod_mod. Qed.

Lemma computeFee_range amt e : is_u64 (computeFee amt e).
Proof. apply u64_range. Qed.

Lemma u64_add_sub a c : is_u64 c → u64 (u64 (a + c) - a) = c.
Proof.
  intros Hc. unfold u64. rewrite Zminus_mod_idemp_l.
  replace (a + c - a) with c by lia. by apply Z.mod_small.
Qed.

Lemma feeAfter_range amt nxt : is_u64 (feeAfter amt nxt).
Proof.
  destruct nxt; simpl; [apply computeFee_range|]. unfold is_u64. lia.
Qed.

(** The amount that leaves the walk is the amount of the first hop plus the
    fee of the second edge. *)
Lemma walk_nextIncomingAmount amt h f e rest :
  let st := walk amt h f (e :: rest) in
  ∃ hp, nr_hops st !! 0%nat = Some hp ∧
        nr_nextIncomingAmount st =
        u64 (Hop.AmtToForward hp + feeAfter (Hop.AmtToForward hp) (rest !! 0%nat)).
Proof.
  simpl. unfold walkStep. destruct rest as [|nxt rest']; simpl.
  - eexists. split; [done|]. done.
  - eexists. split; [done|]. done.
Qed.

Lemma walk_amtToForward amt h f edges i hi hj :
  nr_hops (walk amt h f edges) !! i = Some hi →
  nr_hops (walk amt h f edges) !! S i = Some hj →
  Hop.AmtToForward hi =
  u64 (Hop.AmtToForward hj +
       feeAfter (Hop.AmtToForward hj) (edges !! (i + 2)%nat)).
Proof.
  revert i. induction edges as [|e rest IH]; intros i Hi Hj; [done|].
  destruct rest as [|nxt rest'].
  { simpl in Hj. done. }
  change (walk amt h f (e :: nxt :: rest')) with
    (walkStep amt h f e (nxt :: rest') (walk amt h f (nxt :: rest'))) in *.
  unfold walkStep in Hi, Hj. simpl nr_hops in Hi, Hj.
  destruct i as [|i].
  - simpl in Hi, Hj. injection Hi as <-. simpl.
    destruct (walk_nextIncomingAmount amt h f nxt rest') as (hp & Hhp & Ht).
    simpl in Hhp, Ht. rewrite Hj in Hhp. injection Hhp as <-.
    exact Ht.
  - simpl in Hi, Hj. by apply IH.
Qed.

Lemma walk_hops_edges amt h f edges :
  Hop.ChannelID <$> nr_hops (walk amt h f edges) =
    ChannelEdgePolicy.ChannelID <$> edges ∧
  Hop.PubKeyBytes <$> nr_hops (walk amt h f edges) =
    (fun e => LightningNode.PubKeyBytes (ChannelEdgePolicy.Node e)) <$> edges.
Proof.
  induction edges as [|e rest [IH1 IH2]]; [done|].
  change (walk amt h f (e :: rest)) with
    (walkStep amt h f e rest (walk amt h f rest)).
  unfold walkStep.
  destruct rest; simpl nr_hops; rewrite !fmap_cons; split; f_equal; done.
Qed.

Lemma walk_totalTimeLock_sum amt h f e rest :
  nr_totalTimeLock (walk amt h f (e :: rest)) =
  u32 (h + f + sumZ (ChannelEdgePolicy.TimeLockDelta <$> rest)).
Proof.
  revert e. induction rest as [|nxt rest' IH]; intros e.
  - simpl. f_equal. lia.
  - change (nr_totalTimeLock (walk amt h f (e :: nxt :: rest'))) with
      (u32 (nr_totalTimeLock (walk amt h f (nxt :: rest')) +
            ChannelEdgePolicy.TimeLockDelta nxt)).
    rewrite IH. unfold u32. rewrite Zplus_mod_idemp_l. f_equal.
    rewrite fmap_cons. unfold sumZ. simpl. lia.
Qed.

(** What a successful [newRoute] returns, in terms of the walk. *)
Lemma newRoute_Ok_walk amt feeLimit src pathEdges h f r :
  pathEdges ≠ [] →
  newRoute amt feeLimit src pathEdges h f = Ret (Ok r) →
  Route.Hops r = nr_hops (walk amt h f pathEdges) ∧
  Route.TotalTimeLock r = nr_totalTimeLock (walk amt h f pathEdges) ∧
  Route.TotalAmount r = nr_nextIncomingAmount (walk amt h f pathEdges).
Proof.
  intros Hne Hr.
  destruct (newRoute_nonempty amt feeLimit src pathEdges h f Hne)
    as (r' & Hhops & Htl & Hamt & _ & Hnew).
  rewrite Hnew in Hr. destruct (bool_decide _); [done|].
  by injection Hr as ->.
Qed.

(** X1. In a route returned by [newRoute] the last hop forwards the payment
    amount; every other hop forwards what the hop after it forwards plus
    the fee of the policy of the edge two places on ([pathEdges[i+2]]), and
    just the same amount before the last hop; the total amount is what the
    first hop forwards plus the fee of the second edge. All in uint64. *)
Theorem newRoute_amounts amt feeLimit src pathEdges h f r :
  pathEdges ≠ [] →
  newRoute amt feeLimit src pathEdges h f = Ret (Ok r) →
  (∃ lastHop, last (Route.Hops r) = Some lastHop ∧
              Hop.AmtToForward lastHop = amt) ∧
  (∀ i hi hj,
     Route.Hops r !! i = Some hi →
     Route.Hops r !! S i = Some hj →
     Hop.AmtToForward hi =
     u64 (Hop.AmtToForward hj +
          feeAfter (Hop.AmtToForward hj) (pathEdges !! (i + 2)%nat))) ∧
  (∃ h0, Route.Hops r !! 0%nat = Some h0 ∧
         Route.TotalAmount r =
         u64 (Hop.AmtToForward h0 +
              feeAfter (Hop.AmtToForward h0) (pathEdges !! 1%nat))).
Proof.
  intros Hne Hr.
  destruct (newRoute_Ok_walk _ _ _ _ _ _ _ Hne Hr) as (Hhops & _ & Hamt).
  rewrite Hhops, Hamt. split; [|split].
  - destruct (walk_last_hop amt h f pathEdges Hne) as (hp & Hhp & Ha & _).
    exists hp. split; [|done].
    rewrite last_lookup, walk_hops_length.
    by replace (pred (length pathEdges)) with (length pathEdges - 1)%nat by lia.
  - intros i hi hj. apply walk_amtToForward.
  - destruct pathEdges as [|e rest]; [done|].
    apply (walk_nextIncomingAmount amt h f e rest).
Qed.

Lemma newRoute_amounts_witness :
  ∃ r, newRoute 100000 noFeeLimit Examples.vS Examples.twoHops 100 9 = Ret (Ok r) ∧
       (∃ lastHop, last (Route.Hops r) = Some lastHop ∧
                   Hop.AmtToForward lastHop = 100000) ∧
       (∀ i hi hj,
          Route.Hops r !! i = Some hi →
          Route.Hops r !! S i = Some hj →
          Hop.AmtToForward hi =
          u64 (Hop.AmtToForward hj +
               feeAfter (Hop.AmtToForward hj)
                        (Examples.twoHops !! (i + 2)%nat))) ∧
       (∃ h0, Route.Hops r !! 0%nat = Some h0 ∧
              Route.TotalAmount r =
              u64 (Hop.AmtToForward h0 +
                   feeAfter (Hop.AmtToForward h0)
                            (Examples.twoHops !! 1%nat))).
Proof.
  eexists. split; [reflexivity|].
  apply (newRoute_amounts 100000 noFeeLimit Examples.vS Examples.twoHops 100 9).
  - discriminate.
  - reflexivity.
Defined.

(** X4. The total time lock of a route returned by [newRoute] is the
    current height plus the final delta plus the deltas of all the edges
    but the first, in uint32: the policy of the first edge, the sender's
    own, adds no time lock. *)
Theorem newRoute_totalTimeLock amt feeLimit src e rest h f r :
  newRoute amt feeLimit src (e :: rest) h f = Ret (Ok r) →
  Route.TotalTimeLock r =
  u32 (h + f + sumZ (ChannelEdgePolicy.TimeLockDelta <$> rest)).
Proof.
  intros Hr.
  assert (e :: rest ≠ []) as Hne by done.
  destruct (newRoute_Ok_walk _ _ _ _ _ _ _ Hne Hr) as (_ & -> & _).
  apply walk_totalTimeLock_sum.
Qed.

Lemma newRoute_totalTimeLock_witness :
  ∃ r, newRoute 100000 noFeeLimit Examples.vS Examples.twoHops 100 9 = Ret (Ok r) ∧
       Route.TotalTimeLock r = u32 (100 + 9 + sumZ [40]) ∧
       Route.TotalTimeLock r = 149.
Proof.
  eexists. split; [reflexivity|]. split; [|reflexivity].
  apply (newRoute_totalTimeLock 100000 noFeeLimit Examples.vS
           Examples.edgeSA [Examples.edgeAT] 100 9).
  reflexivity.
Defined.

(** X7. The hops of a route returned by [newRoute] are one per edge, in the
    order of the edges: hop [i] names the channel of [pathEdges[i]] and the
    vertex that edge leads to. *)
Theorem newRoute_hops_edges amt feeLimit src pathEdges h f r :
  pathEdges ≠ [] →
  newRoute amt feeLimit src pathEdges h f = Ret (Ok r) →
  Route.SourcePubKey r = src ∧
  Hop.ChannelID <$> Route.Hops r = ChannelEdgePolicy.ChannelID <$> pathEdges ∧
  Hop.PubKeyBytes <$> Route.Hops r =
    (fun e => LightningNode.PubKeyBytes (ChannelEdgePolicy.Node e)) <$> pathEdges.
Proof.
  intros Hne Hr.
  destruct (newRoute_Ok_walk _ _ _ _ _ _ _ Hne Hr) as (Hhops & _ & _).
  split.
  - unfold newRoute in Hr. rewrite newRoute_loop_total in Hr. simpl in Hr.
    destruct (NewRouteFromHops_nonempty
                (nr_nextIncomingAmount (walk amt h f pathEdges))
                (nr_totalTimeLock (walk amt h f pathEdges)) src
                (nr_hops (walk amt h f pathEdges)))
      as (lastHop & r' & _ & Hr' & _ & _ & _ & Hsrc & _).
    { intros Hnil. pose proof (walk_hops_length amt h f pathEdges) as Hl.
      rewrite Hnil in Hl. by destruct pathEdges. }
    rewrite Hr' in Hr. simpl in Hr. destruct (bool_decide _); [done|].
    by injection Hr as <-.
  - rewrite Hhops. apply walk_hops_edges.
Qed.

Lemma newRoute_hops_edges_witness :
  ∃ r, newRoute 100000 noFeeLimit Examples.vS Examples.twoHops 100 9 = Ret (Ok r) ∧
       Route.SourcePubKey r = Examples.vS ∧
       Hop.ChannelID <$> Route.Hops r = [4; 5] ∧
       Hop.PubKeyBytes <$> Route.Hops r = [Examples.vA; Examples.vT].
Proof.
  eexists. split; [reflexivity|].
  apply (newRoute_hops_edges 100000 noFeeLimit Examples.vS Examples.twoHops
           100 9).
  - discriminate.
  - reflexivity.
Defined.

(** X6. [newRoute] returns on every input, and its result is
    [ErrNoRouteHopsProvided] exactly on the empty path, whatever the fee
    limit. *)
Theorem newRoute_returns amt feeLimit src pathEdges h f :
  ∃ res, newRoute amt feeLimit src pathEdges h f = Ret res ∧
         (res = Err ErrNoRouteHopsProvided ↔ pathEdges = []).
Proof.
  destruct pathEdges as [|e rest].
  - exists (Err ErrNoRouteHopsProvided). by split.
  - destruct (newRoute_nonempty amt feeLimit src (e :: rest) h f)
      as (r & _ & _ & _ & _ & ->); [done|].
    eexists. split; [reflexivity|]. by destruct (bool_decide _).
Qed.

(** ** Hop fees *)

Lemma feesFrom_length inc hops : length (feesFrom inc hops) = length hops.
Proof. revert inc. induction hops; intros; simpl; by rewrite ?IHhops. Qed.

Lemma feesFrom_lookup_S inc hops i :
  feesFrom inc hops !! S i =
  match hops !! i, hops !! S i with
  | Some p, Some hp =>
      Some (u64 (Hop.AmtToForward p - Hop.AmtToForward hp))
  | _, _ => None
  end.
Proof.
  revert inc i. induction hops as [|a t IH]; intros inc i; [done|].
  destruct t as [|b t']; [by destruct i|].
  destruct i as [|i]; [done|].
  change (feesFrom inc (a :: b :: t') !! S (S i)) with
    (feesFrom (Hop.AmtToForward a) (b :: t') !! S i).
  by rewrite IH.
Qed.

(** [HopFee] over the indices from 0 on is [feesFrom] from the total
    amount. *)
Lemma HopFee_feesFrom r (i : nat) :
  HopFee r (Z.of_nat i) =
  match feesFrom (Route.TotalAmount r) (Route.Hops r) !! i with
  | Some fee => Ret fee
  | None => Panic
  end.
Proof.
  unfold HopFee, idx_int. destruct i as [|i].
  - rewrite (bool_decide_eq_true_2 (_ = 0)) by lia.
    rewrite (bool_decide_eq_false_2 (_ < 0)) by lia. simpl. unfold idx.
    by destruct (Route.Hops r).
  - rewrite (bool_decide_eq_false_2 (_ = 0)) by lia.
    rewrite !(bool_decide_eq_false_2 (_ < 0)) by lia.
    replace (Z.to_nat (Z.of_nat (S i) - 1)) with i by lia.
    rewrite Nat2Z.id.
    rewrite feesFrom_lookup_S. simpl. unfold idx.
    destruct (Route.Hops r !! i) as [p|] eqn:Hp; simpl.
    + by destruct (Route.Hops r !! S i).
    + done.
Qed.

(** X8. [HopFee] panics exactly on an index that is not one of a hop: a
    negative one, or one that is not below the number of hops. *)
Theorem HopFee_Panic_iff r hopIndex :
  (HopFee r hopIndex = Panic ↔
   hopIndex < 0 ∨ Z.of_nat (length (Route.Hops r)) <= hopIndex) ∧
  (0 <= hopIndex < Z.of_nat (length (Route.Hops r)) →
   ∃ fee, HopFee r hopIndex = Ret fee).
Proof.
  destruct (decide (hopIndex < 0)) as [Hneg|Hpos].
  - assert (HopFee r hopIndex = Panic) as ->.
    { unfold HopFee, idx_int.
      rewrite (bool_decide_eq_false_2 (_ = 0)) by lia.
      by rewrite (bool_decide_eq_true_2 (hopIndex - 1 < 0)) by lia. }
    split; [split; [by left | done] | lia].
  - rewrite <- (Z2Nat.id hopIndex) by lia. rewrite HopFee_feesFrom.
    destruct (feesFrom _ _ !! Z.to_nat hopIndex) as [fee|] eqn:Hf.
    + apply lookup_lt_Some in Hf. rewrite feesFrom_length in Hf.
      split; [split; [done | lia] | eauto].
    + apply lookup_ge_None in Hf. rewrite feesFrom_length in Hf.
      split; [split; [intros _; right; lia | done] | lia].
Qed.

Lemma HopFee_Panic_iff_witness :
  HopFee (Route.Build 0 0 1000 Examples.vS
            [Examples.hop Examples.vA 7] ∅ ∅) (-1) = Panic ∧
  HopFee (Route.Build 0 0 1000 Examples.vS
            [Examples.hop Examples.vA 7] ∅ ∅) 1 = Panic ∧
  ∃ fee, HopFee (Route.Build 0 0 1000 Examples.vS
                   [Examples.hop Examples.vA 7] ∅ ∅) 0 = Ret fee.
Proof.
  split; [|split].
  - apply (HopFee_Panic_iff (Route.Build 0 0 1000 Examples.vS
                               [Examples.hop Examples.vA 7] ∅ ∅) (-1)).
    left. lia.
  - apply (HopFee_Panic_iff (Route.Build 0 0 1000 Examples.vS
                               [Examples.hop Examples.vA 7] ∅ ∅) 1).
    right. simpl. lia.
  - apply (HopFee_Panic_iff (Route.Build 0 0 1000 Examples.vS
                               [Examples.hop Examples.vA 7] ∅ ∅) 0).
    simpl. lia.
Defined.

Lemma feesFrom_sum inc hops lastHop :
  last hops = Some lastHop →
  u64 (sumZ (feesFrom inc hops)) = u64 (inc - Hop.AmtToForward lastHop).
Proof.
  revert inc. induction hops as [|a t IH]; intros inc Hlast; [done|].
  destruct t as [|b t'].
  - injection Hlast as <-. simpl. unfold sumZ. simpl.
    rewrite Z.add_0_r. apply u64_u64.
  - change (last (a :: b :: t')) with (last (b :: t')) in Hlast.
    specialize (IH (Hop.AmtToForward a) Hlast).
    change (sumZ (feesFrom inc (a :: b :: t'))) with
      (u64 (inc - Hop.AmtToForward a) +
       sumZ (feesFrom (Hop.AmtToForward a) (b :: t'))).
    unfold u64 in *. rewrite Zplus_mod, IH, Z.mod_mod by lia.
    rewrite <- Zplus_mod. f_equal. lia.
Qed.

(** X3. In a route built by [NewRouteFromHops] the fees of the hops, as
    [HopFee] returns them, add up to [TotalFees] (in uint64). *)
Theorem HopFee_sum amt tl src hops r :
  NewRouteFromHops amt tl src hops = Ret (Ok r) →
  ∃ fees,
    length fees = length hops ∧
    (∀ (i : nat) fee,
       fees !! i = Some fee → HopFee r (Z.of_nat i) = Ret fee) ∧
    u64 (sumZ fees) = Route.TotalFees r.
Proof.
  intros Hr. destruct hops as [|hp hops']; [done|].
  destruct (NewRouteFromHops_nonempty amt tl src (hp :: hops'))
    as (lastHop & r' & Hlast & Hr' & Hh & _ & Hamt & _ & Hfees); [done|].
  rewrite Hr' in Hr. injection Hr as ->.
  exists (feesFrom amt (hp :: hops')). split; [apply feesFrom_length|]. split.
  - intros i fee Hf. rewrite HopFee_feesFrom, Hamt, Hh. by rewrite Hf.
  - rewrite Hfees. apply feesFrom_sum.
    rewrite last_lookup.
    by replace (pred (length (hp :: hops')))
      with (length (hp :: hops') - 1)%nat by lia.
Qed.

Lemma HopFee_sum_witness :
  ∃ r fees,
    NewRouteFromHops 1000 144 Examples.vS
      (replicate 3 (Examples.hop Examples.vA 7)) = Ret (Ok r) ∧
    length fees = 3%nat ∧
    (∀ (i : nat) fee,
       fees !! i = Some fee → HopFee r (Z.of_nat i) = Ret fee) ∧
    u64 (sumZ fees) = Route.TotalFees r.
Proof.
  eexists.
  destruct (HopFee_sum 1000 144 Examples.vS
              (replicate 3 (Examples.hop Examples.vA 7)) _ eq_refl)
    as (fees & Hl & Hf & Hs).
  exists fees. split; [reflexivity|]. split; [exact Hl|]. split; [exact Hf|].
  exact Hs.
Defined.

(** X2. In a route returned by [newRoute] the fee of hop [i] is what the
    policy of the next edge, [pathEdges[i+1]], charges on the amount the hop
    forwards; the last hop charges nothing. *)
Theorem newRoute_HopFee amt feeLimit src pathEdges h f r i hi :
  pathEdges ≠ [] →
  newRoute amt feeLimit src pathEdges h f = Ret (Ok r) →
  Route.Hops r !! i = Some hi →
  HopFee r (Z.of_nat i) =
  Ret (feeAfter (Hop.AmtToForward hi) (pathEdges !! (i + 1)%nat)).
Proof.
  intros Hne Hr Hi.
  destruct (newRoute_Ok_walk _ _ _ _ _ _ _ Hne Hr) as (Hhops & _ & Hamt).
  assert (∀ j p hp, Route.Hops r !! j = Some p → Route.Hops r !! S j = Some hp →
            Hop.AmtToForward p =
            u64 (Hop.AmtToForward hp +
                 feeAfter (Hop.AmtToForward hp) (pathEdges !! (j + 2)%nat)))
    as Hstep.
  { intros j p hp. rewrite Hhops. apply walk_amtToForward. }
  assert (∃ h0, Route.Hops r !! 0%nat = Some h0 ∧
                Route.TotalAmount r =
                u64 (Hop.AmtToForward h0 +
                     feeAfter (Hop.AmtToForward h0) (pathEdges !! 1%nat)))
    as (h0 & Hh0 & Htot).
  { rewrite Hhops, Hamt. destruct pathEdges as [|e rest]; [done|].
    apply (walk_nextIncomingAmount amt h f e rest). }
  rewrite HopFee_feesFrom. destruct i as [|j].
  - rewrite Hh0 in Hi. injection Hi as ->.
    destruct (Route.Hops r) as [|a t]; [done|]. injection Hh0 as ->. simpl.
    rewrite Htot. f_equal. apply u64_add_sub, feeAfter_range.
  - rewrite feesFrom_lookup_S, Hi.
    destruct (Route.Hops r !! j) as [p|] eqn:Hp.
    + rewrite (Hstep j p hi Hp Hi). f_equal.
      replace (S j + 1)%nat with (j + 2)%nat by lia.
      apply u64_add_sub, feeAfter_range.
    + apply lookup_ge_None in Hp. apply lookup_lt_Some in Hi. lia.
Qed.

Lemma newRoute_HopFee_witness :
  ∃ r h0,
    newRoute 100000 noFeeLimit Examples.vS Examples.twoHops 100 9 = Ret (Ok r) ∧
    Route.Hops r !! 0%nat = Some h0 ∧
    HopFee r 0 = Ret (feeAfter (Hop.AmtToForward h0) (Examples.twoHops !! 1%nat)) ∧
    HopFee r 0 = Ret 1100 ∧ HopFee r 1 = Ret 0.
Proof.
  eexists _, _. split; [reflexivity|]. split; [reflexivity|].
  split; [|split; reflexivity].
  apply (newRoute_HopFee 100000 noFeeLimit Examples.vS Examples.twoHops 100 9
           _ 0%nat).
  - discriminate.
  - reflexivity.
  - reflexivity.
Defined.

(** ** The indices of a route *)

Lemma elem_of_foldl_union `{Countable K} {A} (g : A → K) (l : list A)
    (s : gset K) (k : K) :
  k ∈ foldl (fun s x => {[ g x ]} ∪ s) s l ↔ k ∈ s ∨ ∃ x, x ∈ l ∧ g x = k.
Proof.
  revert s. induction l as [|a l IH]; intros s; simpl.
  - split; [by left|]. intros [?|(x & Hx & _)]; [done|].
    by apply elem_of_nil in Hx.
  - rewrite IH. rewrite elem_of_union, elem_of_singleton. split.
    + intros [[->|?]|(x & Hx & Hg)].
      * right. exists a. split; [by left|done].
      * by left.
      * right. exists x. split; [by right|done].
    + intros [?|(x & [->|Hx]%elem_of_cons & Hg)].
      * left. by right.
      * left. by left.
      * right. by exists x.
Qed.

(** X5. A route built by [NewRouteFromHops] contains a vertex exactly when
    one of its hops leads to it, and a channel exactly when one of its hops
    runs over it. *)
Theorem NewRouteFromHops_contains amt tl src hops r :
  NewRouteFromHops amt tl src hops = Ret (Ok r) →
  (∀ v, containsNode r v = true ↔ ∃ hp, hp ∈ hops ∧ Hop.PubKeyBytes hp = v) ∧
  (∀ c, containsChannel r c = true ↔ ∃ hp, hp ∈ hops ∧ Hop.ChannelID hp = c).
Proof.
  unfold NewRouteFromHops. case_bool_decide; [done|].
  destruct (idx hops _) as [lastHop| |]; simpl; [|done..].
  intros [= <-]. unfold containsNode, containsChannel. simpl.
  split; intros x; rewrite bool_decide_eq_true, elem_of_foldl_union;
    split; (intros [Hx|?]; [by apply elem_of_empty in Hx|done]) || by right.
Qed.

Lemma NewRouteFromHops_contains_witness :
  ∃ r, NewRouteFromHops 1000 144 Examples.vS
         [Examples.hop Examples.vA 7; Examples.hop Examples.vT 8] = Ret (Ok r) ∧
       containsNode r Examples.vT = true ∧ containsNode r Examples.vS = false ∧
       containsChannel r 7 = true ∧ containsChannel r 9 = false.
Proof.
  eexists. split; [reflexivity|].
  destruct (NewRouteFromHops_contains 1000 144 Examples.vS
              [Examples.hop Examples.vA 7; Examples.hop Examples.vT 8] _ eq_refl)
    as [Hn Hc].
  split; [|split; [|split]].
  - apply Hn. eexists. split; [right; left|]; reflexivity.
  - reflexivity.
  - apply Hc. eexists. split; [left|]; reflexivity.
  - reflexivity.
Defined.

(** ** Path fees *)

Lemma walk_nextIncomingAmount_range amt h f e rest :
  is_u64 (nr_nextIncomingAmount (walk amt h f (e :: rest))).
Proof.
  simpl. unfold walkStep. destruct rest; simpl; apply u64_range.
Qed.

(** X9. The fee of a path, as [computePathFee] has it: the empty path gives
    [0 - amt] in uint64; a single edge costs nothing; and a longer path
    costs the fee of the path without its first edge plus what the policy
    of the second edge charges on the amount that enters it. The policy of
    the first edge is never charged. *)
Theorem computePathFee_cons amt e0 e1 rest :
  computePathFee amt [] = Ret (u64 (0 - amt)) ∧
  computePathFee amt [e0] = Ret 0 ∧
  ∃ fee,
    computePathFee amt (e1 :: rest) = Ret fee ∧
    computePathFee amt (e0 :: e1 :: rest) =
    Ret (u64 (fee + computeFee (u64 (amt + fee)) e1)).
Proof.
  split; [reflexivity|]. split.
  - rewrite (computePathFee_walk amt [e0] 0 0). simpl. f_equal.
    unfold u64. rewrite Zminus_mod_idemp_l. replace (amt + 0 - amt) with 0 by lia.
    done.
  - eexists. split; [apply (computePathFee_walk amt (e1 :: rest) 0 0)|].
    rewrite (computePathFee_walk amt (e0 :: e1 :: rest) 0 0).
    pose proof (walk_nextIncomingAmount_range amt 0 0 e1 rest) as Hn.
    set (n1 := nr_nextIncomingAmount (walk amt 0 0 (e1 :: rest))) in *.
    change (nr_nextIncomingAmount (walk amt 0 0 (e0 :: e1 :: rest))) with
      (u64 (n1 + computeFee n1 e1)).
    assert (u64 (amt + u64 (n1 - amt)) = n1) as ->.
    { unfold u64. rewrite Zplus_mod_idemp_r.
      replace (amt + (n1 - amt)) with n1 by lia. by apply Z.mod_small. }
    f_equal. unfold u64. rewrite Zminus_mod_idemp_l, Zplus_mod_idemp_l.
    f_equal. lia.
Qed.

(** ** The weight of an edge *)

(** X10. An edge that charges nothing and adds no delta weighs nothing,
    whatever the amount; and where the product does not overflow (amounts up
    to 2^43 msat) the weight is at least the fee and grows with the
    delta. *)
Theorem edgeWeight_bounds lockedAmt fee d d' :
  edgeWeight lockedAmt 0 0 = 0 ∧
  (0 <= lockedAmt <= 2 ^ 43 → 0 <= fee → 0 <= d <= d' → is_u16 d' →
   fee + lockedAmt * d' * 15 / 1000000000 < 2 ^ 63 →
   fee <= edgeWeight lockedAmt fee d <= edgeWeight lockedAmt fee d').
Proof.
  split.
  - unfold edgeWeight. rewrite Z.mul_0_r. reflexivity.
  - intros Ha Hf Hd Hd' Hsum. unfold is_u16 in Hd'.
    assert (lockedAmt * d <= lockedAmt * d') by nia.
    assert (lockedAmt * d' <= 2 ^ 43 * (2 ^ 16 - 1)) by nia.
    assert (lockedAmt * d * 15 / 1000000000 <=
            lockedAmt * d' * 15 / 1000000000)
      by (apply Z.div_le_mono; lia).
    assert (0 <= lockedAmt * d * 15 / 1000000000)
      by (apply Z.div_pos; nia).
    rewrite !edgeWeight_no_overflow by lia. lia.
Qed.

Lemma edgeWeight_bounds_witness :
  1000 <= edgeWeight (2 ^ 42) 1000 40 <= edgeWeight (2 ^ 42) 1000 144.
Proof.
  apply (edgeWeight_bounds (2 ^ 42) 1000 40 144).
  - lia.
  - lia.
  - lia.
  - unfold is_u16. lia.
  - reflexivity.
Defined.

(** ** Equal paths *)

(** X11. [isSamePath] holds exactly when the two paths run over the same
    channels in the same order: nothing else of the policies is compared,
    not even the direction. *)
Theorem isSamePath_channels path1 path2 :
  isSamePath path1 path2 = true ↔
  ChannelEdgePolicy.ChannelID <$> path1 = ChannelEdgePolicy.ChannelID <$> path2.
Proof.
  revert path2. induction path1 as [|e1 p1 IH]; intros [|e2 p2]; simpl;
    try done.
  case_bool_decide as Hc.
  - split; [done|]. intros [= ? ?]. done.
  - rewrite IH, Hc. split.
    + intros Heq. f_equal. exact Heq.
    + intros Heq. by injection Heq.
Qed.

Lemma isSamePath_channels_witness :
  isSamePath [Examples.edgeAT] [Examples.edgeAT'] = true.
Proof.
  apply (isSamePath_channels [Examples.edgeAT] [Examples.edgeAT']).
  reflexivity.
Defined.

(** * Further properties of the searches *)

Section MoreSearchProperties.
Context `{Externals}.

Ltac exec_step H :=
  match type of H with
  | mbind _ ?m = Ret _ =>
      let E := fresh "E" in
      destruct m eqn:E; simpl in H; [|discriminate H..]
  end.

(** What holds of an edge that [processEdge] records. *)
Lemma processEdge_verdict_Relax r originV amt distance fromNode edge
    bandwidth toNode d :
  processEdge_verdict r originV amt distance fromNode edge bandwidth toNode =
    Relax d →
  let fromVertex := LightningNode.PubKeyBytes fromNode in
  let amountToSend := amountToReceive (distance_at distance toNode) in
  let origin := bool_decide (fromVertex = originV) in
  recordable r originV fromVertex edge ∧
  amountToSend <= bandwidth ∧
  ChannelEdgePolicy.MinHTLC edge <= amountToSend ∧
  fee d = (if origin then 0 else computeFee amountToSend edge) ∧
  amountToReceive d = u64 (amountToSend + fee d) ∧
  u64 (amountToReceive d - amt) <= feeLimit r ∧
  dist d = i64 (dist (distance_at distance toNode) +
                edgeWeight (amountToReceive d) (fee d)
                  (if origin then 0
                   else ChannelEdgePolicy.TimeLockDelta edge)) ∧
  dist d < dist (distance_at distance fromVertex) ∧
  node d = Some fromNode.
Proof.
  unfold processEdge_verdict, recordable.
  destruct (bool_decide (LightningNode.PubKeyBytes fromNode = originV)) eqn:Ho;
    [apply bool_decide_eq_true_1 in Ho | apply bool_decide_eq_false_1 in Ho].
  - rewrite (bool_decide_eq_false_2 (_ ≠ originV)) by (by intros ?).
    simpl negb. simpl andb.
    destruct (outgoingChannelID r) as [c|] eqn:Hc.
    + repeat case_bool_decide; try done. intros [= <-]. simpl.
      repeat split; try done; try lia.
      intros _ c' [= <-]. done.
    + repeat case_bool_decide; try done. intros [= <-]. simpl.
      repeat split; try done; lia.
  - rewrite (bool_decide_eq_true_2 (_ ≠ originV)) by done.
    simpl negb. rewrite andb_true_l, andb_false_l.
    repeat case_bool_decide; try done. intros [= <-]. simpl.
    repeat split; try done; try lia.
Qed.

(** X12. [processEdge] either leaves the search state as it is or records
    the edge for its tail: then the edge passes the guards, the channel can
    carry the amount, the fees so far are within the limit, the entry of
    the tail gets a strictly smaller distance and goes on the heap, and no
    other entry of the maps changes. *)
Theorem processEdge_effect r originV amt fromNode edge bandwidth toNode st :
  let st' := processEdge r originV amt fromNode edge bandwidth toNode st in
  let fromVertex := LightningNode.PubKeyBytes fromNode in
  let amountToSend := amountToReceive (distance_at (distance st) toNode) in
  st' = st ∨
  (recordable r originV fromVertex edge ∧
   amountToSend <= bandwidth ∧
   ChannelEdgePolicy.MinHTLC edge <= amountToSend ∧
   next st' = <[fromVertex := edge]> (next st) ∧
   ∃ d, distance st' = <[fromVertex := d]> (distance st) ∧
        nodeHeap st' = heap_push dist (nodeHeap st) d ∧
        nodeHeap st' ≡ₚ nodeHeap st ++ [d] ∧
        node d = Some fromNode ∧
        dist d < dist (distance_at (distance st) fromVertex) ∧
        u64 (amountToReceive d - amt) <= feeLimit r).
Proof.
  simpl. unfold processEdge.
  destruct (processEdge_verdict _ _ _ _ _ _ _ _) as [| | | | | | | | |d] eqn:Hv;
    try (by left).
  right.
  destruct (processEdge_verdict_Relax _ _ _ _ _ _ _ _ _ Hv)
    as (Hrec & Hbw & Hmin & _ & _ & Hlim & _ & Hlt & Hnode).
  split; [done|]. split; [done|]. split; [done|]. split; [done|].
  exists d. split; [done|]. split; [done|].
  split; [simpl; by rewrite heap_push_Permutation, Permutation_app_comm|].
  split; [done|]. split; done.
Qed.

(** X13. An edge out of the origin is recorded without fee and without
    weight: the entry of the origin takes over the amount and the distance
    of the head of the edge. *)
Theorem processEdge_origin_free r originV amt distance fromNode edge
    bandwidth toNode d :
  LightningNode.PubKeyBytes fromNode = originV →
  processEdge_verdict r originV amt distance fromNode edge bandwidth toNode =
    Relax d →
  fee d = 0 ∧
  amountToReceive d = u64 (amountToReceive (distance_at distance toNode)) ∧
  dist d = i64 (dist (distance_at distance toNode)).
Proof.
  intros Ho Hv.
  destruct (processEdge_verdict_Relax _ _ _ _ _ _ _ _ _ Hv)
    as (_ & _ & _ & Hfee & Hamt & _ & Hdist & _).
  simpl in Hfee, Hamt, Hdist.
  rewrite bool_decide_eq_true_2 in Hfee, Hdist by done.
  rewrite Hfee in Hamt, Hdist. split; [done|]. split.
  - by rewrite Hamt, Z.add_0_r.
  - rewrite Hdist. f_equal.
    assert (edgeWeight (amountToReceive d) 0 0 = 0) as ->; [|lia].
    unfold edgeWeight. rewrite Z.mul_0_r. reflexivity.
Qed.

(** ** The path that the search returns *)

Lemma processEdge_nextRecordable r originV amt fromNode edge bandwidth
    toNode st :
  nextRecordable r originV (next st) →
  nextRecordable r originV
    (next (processEdge r originV amt fromNode edge bandwidth toNode st)).
Proof.
  intros Hinv. unfold processEdge.
  destruct (processEdge_verdict _ _ _ _ _ _ _ _) as [| | | | | | | | |d] eqn:Hv;
    try done.
  destruct (processEdge_verdict_Relax _ _ _ _ _ _ _ _ _ Hv) as (Hrec & _).
  simpl. intros v e. rewrite lookup_insert. case_decide as Hve.
  - intros [= <-]. by rewrite <- Hve.
  - apply Hinv.
Qed.

Lemma visitChannels_nextRecordable g r originV amt pivot cs st st' :
  visitChannels g r originV amt pivot cs st = Ok st' →
  nextRecordable r originV (next st) →
  nextRecordable r originV (next st').
Proof.
  revert st. induction cs as [|c cs IH]; intros st Hrun Hinv; simpl in Hrun.
  { by injection Hrun as <-. }
  destruct (visitChannel g r originV amt pivot st c) as [st1|e] eqn:Hc;
    [|done].
  apply (IH st1 Hrun). unfold visitChannel in Hc.
  destruct c as [[edgeInfo ?] [inEdge|]]; [|by injection Hc as <-].
  destruct (FetchOtherNode _ _ _); [|done]. injection Hc as <-.
  by apply processEdge_nextRecordable.
Qed.

Lemma foldl_processEdge_nextRecordable r originV amt bandWidth pivot
    (l : list edgePolicyWithSource) st :
  nextRecordable r originV (next st) →
  nextRecordable r originV
    (next (foldl (fun s reverseEdge =>
                    processEdge r originV amt (sourceNode reverseEdge)
                      (edge reverseEdge) bandWidth pivot s) st l)).
Proof.
  revert st. induction l as [|a l IH]; intros st Hinv; [done|].
  simpl. apply IH. by apply processEdge_nextRecordable.
Qed.

Lemma searchLoop_nextRecordable fuel g r sourceVertex originV amt addl st st' :
  searchLoop fuel g r sourceVertex originV amt addl st = Ret (Ok st') →
  nextRecordable r originV (next st) →
  nextRecordable r originV (next st').
Proof.
  revert st. induction fuel as [|fuel IH]; intros st Hrun Hinv; simpl in Hrun.
  - destruct (heap_pop dist (nodeHeap st)) as [[pp hp]|]; [done|].
    by injection Hrun as <-.
  - destruct (heap_pop dist (nodeHeap st)) as [[pp hp]|];
      [|by injection Hrun as <-].
    destruct (node pp) as [bestNode|]; [|done].
    case_bool_decide; [by injection Hrun as <-|].
    destruct (ForEachChannel _ _) as [cs|e]; [|done].
    destruct (visitChannels _ _ _ _ _ _ _) as [st1|e] eqn:Hvc; [|done].
    apply (IH _ Hrun). apply foldl_processEdge_nextRecordable.
    by apply (visitChannels_nextRecordable _ _ _ _ _ _ _ _ Hvc).
Qed.

(** The path unravelled from a next-hop map leaves the current node, ends
    at the target, and is made of entries of the map. *)
Lemma unravel_path fuel (P : Vertex → ChannelEdgePolicy.t → Prop) next
    targetVertex currentNode pathEdges p :
  (∀ v e, next !! v = Some e → P v e) →
  unravel fuel next targetVertex currentNode pathEdges = Ret p →
  ∃ suffix, p = pathEdges ++ suffix ∧
            pathFrom P currentNode suffix ∧
            pathEnd currentNode suffix = targetVertex.
Proof.
  intros HP. revert currentNode pathEdges.
  induction fuel as [|fuel IH]; intros cur acc Hrun; simpl in Hrun.
  - case_bool_decide as Hc; [done|]. injection Hrun as <-.
    exists []. rewrite app_nil_r. done.
  - case_bool_decide as Hc.
    + destruct (next !! cur) as [nextNode|] eqn:Hn; [|done].
      destruct (IH _ _ Hrun) as (suffix & -> & Hfrom & Hend).
      exists (nextNode :: suffix). rewrite <- app_assoc.
      split; [done|]. split; [|done]. split; [|done]. by apply HP.
    + injection Hrun as <-. exists []. rewrite app_nil_r. done.
Qed.

(** What [findPath] returns without asking [findKPaths]: the result of the
    search itself. *)
Lemma findPath_gen_search kp fuel g r sourceNode target amt p err :
  findPath_gen kp fuel g r sourceNode target amt = Ret (p, err) →
  stopAtMaxHopsExceeded r = true ∨ (p ≠ [] ∧ err ≠ None) →
  let src := LightningNode.PubKeyBytes sourceNode in
  pathFrom (recordable r (default src (originVertex g))) src p ∧
  (p ≠ [] ∨ err = None → pathEnd src p = target) ∧
  (err = None → (length p ≤ HopLimit)%nat) ∧
  (p ≠ [] → err ≠ None →
   err = Some ErrMaxHopsExceeded ∧ stopAtMaxHopsExceeded r = true ∧
   (HopLimit < length p)%nat).
Proof.
  intros Hrun Hcase. unfold findPath_gen in Hrun.
  destruct (if tx g then None else Begin (graph g)).
  { injection Hrun as <- <-. simpl. repeat split; try done. by intros [?|?]. }
  destruct (ForEachNode (graph g)) as [nodes|e].
  2: { injection Hrun as <- <-. simpl. repeat split; try done. by intros [?|?]. }
  destruct (foldl addAdditionalEdges _ _) as [distance0 addl].
  exec_step Hrun. destruct a as [st|e].
  2: { injection Hrun as <- <-. simpl. repeat split; try done. by intros [?|?]. }
  destruct (next st !! _) as [first|] eqn:Hfirst.
  2: { injection Hrun as <- <-. simpl. repeat split; try done. by intros [?|?]. }
  exec_step Hrun.
  assert (nextRecordable r
            (default (LightningNode.PubKeyBytes sourceNode) (originVertex g))
            (next st)) as Hinv.
  { eapply searchLoop_nextRecordable; [exact E|]. simpl.
    intros v e. by rewrite lookup_empty. }
  destruct (unravel_path _ _ _ _ _ _ _ Hinv E0) as (suffix & -> & Hfrom & Hend).
  simpl in *. case_bool_decide as Hlen.
  - destruct (stopAtMaxHopsExceeded r) eqn:Hstop.
    + injection Hrun as <- <-. repeat split; try done.
    + exec_step Hrun. destruct Hcase as [?|[Hp He]]; [done|].
      destruct a as [[|[|? p0] ?]|e]; try done;
        injection Hrun as <- <-; done.
  - injection Hrun as <- <-. repeat split; try done. lia.
Qed.

(** X15. When asked to stop at an over-long path, [findPath] returns a path
    that leaves the source and ends at the target, each edge the next-hop
    entry of the vertex it leaves: no edge has a zero delta, an ignored
    locator or an ignored tail, none is disabled unless it leaves the
    origin, and an edge out of the origin is the outgoing channel when one
    is imposed. Without error the path has at most 20 edges; a path that
    comes with an error has more, and the error is [ErrMaxHopsExceeded]. *)
Theorem findPath_stop_path fuel g r sourceNode target amt p err :
  stopAtMaxHopsExceeded r = true →
  findPath fuel g r sourceNode target amt = Ret (p, err) →
  let src := LightningNode.PubKeyBytes sourceNode in
  pathFrom (recordable r (default src (originVertex g))) src p ∧
  (p ≠ [] ∨ err = None → pathEnd src p = target) ∧
  (err = None → (length p ≤ HopLimit)%nat) ∧
  (p ≠ [] → err ≠ None →
   err = Some ErrMaxHopsExceeded ∧ (HopLimit < length p)%nat).
Proof.
  intros Hstop Hrun.
  destruct (findPath_gen_search _ _ _ _ _ _ _ _ _ Hrun (or_introl Hstop))
    as (Hfrom & Hend & Hlen & Herr).
  split; [done|]. split; [done|]. split; [done|].
  intros Hp He. by destruct (Herr Hp He) as (? & ? & ?).
Qed.

Lemma searchLoop_source fuel g r sourceVertex originV amt addl d nx x n :
  node x = Some n →
  LightningNode.PubKeyBytes n = sourceVertex →
  searchLoop (S fuel) g r sourceVertex originV amt addl
    {| distance := d; next := nx; nodeHeap := [x] |} =
  Ret (Ok {| distance := d; next := nx; nodeHeap := [] |}).
Proof.
  intros Hn Hs. simpl. rewrite Hn.
  by rewrite bool_decide_eq_true_2 by done.
Qed.

(** X14. From a vertex to itself [findPath] finds nothing: when the store
    answers, the search stops at once and the result is [ErrNoPathFound],
    on any graph. *)
Theorem findPath_to_self fuel g r sourceNode amt nodes :
  (if tx g then None else Begin (graph g)) = None →
  ForEachNode (graph g) = Ok nodes →
  findPath (S fuel) g r sourceNode (LightningNode.PubKeyBytes sourceNode) amt =
  Ret ([], Some ErrNoPathFound).
Proof.
  intros Hb Hn. unfold findPath, findPath_gen. rewrite Hb, Hn.
  destruct (foldl addAdditionalEdges _ _) as [distance0 addl].
  rewrite heap_push_nil.
  erewrite searchLoop_source by done.
  simpl. by rewrite lookup_empty.
Qed.

(** ** The paths of [findKPaths] *)

(** What the deviation loop pushes is a prefix of the previous path
    followed by a spur path. *)
Lemma spurLoop_pushed fp g r target amt shortest valid prevShortest n i
    candidatePaths candidatePaths' q :
  spurLoop fp g r target amt shortest valid prevShortest n i candidatePaths =
    Ret (Ok candidatePaths') →
  q ∈ candidatePaths' →
  q ∈ candidatePaths ∨
  ∃ j spurPath, hops q = take (j + 1) prevShortest ++ spurPath.
Proof.
  revert i candidatePaths.
  induction n as [|n IH]; intros i cands Hrun Hq; simpl in Hrun.
  { injection Hrun as <-. by left. }
  exec_step Hrun. exec_step Hrun. destruct a0 as [spurPath err].
  assert (∀ cs,
    (∀ q', q' ∈ cs → q' ∈ cands ∨
       ∃ j sp, hops q' = take (j + 1) prevShortest ++ sp) →
    (if bool_decide (HopLimit + 1 < length (take (i + 1) prevShortest) +
                                     length spurPath)%nat &&
        bool_decide (0 < valid)
     then mret (Ok cands)
     else spurLoop fp g r target amt shortest valid prevShortest n (S i) cs) =
      Ret (Ok candidatePaths') →
    q ∈ cands ∨ ∃ j sp, hops q = take (j + 1) prevShortest ++ sp) as Hpush.
  { intros cs Hcs Hif. destruct (_ && _).
    - injection Hif as <-. by left.
    - destruct (IH _ _ Hif Hq) as [Hin|?]; [by apply Hcs | by right]. }
  assert (∀ q', q' ∈ heap_push path_dist cands
                  {| hops := take (i + 1) prevShortest ++ spurPath;
                     path_dist := Z.of_nat (length (take (i + 1) prevShortest) +
                                            length spurPath) |} →
                q' ∈ cands ∨
                ∃ j sp, hops q' = take (j + 1) prevShortest ++ sp) as Hnew.
  { intros q' [->|?]%elem_of_heap_push; [|by left].
    right. by exists i, spurPath. }
  destruct err as [[]|]; try done; try (by eapply IH); by eapply Hpush.
Qed.

(** The invariants of the loop of [findKPaths]: every path and every
    candidate starts with the edge [e0], and, as long as [numPaths] is a
    uint32, the counter of valid paths is the number of paths of at most
    [HopLimit + 1] entries and does not pass [numPaths]. *)
Lemma kPathsLoop_invariant fuel fp g r target amt numPaths k st st' e0 :
  kPathsLoop fuel fp g r target amt numPaths k st = Ret (Ok st') →
  Forall (fun p => ∃ tl, p = e0 :: tl) (shortestPaths st) →
  Forall (fun q => ∃ tl, hops q = e0 :: tl) (candidatePaths st) →
  Forall (fun p => ∃ tl, p = e0 :: tl) (shortestPaths st') ∧
  (numPaths < 2 ^ 32 →
   validPathsNum st =
     Z.of_nat (length (filter (fun p => length p ≤ HopLimit + 1)%nat
                              (shortestPaths st))) →
   validPathsNum st <= numPaths →
   validPathsNum st' =
     Z.of_nat (length (filter (fun p => length p ≤ HopLimit + 1)%nat
                              (shortestPaths st'))) ∧
   validPathsNum st' <= numPaths).
Proof.
  revert k st. induction fuel as [|fuel IH]; intros k st Hrun Hs Hc;
    simpl in Hrun.
  { case_bool_decide; [done|]. injection Hrun as <-. done. }
  case_bool_decide as Hlt; [|injection Hrun as <-; done].
  exec_step Hrun. exec_step Hrun. destruct a0 as [cands|e]; [|done].
  assert (Forall (fun q => ∃ tl, hops q = e0 :: tl) cands) as Hc'.
  { apply Forall_forall. intros q Hq.
    destruct (spurLoop_pushed _ _ _ _ _ _ _ _ _ _ _ _ _ E0 Hq)
      as [Hin|(j & sp & ->)].
    - by eapply Forall_forall in Hc.
    - unfold idx in E. destruct (shortestPaths st !! _) as [prev|] eqn:Hprev;
        [|done]. injection E as <-.
      destruct (Forall_lookup_1 _ _ _ _ Hs Hprev) as [tl ->].
      replace (j + 1)%nat with (S j) by lia. simpl. by eexists. }
  destruct (heap_pop path_dist cands) as [[p cands']|] eqn:Hp.
  - destruct (heap_pop_Forall _ _ _ _ _ Hp Hc') as [Hph Hc''].
    destruct (IH _ _ Hrun) as [Hs' Hcount]; simpl.
    { apply Forall_app. split; [done|]. by constructor. }
    { done. }
    split; [done|]. intros Hn Hv Hle. apply Hcount; [done| |].
    + simpl. rewrite filter_app, length_app.
      case_bool_decide as Hlen.
      * rewrite filter_cons_True, filter_nil by done. simpl.
        rewrite u32_small by (unfold is_u32; lia). lia.
      * rewrite filter_cons_False, filter_nil by done. simpl. lia.
    + simpl. case_bool_decide.
      * rewrite u32_small by (unfold is_u32; lia). lia.
      * lia.
  - injection Hrun as <-. simpl. done.
Qed.

Lemma popFirstEdges_spec paths stripped :
  popFirstEdges paths = Ret stripped →
  Forall2 (fun p s => ∃ e, p = e :: s) paths stripped.
Proof.
  revert stripped. induction paths as [|p paths IH]; intros stripped Hrun;
    simpl in Hrun.
  { injection Hrun as <-. constructor. }
  destruct p as [|e p]; [done|]. exec_step Hrun. injection Hrun as <-.
  constructor; [by eexists | by apply IH].
Qed.

(** The bounds on what [findKPaths] returns, for any search it calls. *)
Lemma findKPaths_gen_bounds fp fuel g r source target amt startingPath
    numPaths paths :
  findKPaths_gen fp fuel g r source target amt startingPath numPaths =
    Ret (Ok paths) →
  Forall (fun p => length p ≤ HopLimit + 1)%nat paths ∧
  (1 <= numPaths < 2 ^ 32 → (length paths ≤ Z.to_nat numPaths)%nat) ∧
  (originVertex g = None ∨
   originVertex g = Some (LightningNode.PubKeyBytes source) →
   Forall (fun p => ∃ tl, p = selfEdge source :: tl) paths) ∧
  (∀ o, originVertex g = Some o → LightningNode.PubKeyBytes source ≠ o →
        Forall (fun p => length p ≤ HopLimit)%nat paths).
Proof.
  intros Hrun. unfold findKPaths_gen in Hrun.
  exec_step Hrun. destruct a as [st|e]; [|done].
  destruct (kPathsLoop_invariant _ _ _ _ _ _ _ _ _ _ (selfEdge source) E)
    as [Hheads Hcount]; simpl.
  { constructor; [by eexists | constructor]. }
  { constructor. }
  set (kept := filter (fun p => length p ≤ HopLimit + 1)%nat
                      (shortestPaths st)) in *.
  assert (Forall (fun p => length p ≤ HopLimit + 1)%nat kept) as Hlen.
  { apply Forall_forall. intros p Hp. by apply list_elem_of_filter in Hp as [? _]. }
  assert (Forall (fun p => ∃ tl, p = selfEdge source :: tl) kept) as Hk.
  { apply Forall_forall. intros p Hp. apply list_elem_of_filter in Hp as [_ Hp].
    by eapply Forall_forall in Hheads. }
  assert (1 <= numPaths < 2 ^ 32 → (length kept ≤ Z.to_nat numPaths)%nat)
    as Hnum.
  { intros [Hn1 Hn2]. simpl in Hcount.
    destruct (Hcount Hn2) as [Hv Hle].
    - case_bool_decide as Hb.
      + by rewrite filter_cons_True, filter_nil by done.
      + by rewrite filter_cons_False, filter_nil by done.
    - case_bool_decide; lia.
    - fold kept in Hv. lia. }
  change (filter (fun p => length p ≤ 21)%nat (shortestPaths st))
    with kept in Hrun.
  destruct (originVertex g) as [o|] eqn:Ho.
  - destruct (bool_decide (LightningNode.PubKeyBytes source ≠ o)) eqn:Hso;
      [apply bool_decide_eq_true_1 in Hso|apply bool_decide_eq_false_1 in Hso].
    + exec_step Hrun. injection Hrun as <-.
      pose proof (popFirstEdges_spec _ _ E0) as Hf2.
      assert (Forall (fun p => length p ≤ HopLimit)%nat a) as Hshort.
      { apply Forall_forall. intros s Hs.
        destruct (proj1 (list_elem_of_lookup _ _) Hs) as [i Hi].
        destruct (Forall2_lookup_r _ _ _ _ _ Hf2 Hi) as (p & Hpi & e & ->).
        pose proof (Forall_lookup_1 _ _ _ _ Hlen Hpi) as Hl.
        simpl in Hl. unfold HopLimit in *. lia. }
      split; [|split; [|split]].
      * eapply Forall_impl; [exact Hshort|]. simpl. unfold HopLimit.
        intros; lia.
      * intros Hn. rewrite <- (Forall2_length _ _ _ Hf2). by apply Hnum.
      * intros [?|[= Heq]]; [done|]. by destruct Hso.
      * intros o' [= <-] _. done.
    + injection Hrun as <-. split; [done|]. split; [done|]. split; [done|].
      intros o' [= <-] Hne. done.
  - injection Hrun as <-. split; [done|]. split; [done|]. split; [done|].
    intros o' [=].
Qed.

(** X17. Every path that [findKPaths] returns has at most [HopLimit + 1]
    entries, and at most [HopLimit] when the self edge has been taken off
    (the source is not the origin); for [numPaths] from 1 on it returns at
    most [numPaths] paths. *)
Theorem findKPaths_bounds fuel g r source target amt startingPath numPaths
    paths :
  findKPaths fuel g r source target amt startingPath numPaths =
    Ret (Ok paths) →
  Forall (fun p => length p ≤ 21)%nat paths ∧
  (1 <= numPaths < 2 ^ 32 → (length paths ≤ Z.to_nat numPaths)%nat) ∧
  (∀ o, originVertex g = Some o → LightningNode.PubKeyBytes source ≠ o →
        Forall (fun p => length p ≤ 20)%nat paths).
Proof.
  intros Hrun.
  destruct (findKPaths_gen_bounds _ _ _ _ _ _ _ _ _ _ Hrun)
    as (Hlen & Hnum & _ & Hstrip).
  split; [done|]. split; [done|]. exact Hstrip.
Qed.

(** X18. Unless the source is not the origin, every path that [findKPaths]
    returns starts with the self edge of the source: the callers take it
    off. *)
Theorem findKPaths_self_edge fuel g r source target amt startingPath numPaths
    paths :
  originVertex g = None ∨
    originVertex g = Some (LightningNode.PubKeyBytes source) →
  findKPaths fuel g r source target amt startingPath numPaths =
    Ret (Ok paths) →
  Forall (fun p => ∃ tl, p = selfEdge source :: tl) paths.
Proof.
  intros Ho Hrun.
  destruct (findKPaths_gen_bounds _ _ _ _ _ _ _ _ _ _ Hrun)
    as (_ & _ & Hself & _).
  by apply Hself.
Qed.

(** X16. A path that [findPath] returns without error has at most 20
    edges, also when it comes from the second attempt through [findKPaths];
    a path comes with an error only if the caller asked to stop at an
    over-long path: then it has more than 20 edges and the error is
    [ErrMaxHopsExceeded]. *)
Theorem findPath_hop_limit fuel g r sourceNode target amt p err :
  findPath fuel g r sourceNode target amt = Ret (p, err) →
  (err = None → (length p ≤ 20)%nat) ∧
  (p ≠ [] → err ≠ None →
   err = Some ErrMaxHopsExceeded ∧ stopAtMaxHopsExceeded r = true ∧
   (20 < length p)%nat).
Proof.
  intros Hrun.
  destruct (stopAtMaxHopsExceeded r) eqn:Hstop.
  { destruct (findPath_gen_search _ _ _ _ _ _ _ _ _ Hrun (or_introl Hstop))
      as (_ & _ & Hlen & Herr).
    split; [done|]. intros Hp He. destruct (Herr Hp He) as (? & _ & ?). done. }
  destruct (decide (p ≠ [] ∧ err ≠ None)) as [Hpe|Hpe].
  { destruct (findPath_gen_search _ _ _ _ _ _ _ _ _ Hrun (or_intror Hpe))
      as (_ & _ & _ & Herr).
    destruct Hpe as [Hp He]. destruct (Herr Hp He) as (_ & Hs & _).
    by rewrite Hstop in Hs. }
  split; [|intros Hp He; by destruct Hpe].
  intros ->. unfold findPath, findPath_gen in Hrun. rewrite Hstop in Hrun.
  destruct (if tx g then None else Begin (graph g)); [done|].
  destruct (ForEachNode (graph g)) as [nodes|e]; [|done].
  destruct (foldl addAdditionalEdges _ _) as [distance0 addl].
  exec_step Hrun. destruct a as [st|e]; [|done].
  destruct (next st !! _); [|done].
  exec_step Hrun. case_bool_decide as Hlen.
  - exec_step Hrun. destruct a0 as [[|[|e0 p0] ?]|e] eqn:Ha; try done.
    injection Hrun as <-.
    destruct (findKPaths_gen_bounds _ _ _ _ _ _ _ _ _ _ E1) as (Hb & _).
    apply Forall_cons in Hb as [Hb _]. unfold HopLimit in Hb. simpl in Hb. lia.
  - injection Hrun as <-. unfold HopLimit in Hlen. lia.
Qed.

(** ** The paths of [findPaths] *)

Lemma alternativesLoop_dist fuel txb graph originV amt feeLimit numPaths
    bandwidthHints ignoredEdges segParams startingPathFee n i segPaths
    candidatePaths candidatePaths' :
  alternativesLoop fuel txb graph originV amt feeLimit numPaths
    bandwidthHints ignoredEdges segParams startingPathFee n i segPaths
    candidatePaths = Ret (Ok candidatePaths') →
  Forall (fun q => path_dist q = Z.of_nat (length (hops q))) candidatePaths →
  Forall (fun q => path_dist q = Z.of_nat (length (hops q))) candidatePaths'.
Proof.
  revert i segPaths candidatePaths.
  induction n as [|n IH]; intros i segPaths cands Hrun Hc; simpl in Hrun.
  { by injection Hrun as <-. }
  exec_step Hrun. destruct (seg_pegged a); [by eapply IH|].
  exec_step Hrun. exec_step Hrun. exec_step Hrun.
  destruct a2 as [segKPaths|e]; [|done].
  destruct (stitchLoop i 0 segKPaths segPaths cands) as [sp' cs'] eqn:Hs.
  eapply IH; [exact Hrun|].
  apply Forall_forall. intros q Hq.
  pose proof (stitchLoop_pushed i 0 segKPaths segPaths cands q) as Hp.
  rewrite Hs in Hp. destruct (Hp Hq) as [Hin|(? & ? & _ & _ & _ & Hd)]; [|done].
  by eapply Forall_forall in Hc.
Qed.

(** The candidates of [findPaths] stay a heap by the number of entries. *)
Lemma stitchLoop_is_heap i j segKPaths segPaths candidatePaths :
  is_heap path_dist candidatePaths →
  is_heap path_dist (stitchLoop i j segKPaths segPaths candidatePaths).2.
Proof.
  revert j segPaths candidatePaths.
  induction segKPaths as [|segKPath rest IH]; intros j segPaths cands Hh;
    simpl; [done|].
  destruct (bool_decide (i ≠ 0%nat) && bool_decide (j = 0%nat));
    [by apply IH|].
  case_bool_decide; [by apply IH|]. by apply IH, heap_push_is_heap.
Qed.

Lemma alternativesLoop_is_heap fuel txb graph originV amt feeLimit numPaths
    bandwidthHints ignoredEdges segParams startingPathFee n i segPaths
    candidatePaths candidatePaths' :
  alternativesLoop fuel txb graph originV amt feeLimit numPaths
    bandwidthHints ignoredEdges segParams startingPathFee n i segPaths
    candidatePaths = Ret (Ok candidatePaths') →
  is_heap path_dist candidatePaths → is_heap path_dist candidatePaths'.
Proof.
  revert i segPaths candidatePaths.
  induction n as [|n IH]; intros i segPaths cands Hrun Hc; simpl in Hrun.
  { by injection Hrun as <-. }
  exec_step Hrun. destruct (seg_pegged a); [by eapply IH|].
  exec_step Hrun. exec_step Hrun. exec_step Hrun.
  destruct a2 as [segKPaths|e]; [|done].
  destruct (stitchLoop i 0 segKPaths segPaths cands) as [sp' cs'] eqn:Hs.
  eapply IH; [exact Hrun|].
  pose proof (stitchLoop_is_heap i 0 segKPaths segPaths cands Hc) as Hf.
  by rewrite Hs in Hf.
Qed.

(** The selection takes at most [n] candidates, shortest first. *)
Lemma selectLoop_sorted n candidatePaths shortest :
  is_heap path_dist candidatePaths →
  Forall (fun q => path_dist q = Z.of_nat (length (hops q))) candidatePaths →
  ∃ out,
    selectLoop n candidatePaths shortest = shortest ++ out ∧
    (length out ≤ n)%nat ∧ (length out ≤ length candidatePaths)%nat ∧
    Forall (fun o => ∃ q, q ∈ candidatePaths ∧ o = hops q) out ∧
    StronglySorted (fun a b => (length a ≤ length b)%nat) out.
Proof.
  revert candidatePaths shortest.
  induction n as [|n IH]; intros cands shortest Hh Hd; simpl.
  { exists []. rewrite app_nil_r. repeat split; try constructor; simpl; lia. }
  destruct (heap_pop path_dist cands) as [[p cands']|] eqn:Hp.
  2: { exists []. rewrite app_nil_r. repeat split; try constructor; simpl; lia. }
  destruct (heap_pop_is_heap _ _ _ _ Hh Hp) as [Hleast Hh'].
  pose proof (heap_pop_Permutation _ _ _ _ Hp) as Hperm.
  destruct (heap_pop_Forall _ _ _ _ _ Hp Hd) as [Hdp Hd'].
  destruct (IH cands' (shortest ++ [hops p]) Hh' Hd')
    as (out & -> & Hn & Hl & Hfrom & Hsorted).
  exists (hops p :: out). rewrite <- app_assoc. split; [done|].
  rewrite (Permutation_length Hperm). simpl.
  split; [lia|]. split; [lia|]. split.
  - constructor.
    + exists p. split; [|done]. rewrite Hperm. by left.
    + eapply Forall_impl; [exact Hfrom|]. simpl.
      intros o (q & Hq & ->). exists q. split; [|done].
      rewrite Hperm. by right.
  - constructor; [done|].
    eapply Forall_impl; [exact Hfrom|]. simpl. intros o (q & Hq & ->).
    assert (q ∈ cands) as Hqc by (rewrite Hperm; by right).
    specialize (Hleast q Hqc).
    eapply Forall_forall in Hd; [|exact Hqc]. lia.
Qed.

(** X19. [findPaths] returns at most [numPaths] paths, in non-decreasing
    order of their number of entries. *)
Theorem findPaths_sorted fuel txb graph source target amt feeLimit numPaths
    bandwidthHints additionalPegs paths :
  findPaths fuel txb graph source target amt feeLimit numPaths
    bandwidthHints additionalPegs = Ret (Ok paths) →
  (length paths ≤ Z.to_nat numPaths)%nat ∧
  StronglySorted (fun a b => (length a ≤ length b)%nat) paths.
Proof.
  intros Hrun. unfold findPaths in Hrun.
  exec_step Hrun. destruct a as [pegs|e]; [|done].
  destruct (bool_decide (length pegs = 0%nat)); [done|].
  exec_step Hrun. destruct a as [st|e]; [|done].
  exec_step Hrun. destruct (bool_decide (feeLimit < a)); [done|].
  exec_step Hrun. destruct a0 as [cands|e]; [|done].
  injection Hrun as <-.
  destruct (selectLoop_sorted (Z.to_nat numPaths) cands [])
    as (out & -> & Hn & _ & _ & Hsorted); [| |done].
  - eapply alternativesLoop_is_heap; [exact E2|apply is_heap_nil].
  - eapply alternativesLoop_dist; [exact E2|constructor].
Qed.

(** ** Pegged hops *)

Lemma expandHopPegs_appends graph i pegs expanded out :
  expandHopPegs graph i pegs expanded = Ok out →
  ∃ more, out = expanded ++ more.
Proof.
  revert i expanded. induction pegs as [|peg pegs IH]; intros i ex Hrun;
    simpl in Hrun.
  { injection Hrun as <-. exists []. by rewrite app_nil_r. }
  case_bool_decide.
  - case_bool_decide; [done|].
    destruct (FetchChannelEdgesByID _ _) as [[[edgeInfo ?] ?]|]; [|done].
    destruct (OtherNodeKeyBytes _ _ _); [|done].
    destruct (IH _ _ Hrun) as [more ->].
    eexists. by rewrite <- !app_assoc.
  - destruct (IH _ _ Hrun) as [more ->].
    eexists. by rewrite <- !app_assoc.
Qed.

(** Without pegged channels the first loop copies the pegs and does not
    ask the store. *)
Lemma expandHopPegs_no_channel graph i pegs expanded :
  Forall (fun peg => HopPeg.ChannelID peg = 0) pegs →
  expandHopPegs graph i pegs expanded = Ok (expanded ++ pegs).
Proof.
  revert i expanded. induction pegs as [|peg pegs IH]; intros i ex Hc; simpl.
  { by rewrite app_nil_r. }
  apply Forall_cons in Hc as [Hp Hc].
  rewrite bool_decide_eq_false_2 by (by intros ?).
  rewrite IH by done. by rewrite <- app_assoc.
Qed.

Lemma dedupHopPegs_from expanded k l out0 :
  drop k expanded = l →
  foldl (fun acc ipeg =>
           out ← acc;
           let '(i, peg) := ipeg in
           if bool_decide (HopPeg.ChannelID peg = 0) &&
              bool_decide (0 < i)%nat
           then
             prev ← idx expanded (i - 1)%nat;
             if bool_decide (HopPeg.NodeID peg = HopPeg.NodeID prev)
             then mret out
             else mret (out ++ [peg])
           else mret (out ++ [peg]))
        (Ret out0) (imap (fun i peg => ((k + i)%nat, peg)) l) =
  Ret (out0 ++ dropRepeatsFrom
                 (if bool_decide (k = 0%nat) then None
                  else expanded !! (k - 1)%nat) l).
Proof.
  revert k out0. induction l as [|x t IH]; intros k out0 Hd.
  { simpl. by rewrite app_nil_r. }
  assert (expanded !! k = Some x) as Hx.
  { rewrite <- (Nat.add_0_r k), <- lookup_drop, Hd. done. }
  assert (drop (S k) expanded = t) as Hd'.
  { replace (S k) with (k + 1)%nat by lia. by rewrite <- drop_drop, Hd. }
  rewrite imap_cons. cbn [foldl]. rewrite Nat.add_0_r.
  rewrite (imap_ext _ (fun i peg => ((S k + i)%nat, peg))) by (intros; simpl; f_equal; lia).
  cbn [dropRepeatsFrom].
  assert (∀ out1, 
    foldl (fun acc ipeg =>
           out ← acc;
           let '(i, peg) := ipeg in
           if bool_decide (HopPeg.ChannelID peg = 0) &&
              bool_decide (0 < i)%nat
           then
             prev ← idx expanded (i - 1)%nat;
             if bool_decide (HopPeg.NodeID peg = HopPeg.NodeID prev)
             then mret out
             else mret (out ++ [peg])
           else mret (out ++ [peg]))
        (Ret out1) (imap (fun i peg => ((S k + i)%nat, peg)) t) =
    Ret (out1 ++ dropRepeatsFrom (Some x) t)) as Hnext.
  { intros out1. rewrite (IH (S k) out1 Hd').
    rewrite bool_decide_eq_false_2 by lia.
    replace (S k - 1)%nat with k by lia. by rewrite Hx. }
  unfold mbind, mret, exec_bind, exec_ret in *.
  destruct (bool_decide (HopPeg.ChannelID x = 0)) eqn:Hc; simpl andb.
  - destruct (decide (k = 0%nat)) as [->|Hk].
    + rewrite (bool_decide_eq_false_2 (0 < 0)%nat) by lia.
      rewrite bool_decide_eq_true_2 by done. simpl from_option.
      rewrite Hnext. by rewrite <- app_assoc.
    + rewrite (bool_decide_eq_true_2 (0 < k)%nat) by lia.
      rewrite (bool_decide_eq_false_2 (k = 0%nat)) by done.
      destruct (lookup_lt_is_Some_2 expanded (k - 1)%nat) as [p Hp].
      { apply lookup_lt_Some in Hx. lia. }
      rewrite (idx_Some _ _ _ Hp), Hp. simpl.
      destruct (bool_decide (HopPeg.NodeID x = HopPeg.NodeID p)).
      * rewrite Hnext. done.
      * rewrite Hnext. by rewrite <- app_assoc.
  - lazy beta iota. rewrite Hnext. by rewrite <- app_assoc.
Qed.

(** The second loop neither fails nor panics: it keeps [dropRepeats]. *)
Lemma dedupHopPegs_dropRepeats expanded :
  dedupHopPegs expanded = Ret (dropRepeats expanded).
Proof.
  unfold dedupHopPegs, dropRepeats.
  exact (dedupHopPegs_from expanded 0 expanded [] eq_refl).
Qed.

Lemma dropRepeatsFrom_adjacent pegs k p :
  HopPeg.NodeID p = HopPeg.NodeID k →
  ∀ i x y,
    (k :: dropRepeatsFrom (Some p) pegs) !! i = Some x →
    (k :: dropRepeatsFrom (Some p) pegs) !! S i = Some y →
    HopPeg.ChannelID y = 0 → HopPeg.NodeID y ≠ HopPeg.NodeID x.
Proof.
  revert k p. induction pegs as [|x0 t IH]; intros k p Hkp i x y Hx Hy Hc.
  { by destruct i. }
  cbn [dropRepeatsFrom from_option] in Hx, Hy.
  destruct (bool_decide (HopPeg.ChannelID x0 = 0)) eqn:Hc0;
    [apply bool_decide_eq_true_1 in Hc0 | apply bool_decide_eq_false_1 in Hc0];
    simpl andb in Hx, Hy.
  - destruct (bool_decide (HopPeg.NodeID x0 = HopPeg.NodeID p)) eqn:Hn;
      [apply bool_decide_eq_true_1 in Hn | apply bool_decide_eq_false_1 in Hn];
      simpl app in Hx, Hy.
    + apply (IH k x0 (eq_trans Hn Hkp) i x y Hx Hy Hc).
    + destruct i as [|i].
      * injection Hx as <-. injection Hy as <-. by rewrite <- Hkp.
      * apply (IH x0 x0 eq_refl i x y Hx Hy Hc).
  - simpl app in Hx, Hy. destruct i as [|i].
    + injection Hx as <-. injection Hy as <-. done.
    + apply (IH x0 x0 eq_refl i x y Hx Hy Hc).
Qed.

Lemma dropRepeats_cons peg pegs :
  dropRepeats (peg :: pegs) = peg :: dropRepeatsFrom (Some peg) pegs.
Proof.
  unfold dropRepeats. cbn [dropRepeatsFrom from_option].
  by rewrite andb_false_r.
Qed.

Lemma dropRepeats_short pegs :
  (length pegs < 2)%nat → dropRepeats pegs = pegs.
Proof.
  destruct pegs as [|a [|b t]]; simpl; intros; try lia; [done|].
  by rewrite dropRepeats_cons.
Qed.

(** [prepareHopPegs] in one piece: the pegs of the first loop, without the
    repeats. *)
Lemma prepareHopPegs_dropRepeats graph pegs :
  prepareHopPegs graph pegs =
  Ret (match expandHopPegs graph 0 pegs [] with
       | Err e => Err e
       | Ok expanded => Ok (dropRepeats expanded)
       end).
Proof.
  unfold prepareHopPegs.
  destruct (expandHopPegs graph 0 pegs []) as [expanded|e]; [|done].
  case_bool_decide.
  - by rewrite dropRepeats_short.
  - by rewrite dedupHopPegs_dropRepeats.
Qed.

(** X20. [prepareHopPegs] never panics. A pegged channel on the first peg
    is [ErrPegNotInNetwork]. In the pegs it returns the first is the first
    of the input, and a peg without channel never follows a peg of the same
    node: no segment without pegged channel starts where it ends. *)
Theorem prepareHopPegs_result graph pegs :
  (∃ res, prepareHopPegs graph pegs = Ret res) ∧
  (∀ peg rest, pegs = peg :: rest → HopPeg.ChannelID peg ≠ 0 →
               prepareHopPegs graph pegs = Ret (Err ErrPegNotInNetwork)) ∧
  (∀ out, prepareHopPegs graph pegs = Ret (Ok out) →
          head out = head pegs ∧
          ∀ i x y, out !! i = Some x → out !! S i = Some y →
                   HopPeg.ChannelID y = 0 →
                   HopPeg.NodeID y ≠ HopPeg.NodeID x).
Proof.
  rewrite prepareHopPegs_dropRepeats. split; [by eexists|]. split.
  - intros peg rest -> Hc. simpl.
    by rewrite bool_decide_eq_true_2 by done.
  - intros out Hout.
    destruct (expandHopPegs graph 0 pegs []) as [expanded|e] eqn:He; [|done].
    injection Hout as <-. split.
    + destruct pegs as [|peg rest]; simpl in He.
      { by injection He as <-. }
      case_bool_decide; [done|].
      apply expandHopPegs_appends in He as [more ->]. simpl.
      by rewrite dropRepeats_cons.
    + destruct expanded as [|a t]; [by intros [|?]|].
      rewrite dropRepeats_cons. by apply dropRepeatsFrom_adjacent.
Qed.

(** X21. When no peg names a channel [prepareHopPegs] does not ask the
    store and does not fail: it returns the pegs without those that repeat
    the node of the peg before them. *)
Theorem prepareHopPegs_no_channel graph pegs :
  Forall (fun peg => HopPeg.ChannelID peg = 0) pegs →
  prepareHopPegs graph pegs = Ret (Ok (dropRepeats pegs)) ∧
  ∀ i x y, dropRepeats pegs !! i = Some x → dropRepeats pegs !! S i = Some y →
           HopPeg.NodeID y ≠ HopPeg.NodeID x.
Proof.
  intros Hc. split.
  - rewrite prepareHopPegs_dropRepeats.
    by rewrite (expandHopPegs_no_channel graph 0 pegs [] Hc).
  - intros i x y Hx Hy.
    assert (HopPeg.ChannelID y = 0) as Hy0.
    { assert (y ∈ pegs) as Hin; [|by eapply Forall_forall in Hc].
      assert (∀ prev l z, z ∈ dropRepeatsFrom prev l → z ∈ l) as Hsub.
      { intros prev l. revert prev. induction l as [|a l IH]; intros prev z Hz;
          [done|].
        cbn [dropRepeatsFrom] in Hz. apply elem_of_app in Hz as [Hz|Hz].
        - destruct (_ && _); [by apply elem_of_nil in Hz|].
          apply list_elem_of_singleton in Hz as ->. by left.
        - right. by eapply IH. }
      eapply Hsub. eapply list_elem_of_lookup_2. exact Hy. }
    destruct pegs as [|a t]; [done|].
    rewrite dropRepeats_cons in Hx, Hy.
    by eapply dropRepeatsFrom_adjacent.
Qed.

(** X23. Asked for paths from the source to itself, without pegs,
    [findPaths] searches nothing: the pegs shrink to one, the starting path
    is empty and its fee is [0 - amt] in uint64, so the result is
    [ErrNoRouteFound] when that passes the fee limit and no path at all
    otherwise, on any graph. *)
Theorem findPaths_to_self fuel txb graph source amt feeLimit numPaths
    bandwidthHints :
  findPaths fuel txb graph source (LightningNode.PubKeyBytes source) amt
    feeLimit numPaths bandwidthHints [] =
  Ret (if bool_decide (feeLimit < u64 (0 - amt)) then Err ErrNoRouteFound
       else Ok []).
Proof.
  unfold findPaths. rewrite prepareHopPegs_dropRepeats.
  rewrite expandHopPegs_no_channel by (repeat constructor).
  simpl app. rewrite dropRepeats_cons. cbn [dropRepeatsFrom from_option].
  simpl HopPeg.ChannelID. simpl HopPeg.NodeID.
  rewrite !bool_decide_eq_true_2 by done. simpl.
  case_bool_decide; [done|].
  simpl. by destruct (Z.to_nat numPaths).
Qed.
End MoreSearchProperties.

(** * Hop payloads *)

(** The 8 bytes written for a uint64 spell it back. *)
Lemma getUint64_putUint64 v : is_u64 v → getUint64 (putUint64 v) = v.
Proof.
  unfold is_u64, getUint64, putUint64. intros Hv. simpl.
  change 255 with (Z.ones 8). rewrite !Z.land_ones by lia.
  rewrite !Z.shiftr_div_pow2 by lia.
  change (2 ^ (8 * 0)) with 1. rewrite Z.div_1_r.
  pose proof (Z.div_mod v 256 ltac:(lia)) as H0.
  pose proof (Z.div_mod (v / 2 ^ 8) 256 ltac:(lia)) as H1.
  pose proof (Z.div_mod (v / 2 ^ 16) 256 ltac:(lia)) as H2.
  pose proof (Z.div_mod (v / 2 ^ 24) 256 ltac:(lia)) as H3.
  pose proof (Z.div_mod (v / 2 ^ 32) 256 ltac:(lia)) as H4.
  pose proof (Z.div_mod (v / 2 ^ 40) 256 ltac:(lia)) as H5.
  pose proof (Z.div_mod (v / 2 ^ 48) 256 ltac:(lia)) as H6.
  pose proof (Z.div_mod (v / 2 ^ 56) 256 ltac:(lia)) as H7.
  rewrite !Z.div_div in * by lia.
  change (2 ^ 8 * 256) with (2 ^ 16) in *.
  change (2 ^ 16 * 256) with (2 ^ 24) in *.
  change (2 ^ 24 * 256) with (2 ^ 32) in *.
  change (2 ^ 32 * 256) with (2 ^ 40) in *.
  change (2 ^ 40 * 256) with (2 ^ 48) in *.
  change (2 ^ 48 * 256) with (2 ^ 56) in *.
  change (2 ^ 56 * 256) with (2 ^ 64) in *.
  change (2 ^ (8 * 1)) with (2 ^ 8). change (2 ^ (8 * 2)) with (2 ^ 16).
  change (2 ^ (8 * 3)) with (2 ^ 24). change (2 ^ (8 * 4)) with (2 ^ 32).
  change (2 ^ (8 * 5)) with (2 ^ 40). change (2 ^ (8 * 6)) with (2 ^ 48).
  change (2 ^ (8 * 7)) with (2 ^ 56). change 256 with (2 ^ 8) in H0.
  rewrite (Z.div_small v (2 ^ 64)) in H7 by lia.
  change (2 ^ 8) with 256 in *. lia.
Qed.

Lemma hopPayloadsFrom_spec allHops i hops :
  drop i allHops = hops →
  ∃ payloads,
    hopPayloadsFrom allHops i hops = Ret payloads ∧
    length payloads = length hops ∧
    ∀ j hop pl,
      hops !! j = Some hop → payloads !! j = Some pl →
      Realm pl = 0 ∧
      ForwardAmount pl = Hop.AmtToForward hop ∧
      OutgoingCltv pl = Hop.OutgoingTimeLock hop ∧
      NextAddress pl =
        putUint64 (from_option Hop.ChannelID 0 (allHops !! (i + j + 1)%nat)).
Proof.
  revert i. induction hops as [|hop rest IH]; intros i Hd.
  { exists []. split; [done|]. split; [done|]. by intros []. }
  assert (allHops !! i = Some hop) as Hi.
  { rewrite <- (Nat.add_0_r i), <- lookup_drop, Hd. done. }
  assert (drop (S i) allHops = rest) as Hd'.
  { replace (S i) with (i + 1)%nat by lia. by rewrite <- drop_drop, Hd. }
  destruct (IH (S i) Hd') as (payloads & Hrun & Hlen & Hall).
  pose proof (lookup_lt_Some _ _ _ Hi) as Hlt.
  assert (∃ nextHop,
    (if bool_decide (i ≠ (length allHops - 1)%nat)
     then nxt ← idx allHops (i + 1)%nat; mret (Hop.ChannelID nxt)
     else mret 0) = Ret nextHop ∧
    nextHop = from_option Hop.ChannelID 0 (allHops !! (i + 1)%nat))
    as (nextHop & Hnext & Hval).
  { case_bool_decide as Hlast.
    - destruct (lookup_lt_is_Some_2 allHops (i + 1)%nat) as [nxt Hn]; [lia|].
      rewrite (idx_Some _ _ _ Hn), Hn. by eexists.
    - rewrite (lookup_ge_None_2 allHops (i + 1)%nat) by lia. by eexists. }
  eexists. cbn [hopPayloadsFrom]. rewrite Hnext, Hrun. simpl.
  split; [reflexivity|]. split; [simpl; by rewrite Hlen|].
  intros [|j] hop' pl Hh Hp.
  - injection Hh as <-. injection Hp as <-. simpl.
    rewrite Nat.add_0_r, <- Hval. done.
  - simpl in Hh, Hp. destruct (Hall j hop' pl Hh Hp) as (? & ? & ? & Hna).
    split; [done|]. split; [done|]. split; [done|].
    rewrite Hna. do 3 f_equal. lia.
Qed.

(** X22. [ToHopPayloads] never panics and yields one payload per hop, with
    realm 0, the amount and the time lock of the hop, and as next address
    the 8 big-endian bytes of the channel of the next hop, which spell that
    channel back, and of 0 for the last hop. *)
Theorem ToHopPayloads_spec r :
  ∃ payloads,
    ToHopPayloads r = Ret payloads ∧
    length payloads = length (Route.Hops r) ∧
    ∀ i hop pl,
      Route.Hops r !! i = Some hop → payloads !! i = Some pl →
      Realm pl = 0 ∧
      ForwardAmount pl = Hop.AmtToForward hop ∧
      OutgoingCltv pl = Hop.OutgoingTimeLock hop ∧
      length (NextAddress pl) = 8%nat ∧
      match Route.Hops r !! (i + 1)%nat with
      | Some nxt =>
          is_u64 (Hop.ChannelID nxt) →
          getUint64 (NextAddress pl) = Hop.ChannelID nxt
      | None => NextAddress pl = [0; 0; 0; 0; 0; 0; 0; 0]
      end.
Proof.
  destruct (hopPayloadsFrom_spec (Route.Hops r) 0 (Route.Hops r) eq_refl)
    as (payloads & Hrun & Hlen & Hall).
  exists payloads. split; [done|]. split; [done|].
  intros i hop pl Hh Hp. destruct (Hall i hop pl Hh Hp) as (? & ? & ? & Hna).
  split; [done|]. split; [done|]. split; [done|]. simpl in Hna.
  split; [by rewrite Hna|].
  destruct (Route.Hops r !! (i + 1)%nat) as [nxt|]; simpl in Hna.
  - intros Hu. rewrite Hna. by apply getUint64_putUint64.
  - by rewrite Hna.
Qed.

Lemma ToHopPayloads_spec_witness :
  ∃ r payloads,
    NewRouteFromHops 1000 144 Examples.vS
      [Examples.hop Examples.vA 7; Examples.hop Examples.vT 8] = Ret (Ok r) ∧
    ToHopPayloads r = Ret payloads ∧
    NextAddress <$> payloads =
      [[0; 0; 0; 0; 0; 0; 0; 8]; [0; 0; 0; 0; 0; 0; 0; 0]] ∧
    ∀ i hop pl,
      Route.Hops r !! i = Some hop → payloads !! i = Some pl →
      Realm pl = 0 ∧
      ForwardAmount pl = Hop.AmtToForward hop ∧
      OutgoingCltv pl = Hop.OutgoingTimeLock hop ∧
      length (NextAddress pl) = 8%nat ∧
      match Route.Hops r !! (i + 1)%nat with
      | Some nxt =>
          is_u64 (Hop.ChannelID nxt) →
          getUint64 (NextAddress pl) = Hop.ChannelID nxt
      | None => NextAddress pl = [0; 0; 0; 0; 0; 0; 0; 0]
      end.
Proof.
  eexists.
  destruct (ToHopPayloads_spec
              (Route.Build 144 (u64 (1000 - 0)) 1000 Examples.vS
                 [Examples.hop Examples.vA 7; Examples.hop Examples.vT 8]
                 (foldl (fun s hp => {[ Hop.PubKeyBytes hp ]} ∪ s) ∅
                    [Examples.hop Examples.vA 7; Examples.hop Examples.vT 8])
                 (foldl (fun s hp => {[ Hop.ChannelID hp ]} ∪ s) ∅
                    [Examples.hop Examples.vA 7; Examples.hop Examples.vT 8])))
    as (payloads & Hrun & Hlen & Hall).
  exists payloads. split; [reflexivity|]. split; [exact Hrun|].
  split; [|exact Hall].
  vm_compute in Hrun. injection Hrun as <-. reflexivity.
Defined.

(** * The further properties on concrete graphs *)

Lemma processEdge_origin_free_witness :
  fee MoreExamples.reachedS = 0 ∧
  amountToReceive MoreExamples.reachedS =
    u64 (amountToReceive (distance_at Examples.reachedA Examples.vA)) ∧
  dist MoreExamples.reachedS =
    i64 (dist (distance_at Examples.reachedA Examples.vA)).
Proof.
  apply (processEdge_origin_free (H := Examples.externals)
           Examples.unrestricted Examples.vS 100000 Examples.reachedA
           (Examples.nodeOf Examples.vS) Examples.edgeSA 1000000000
           Examples.vA).
  - reflexivity.
  - vm_compute. reflexivity.
Defined.

Lemma findPath_to_self_witness :
  findPath (H := Examples.externals) 1
    (Examples.paramsOf Examples.fiveNodes) Examples.unrestricted
    (Examples.nodeOf Examples.vS) Examples.vS 100000 =
  Ret ([], Some ErrNoPathFound).
Proof.
  apply (findPath_to_self (H := Examples.externals) 0
           (Examples.paramsOf Examples.fiveNodes) Examples.unrestricted
           (Examples.nodeOf Examples.vS) 100000
           (Examples.nodeOf <$>
              [Examples.vS; Examples.vA; Examples.vB; Examples.vC;
               Examples.vT])).
  - reflexivity.
  - reflexivity.
Defined.

Lemma findPath_stop_path_witness :
  pathFrom (recordable (H := Examples.externals) MoreExamples.stopping
              Examples.vS)
           Examples.vS Examples.threeHops ∧
  (Examples.threeHops ≠ [] ∨ @None routerError = None →
   pathEnd Examples.vS Examples.threeHops = Examples.vT) ∧
  (@None routerError = None → (length Examples.threeHops ≤ HopLimit)%nat) ∧
  (Examples.threeHops ≠ [] → @None routerError ≠ None →
   @None routerError = Some ErrMaxHopsExceeded ∧
   (HopLimit < length Examples.threeHops)%nat).
Proof.
  apply (findPath_stop_path (H := Examples.externals) 10
           (Examples.paramsOf Examples.fiveNodes) MoreExamples.stopping
           (Examples.nodeOf Examples.vS) Examples.vT 100000
           Examples.threeHops None).
  - reflexivity.
  - vm_compute. reflexivity.
Defined.

Lemma findPath_hop_limit_witness :
  (@None routerError = None → (length Examples.threeHops ≤ 20)%nat) ∧
  (Examples.threeHops ≠ [] → @None routerError ≠ None →
   @None routerError = Some ErrMaxHopsExceeded ∧
   stopAtMaxHopsExceeded Examples.unrestricted = true ∧
   (20 < length Examples.threeHops)%nat).
Proof.
  apply (findPath_hop_limit (H := Examples.externals) 10
           (Examples.paramsOf Examples.fiveNodes) Examples.unrestricted
           (Examples.nodeOf Examples.vS) Examples.vT 100000
           Examples.threeHops None).
  vm_compute. reflexivity.
Defined.

Lemma findKPaths_bounds_witness :
  Forall (fun p => length p ≤ 21)%nat
         [Examples.selfS :: Examples.threeHops; hops Examples.deviation] ∧
  (1 <= 2 < 2 ^ 32 →
   (length [Examples.selfS :: Examples.threeHops; hops Examples.deviation]
    ≤ Z.to_nat 2)%nat) ∧
  (∀ o, originVertex (Examples.paramsOf Examples.fiveNodes) = Some o →
        LightningNode.PubKeyBytes (Examples.nodeOf Examples.vS) ≠ o →
        Forall (fun p => length p ≤ 20)%nat
               [Examples.selfS :: Examples.threeHops;
                hops Examples.deviation]).
Proof.
  apply (findKPaths_bounds (H := Examples.externals) 10
           (Examples.paramsOf Examples.fiveNodes) Examples.unrestricted
           (Examples.nodeOf Examples.vS) Examples.vT 100000
           Examples.threeHops 2).
  vm_compute. reflexivity.
Defined.

Lemma findKPaths_self_edge_witness :
  Forall (fun p => ∃ tl, p = selfEdge (Examples.nodeOf Examples.vS) :: tl)
         [Examples.selfS :: Examples.threeHops; hops Examples.deviation].
Proof.
  apply (findKPaths_self_edge (H := Examples.externals) 10
           (Examples.paramsOf Examples.fiveNodes) Examples.unrestricted
           (Examples.nodeOf Examples.vS) Examples.vT 100000
           Examples.threeHops 2).
  - left. reflexivity.
  - vm_compute. reflexivity.
Defined.

Lemma findPaths_sorted_witness :
  (length [hops Examples.deviation; Examples.selfS :: Examples.threeHops]
   ≤ Z.to_nat 2)%nat ∧
  StronglySorted (fun a b => (length a ≤ length b)%nat)
    [hops Examples.deviation; Examples.selfS :: Examples.threeHops].
Proof.
  apply (findPaths_sorted (H := Examples.externals) 10 false
           Examples.fiveNodes (Examples.nodeOf Examples.vS) Examples.vT
           100000 noFeeLimit 2 ∅ []).
  vm_compute. reflexivity.
Defined.

(** The pegs of the five nodes: a peg written twice is kept once, and a
    peg over channel 4 brings the other end of the channel, S, which the
    source already is. *)
Example prepareHopPegs_fiveNodes :
  prepareHopPegs Examples.fiveNodes MoreExamples.pegsTwice =
    Ret (Ok [MoreExamples.peg Examples.vS; MoreExamples.peg Examples.vA;
             MoreExamples.peg Examples.vT]) ∧
  prepareHopPegs Examples.fiveNodes MoreExamples.pegsChannel =
    Ret (Ok MoreExamples.pegsChannel).
Proof. split; vm_compute; reflexivity. Qed.

Lemma prepareHopPegs_result_witness :
  head MoreExamples.pegsChannel = head MoreExamples.pegsChannel ∧
  ∀ i x y, MoreExamples.pegsChannel !! i = Some x →
           MoreExamples.pegsChannel !! S i = Some y →
           HopPeg.ChannelID y = 0 →
           HopPeg.NodeID y ≠ HopPeg.NodeID x.
Proof.
  apply (prepareHopPegs_result Examples.fiveNodes MoreExamples.pegsChannel).
  vm_compute. reflexivity.
Defined.

Lemma prepareHopPegs_no_channel_witness :
  prepareHopPegs Examples.fiveNodes MoreExamples.pegsTwice =
    Ret (Ok (dropRepeats MoreExamples.pegsTwice)) ∧
  ∀ i x y, dropRepeats MoreExamples.pegsTwice !! i = Some x →
           dropRepeats MoreExamples.pegsTwice !! S i = Some y →
           HopPeg.NodeID y ≠ HopPeg.NodeID x.
Proof.
  apply (prepareHopPegs_no_channel Examples.fiveNodes MoreExamples.pegsTwice).
  repeat constructor.
Defined.
